(** * Circles intersection, MPI version (mpi-circles.c)

    A shallow embedding of the simulation kernel of [src/mpi-circles.c]:
    the partitioning of the index range, [reset_displacements],
    [compute_forces], [move_circles] and the per-iteration choreography of
    [main] (reduce, in-place allgather, broadcast).

    Conventions.
    - C [int] is a 32-bit two's complement integer: a [Z] normalised by
      [wrap32] after every arithmetic operation.
    - C [float] is IEEE-754 binary32, evaluated in single precision
      (FLT_EVAL_METHOD 0): [spec_float] with precision 24 and [emax] 128,
      every operation rounding to nearest even.
    - [hypotf] belongs to the C library, not to the program: the kernel
      takes it as a parameter.  [hypotf_ref] is one concrete choice,
      used to run the kernel on concrete scenes.
    - [assert] aborts the run; an array access outside [0, ncircles) is
      a fault. *)

From Stdlib Require Import ZArith List Bool Lia.
From Stdlib Require Import Floats.SpecFloat.
Import ListNotations.

Local Open Scope Z_scope.

(** * The program *)

(** ** Machine integers *)

Module Int.

Definition INT_MAX : Z := 2147483647.
Definition INT_MIN : Z := -2147483648.

(** Two's complement normalisation of a mathematical result. *)
Definition wrap32 (z : Z) : Z := (z + 2147483648) mod 4294967296 - 2147483648.

Definition in_range (z : Z) : Prop := INT_MIN <= z <= INT_MAX.

Definition add (a b : Z) : Z := wrap32 (a + b).
Definition mul (a b : Z) : Z := wrap32 (a * b).
(** C division truncates towards zero. *)
Definition div (a b : Z) : Z := wrap32 (Z.quot a b).

End Int.

(** ** Single-precision floats *)

Module F32.

Definition prec : Z := 24.
Definition emax : Z := 128.

Definition float := spec_float.

Definition valid (x : float) : bool := valid_binary prec emax x.

Definition fadd : float -> float -> float := SFadd prec emax.
Definition fsub : float -> float -> float := SFsub prec emax.
Definition fmul : float -> float -> float := SFmul prec emax.
Definition fdiv : float -> float -> float := SFdiv prec emax.
Definition sqrtf : float -> float := SFsqrt prec emax.
Definition flt : float -> float -> bool := SFltb.
Definition fopp : float -> float := SFopp.
Definition fabs : float -> float := SFabs.

Definition is_nan (x : float) : bool :=
  match x with S754_nan => true | _ => false end.

Definition is_zero (x : float) : bool :=
  match x with S754_zero _ => true | _ => false end.

Definition is_finite (x : float) : bool :=
  match x with S754_zero _ | S754_finite _ _ _ => true | _ => false end.

(** Double precision, for the constants of the source, which are
    written as [double] literals and converted on initialisation. *)
Module D.
Definition prec : Z := 53.
Definition emax : Z := 1024.
Definition of_Z (z : Z) : spec_float := binary_normalize prec emax z 0 false.
Definition div := SFdiv prec emax.
Definition mul := SFmul prec emax.
Definition add := SFadd prec emax.
Definition sqrt := SFsqrt prec emax.
End D.

(** Conversion of a double to float (round to nearest even). *)
Definition of_double (d : spec_float) : float :=
  match d with
  | S754_finite s m e => binary_normalize prec emax (cond_Zopp s (Zpos m)) e s
  | _ => d
  end.

(** The widening conversion float -> double is exact. *)
Definition to_double (x : float) : spec_float :=
  match x with
  | S754_finite s m e => binary_normalize D.prec D.emax (cond_Zopp s (Zpos m)) e s
  | _ => x
  end.

Definition of_Z (z : Z) : float := binary_normalize prec emax z 0 false.

Definition zero : float := S754_zero false.

Definition fle : float -> float -> bool := SFleb.

(** [XMIN], [XMAX], [YMIN], [YMAX], [RMIN], [RMAX]: the bounds of the
    random scene of [init_circles]. *)
Definition XMIN : float := Eval vm_compute in of_double (D.of_Z 0).
Definition XMAX : float := Eval vm_compute in of_double (D.of_Z 1000).
Definition YMIN : float := Eval vm_compute in of_double (D.of_Z 0).
Definition YMAX : float := Eval vm_compute in of_double (D.of_Z 1000).
Definition RMIN : float := Eval vm_compute in of_double (D.of_Z 10).
Definition RMAX : float := Eval vm_compute in of_double (D.of_Z 100).

(** [const float EPSILON = 1e-5;] *)
Definition EPSILON : float :=
  Eval vm_compute in of_double (D.div (D.of_Z 1) (D.of_Z 100000)).

(** [const float K = 1.5;] *)
Definition K : float :=
  Eval vm_compute in of_double (D.div (D.of_Z 3) (D.of_Z 2)).

(** The argument [2.0] of [sqrtf]. *)
Definition two : float := Eval vm_compute in of_double (D.of_Z 2).

(** One implementation of the library function [hypotf]: an infinite
  argument gives [+inf], a zero argument the magnitude of the other
  one; otherwise the products and the sum are formed in double
  precision, where they cannot overflow, and the square root is
  rounded back to single precision. *)
Definition hypotf_ref (x y : float) : float :=
  match x, y with
  | S754_infinity _, _ | _, S754_infinity _ => S754_infinity false
  | S754_nan, _ | _, S754_nan => S754_nan
  | S754_zero _, _ => fabs y
  | _, S754_zero _ => fabs x
  | _, _ =>
      let dx := to_double x in
      let dy := to_double y in
      of_double (D.sqrt (D.add (D.mul dx dx) (D.mul dy dy)))
  end.

End F32.

Import F32.

(** ** Outcomes of a computation that may abort *)

Inductive outcome (A : Type) : Type :=
| Done (a : A)          (* normal completion *)
| AssertFail            (* an [assert] failed: the process aborts *)
| Fault.                (* access outside the array *)

Arguments Done {A} a.
Arguments AssertFail {A}.
Arguments Fault {A}.

Definition bind {A B : Type} (m : outcome A) (k : A -> outcome B) : outcome B :=
  match m with
  | Done a => k a
  | AssertFail => AssertFail
  | Fault => Fault
  end.

Notation "x <- m ;; k" := (bind m (fun x => k))
  (at level 61, m at next level, right associativity).

(** [for (int i = lo; i < lo + count; i++) body], threading the state. *)
Fixpoint for_loop {S : Type} (lo : Z) (count : nat)
         (body : Z -> S -> outcome S) (s : S) : outcome S :=
  match count with
  | O => Done s
  | Datatypes.S count' => s' <- body lo s ;; for_loop (lo + 1) count' body s'
  end.

(** ** The circle store *)

Record circle_t : Type := mkCircle {
  x : float; y : float;     (* coordinates of center *)
  r : float;                (* radius *)
  dx : float; dy : float    (* displacements due to interactions *)
}.

Definition circles := list circle_t.

Definition ncircles (cs : circles) : Z := Z.of_nat (length cs).

(** [circles[i]] as an rvalue.  [Fault] stands for an access outside
    the array, which the C code does not check and whose behaviour is
    undefined. *)
Definition get (cs : circles) (i : Z) : outcome circle_t :=
  if i <? 0 then Fault
  else match nth_error cs (Z.to_nat i) with
       | Some c => Done c
       | None => Fault
       end.

Fixpoint update (cs : circles) (n : nat) (f : circle_t -> circle_t) : circles :=
  match cs, n with
  | [], _ => []
  | c :: cs', O => f c :: cs'
  | c :: cs', S n' => c :: update cs' n' f
  end.

(** A compound assignment to a field of [circles[i]]. *)
Definition modify (cs : circles) (i : Z) (f : circle_t -> circle_t) : outcome circles :=
  if i <? 0 then Fault
  else if i <? ncircles cs then Done (update cs (Z.to_nat i) f)
  else Fault.

Definition set_dx (v : float) (c : circle_t) : circle_t :=
  mkCircle (x c) (y c) (r c) v (dy c).
Definition set_dy (v : float) (c : circle_t) : circle_t :=
  mkCircle (x c) (y c) (r c) (dx c) v.

(** What [init_circles] guarantees of a circle it draws: the centre in
    the square, the radius between its bounds, no displacement. *)
Definition initial_circle (c : circle_t) : bool :=
  fle XMIN (x c) && fle (x c) XMAX && fle YMIN (y c) && fle (y c) YMAX
  && fle RMIN (r c) && fle (r c) RMAX
  && is_zero (dx c) && is_zero (dy c).

(** [reset_displacements] *)
Definition reset_circle (c : circle_t) : circle_t :=
  mkCircle (x c) (y c) (r c) zero zero.

Definition reset_displacements (cs : circles) : circles := map reset_circle cs.

(** [move_circles] *)
Definition move_circle (c : circle_t) : circle_t :=
  mkCircle (fadd (x c) (dx c)) (fadd (y c) (dy c)) (r c) (dx c) (dy c).

Definition move_circles (cs : circles) : circles := map move_circle cs.

Section Kernel.

  (** The library's [hypotf]. *)
Variable hypotf : float -> float -> float.

  (** The direction along which an overlap is split. *)
Definition overlap_xy (dist overlap deltax deltay : float) : float * float :=
    if flt dist EPSILON
    then (fdiv overlap (sqrtf two), fdiv overlap (sqrtf two))
    else (fmul (fdiv overlap dist) deltax, fmul (fdiv overlap dist) deltay).

  (** The four compound assignments that close the overlap branch. *)
Definition apply_overlap (i j : Z) (overlap_x overlap_y : float)
             (cs : circles) : outcome circles :=
    cs1 <- modify cs i (fun c => set_dx (fsub (dx c) (fdiv overlap_x K)) c) ;;
    cs2 <- modify cs1 i (fun c => set_dy (fsub (dy c) (fdiv overlap_y K)) c) ;;
    cs3 <- modify cs2 j (fun c => set_dx (fadd (dx c) (fdiv overlap_x K)) c) ;;
    modify cs3 j (fun c => set_dy (fadd (dy c) (fdiv overlap_y K)) c).

  (** The body of the inner loop of [compute_forces]; the state is the
      running count [n_intersections] and the array. *)
Definition pair_step (i j : Z) (st : Z * circles) : outcome (Z * circles) :=
    let '(n_intersections, cs) := st in
    if i =? j then Done st
    else
      cj <- get cs j ;;
      ci <- get cs i ;;
      let deltax := fsub (x cj) (x ci) in
      let deltay := fsub (y cj) (y ci) in
      let dist := hypotf deltax deltay in
      let Rsum := fadd (r ci) (r cj) in
      if flt dist (fsub Rsum EPSILON) then
        let n_intersections := Int.add n_intersections 1 in
        let overlap := fsub Rsum dist in
        if flt zero overlap then
          let '(overlap_x, overlap_y) := overlap_xy dist overlap deltax deltay in
          cs' <- apply_overlap i j overlap_x overlap_y cs ;;
          Done (n_intersections, cs')
        else AssertFail
      else Done st.

  (** [compute_forces(start, end)]: the number of detected overlaps and
      the array with the displacements accumulated. *)
Definition compute_forces (start end_ : Z) (cs : circles) : outcome (Z * circles) :=
    for_loop start (Z.to_nat (end_ - start))
      (fun i st => for_loop 0 (length cs) (fun j st => pair_step i j st) st)
      (0, cs).

End Kernel.

(** ** The iteration of [main] over all ranks

    The processes run the same loop body in lock-step.  The state of the
    run is the array of every rank, in rank order; [size] is the length
    of that list. *)

Definition world := list circles.

(** [start] and [end] of a rank, computed on [int]. *)
Definition partition_start (rank n size : Z) : Z :=
  Int.div (Int.mul rank n) size.
Definition partition_end (rank n size : Z) : Z :=
  Int.div (Int.mul (Int.add rank 1) n) size.

(** [MPI_Reduce] with [MPI_SUM] on [MPI_INT]. *)
Definition reduce_sum (counts : list Z) : Z := fold_left Int.add counts 0.

(** Block [rank] of a buffer, [c] circles long. *)
Definition block (c : nat) (rank : nat) (cs : circles) : circles :=
  firstn c (skipn (rank * c) cs).

Fixpoint gather_blocks (c : nat) (rank : nat) (w : world) : circles :=
  match w with
  | [] => []
  | cs :: w' => block c rank cs ++ gather_blocks c (S rank) w'
  end.

(** [MPI_Allgather] with [MPI_IN_PLACE]: every rank contributes block
    [rank] of its own buffer; every buffer receives the blocks of all
    ranks in rank order and keeps what lies behind the last block. *)
Definition allgather_in_place (c : nat) (w : world) : world :=
  map (fun own => gather_blocks c 0 w ++ skipn (length w * c) own) w.

(** [MPI_Bcast] from rank 0.  The call passes the byte count
    [ncircles * sizeof(circle_t)] as an [int]; the model is that of a
    count that fits, [ncircles * 20 <= INT_MAX]. *)
Definition bcast (w : world) : world :=
  match w with
  | [] => []
  | root :: _ => map (fun _ => root) w
  end.

(** The gathering of the displacements: the receive count is
    [ncircles / size] circles per rank.  The call passes it in bytes,
    [ncircles / size * sizeof(circle_t)], as an [int]; the model is
    that of a count that fits, [ncircles / size * 20 <= INT_MAX]. *)
Definition displacement_merge (locals : world) : world :=
  let size := Z.of_nat (length locals) in
  let c := Z.to_nat (Int.div (ncircles (hd [] locals)) size) in
  allgather_in_place c locals.

Section Main.

Variable hypotf : float -> float -> float.

(** Reset and force computation of every rank on its own range. *)
Fixpoint local_compute (size rank : Z) (w : world) : outcome (list (Z * circles)) :=
  match w with
  | [] => Done []
  | cs :: w' =>
      let cs0 := reset_displacements cs in
      let start := partition_start rank (ncircles cs0) size in
      let end_ := partition_end rank (ncircles cs0) size in
      res <- compute_forces hypotf start end_ cs0 ;;
      rest <- local_compute size (rank + 1) w' ;;
      Done (res :: rest)
  end.

(** One iteration of the loop of [main]: the total printed by rank 0
    and the arrays after the closing broadcast. *)
Definition iteration (w : world) : outcome (Z * world) :=
  let size := Z.of_nat (length w) in
  res <- local_compute size 0 w ;;
  let total_overlaps := reduce_sum (map fst res) in
  let merged := displacement_merge (map snd res) in
  let moved := map move_circles merged in
  Done (total_overlaps, bcast moved).

(** [iterations] rounds: the totals in the order printed, and the final
    arrays. *)
Fixpoint run (iterations : nat) (w : world) : outcome (list Z * world) :=
  match iterations with
  | O => Done ([], w)
  | S k =>
      r1 <- iteration w ;;
      r2 <- run k (snd r1) ;;
      Done (fst r1 :: fst r2, snd r2)
  end.

(** The arrays after the initial broadcast of rank 0's circles. *)
Definition initial_world (size : nat) (cs : circles) : world := repeat cs size.

End Main.


(** ** The partition of the index range *)

(** The ranges of the ranks [0 .. w-1] split [0, n): every range lies in
    [0, n), every index belongs to the range of exactly one rank, and any
    two ranges differ in size by at most one. *)
Definition partition_ok (n w : Z) : Prop :=
  (forall rank, 0 <= rank < w ->
     0 <= partition_start rank n w <= partition_end rank n w
     /\ partition_end rank n w <= n)
  /\ (forall i, 0 <= i < n ->
       exists rank, (0 <= rank < w
         /\ partition_start rank n w <= i < partition_end rank n w)
         /\ forall rank', 0 <= rank' < w ->
              partition_start rank' n w <= i < partition_end rank' n w ->
              rank' = rank)
  /\ (forall a b, 0 <= a < w -> 0 <= b < w ->
       (partition_end a n w - partition_start a n w)
       - (partition_end b n w - partition_start b n w) <= 1).

(** The boundary below the range of rank [k], without overflow. *)
Definition cut (n w k : Z) : Z := k * n / w.

(** ** Vocabulary of the statements *)

(** What the force computation only reads of a circle. *)
Definition geom (c : circle_t) : float * float * float := (x c, y c, r c).

(** What the integration only reads besides the position. *)
Definition rest (c : circle_t) : float * float * float := (r c, dx c, dy c).

(** A circle whose centre and radius are floats of the format. *)
Definition wf_circle (c : circle_t) : Prop :=
  valid (x c) = true /\ valid (y c) = true /\ valid (r c) = true.

Definition wf (cs : circles) : Prop := Forall wf_circle cs.

(** The same number: identical, or two zeros. *)
Definition same_value (a b : float) : Prop :=
  a = b \/ (is_zero a = true /\ is_zero b = true).

(** Two circles of radius 10 centred at (0,0) and (5,0). *)
Definition c_origin : circle_t := mkCircle (of_Z 0) (of_Z 0) (of_Z 10) zero zero.
Definition c_right : circle_t := mkCircle (of_Z 5) (of_Z 0) (of_Z 10) zero zero.
Definition two_circles : circles := [c_origin; c_right].

(** A circle of radius 10 centred at (3,4), to be laid over itself. *)
Definition c_twin : circle_t := mkCircle (of_Z 3) (of_Z 4) (of_Z 10) zero zero.

Section PairQuantities.

Variable hypotf : float -> float -> float.

(** The quantities that [pair_step] computes for a pair. *)
Definition pair_dist (ci cj : circle_t) : float :=
  hypotf (fsub (x cj) (x ci)) (fsub (y cj) (y ci)).
Definition pair_Rsum (ci cj : circle_t) : float := fadd (r ci) (r cj).
Definition overlapping (ci cj : circle_t) : bool :=
  flt (pair_dist ci cj) (fsub (pair_Rsum ci cj) EPSILON).
Definition pair_overlap (ci cj : circle_t) : float :=
  fsub (pair_Rsum ci cj) (pair_dist ci cj).
Definition pair_overlap_xy (ci cj : circle_t) : float * float :=
  overlap_xy (pair_dist ci cj) (pair_overlap ci cj)
    (fsub (x cj) (x ci)) (fsub (y cj) (y ci)).

End PairQuantities.

(** Two implementations of [hypotf] that return the same distance for
    every pair of circles of an array. *)
Definition agree (h1 h2 : float -> float -> float) (cs : circles) : Prop :=
  forall ci cj, In (geom ci) (map geom cs) -> In (geom cj) (map geom cs) ->
    pair_dist h1 ci cj = pair_dist h2 ci cj.

(** A state of the scan of [cs]: centres and radii are those of [cs]. *)
Definition same_geom (cs : circles) (st : Z * circles) : Prop :=
  map geom (snd st) = map geom cs.

(** The inner loop of [compute_forces] for the circle [i]. *)
Definition rows (hypotf : float -> float -> float) (cs : circles)
           (i : Z) (st : Z * circles) : outcome (Z * circles) :=
  for_loop 0 (length cs) (fun j st => pair_step hypotf i j st) st.

(** ** A scene of a thousand circles

    The circles sit on a grid of pitch 30 inside the square of
    [init_circles], 32 to a row, with radius 10; circles 249 and 250,
    neighbours in a row but owned by different ranks when there are
    four, have radius 16 and are the only ones to overlap. *)

Definition X (k : Z) : float := of_Z (30 * k).

Definition special (k : Z) : bool := (k =? 249) || (k =? 250).

Definition grid_circle (i : Z) : circle_t :=
  mkCircle (X (i mod 32)) (X (i / 32))
           (of_Z (if special i then 16 else 10)) zero zero.

Definition indices (n : nat) : list Z := map Z.of_nat (seq 0 n).

Definition thousand : circles := Eval vm_compute in map grid_circle (indices 1000).

(** The pairs that overlap in [thousand]. *)
Definition first_pairs (i j : Z) : bool :=
  ((i =? 249) && (j =? 250)) || ((i =? 250) && (j =? 249)).

Definition no_pairs (i j : Z) : bool := false.

(** *** Checks that a scene is quiet *)

Definition float_beq (a b : float) : bool :=
  match a, b with
  | S754_zero s, S754_zero t => Bool.eqb s t
  | S754_infinity s, S754_infinity t => Bool.eqb s t
  | S754_nan, S754_nan => true
  | S754_finite s m e, S754_finite t m' e' =>
      Bool.eqb s t && Pos.eqb m m' && Z.eqb e e'
  | _, _ => false
  end.

Definition geom_beq (g h : float * float * float) : bool :=
  float_beq (fst (fst g)) (fst (fst h))
  && float_beq (snd (fst g)) (snd (fst h))
  && float_beq (snd g) (snd h).

(** Every circle but the two special ones is where the grid puts it,
    with radius 10. *)
Definition on_grid (cs : circles) : bool :=
  forallb (fun k =>
    special k
    || match get cs k with
       | Done c => geom_beq (geom c) (X (k mod 32), X (k / 32), of_Z 10)
       | _ => false
       end) (indices 1000).

Definition quiet_pair (active : Z -> Z -> bool) (cs : circles) (i j : Z) : bool :=
  (i =? j) || active i j
  || match get cs i, get cs j with
     | Done ci, Done cj => negb (overlapping hypotf_ref ci cj)
     | _, _ => false
     end.

(** The special circles overlap with no circle, the [active] pairs
    apart. *)
Definition quiet_special (active : Z -> Z -> bool) (cs : circles) : bool :=
  forallb (fun j =>
    quiet_pair active cs 249 j && quiet_pair active cs j 249
    && quiet_pair active cs 250 j && quiet_pair active cs j 250) (indices 1000).

Definition diffs : list Z := map (fun k => Z.of_nat k - 31) (seq 0 63).

(** The array after the step of the pair (249, 250), after the step of
    (250, 249), and after both in turn. *)
Definition push_249 : circles :=
  Eval vm_compute in
    match pair_step hypotf_ref 249 250 (0, thousand) with
    | Done (_, cs) => cs
    | _ => []
    end.

Definition push_250 : circles :=
  Eval vm_compute in
    match pair_step hypotf_ref 250 249 (0, thousand) with
    | Done (_, cs) => cs
    | _ => []
    end.

Definition push_both : circles :=
  Eval vm_compute in
    match pair_step hypotf_ref 250 249 (1, push_249) with
    | Done (_, cs) => cs
    | _ => []
    end.

(** The array of every rank after the first iteration, on one rank
    and on four. *)
Definition after_first_1 : circles := Eval vm_compute in move_circles push_both.

Definition after_first_4 : circles :=
  Eval vm_compute in
    hd [] (map move_circles
               (displacement_merge [push_249; push_250; thousand; thousand])).

(** The same arrays with the displacements reset: the state of every
    later iteration. *)
Definition settled_1 : circles := Eval vm_compute in reset_displacements after_first_1.
Definition settled_4 : circles := Eval vm_compute in reset_displacements after_first_4.

(** ** Vocabulary of the rounding lemmas *)

(** The number of binary digits of a mantissa. *)
Definition dig (m : positive) : Z := Zpos (digits2_pos m).

(** Some bit shifted out so far was set. *)
Definition inexact (mrs : shr_record) : bool := shr_r mrs || shr_s mrs.

(** [y] is [x] shifted right by [k] places. *)
Definition shifted (k : Z) (x y : shr_record) : Prop :=
  shr_m y = shr_m x / 2 ^ k
  /\ inexact y = inexact x || negb (shr_m x mod 2 ^ k =? 0).

Section RoundingDefs.

Variables prec emax : Z.

(** The float assembled from a rounded mantissa [m] of at most [prec]
    digits, or [2 ^ prec], at exponent [e]. *)
Definition pack (s : bool) (m e : Z) : spec_float :=
  if m =? 0 then S754_zero s
  else if m <? 2 ^ prec then
    if e <=? emax - prec then S754_finite s (Z.to_pos m) e else S754_infinity s
  else
    if e + 1 <=? emax - prec then S754_finite s (Z.to_pos (2 ^ (prec - 1))) (e + 1)
    else S754_infinity s.

(** The conclusion of [binary_round_aux]: the second shift and the
    overflow test. *)
Definition conclude (s : bool) (m e : Z) : spec_float :=
  let '(mrs'', e'') := shr_fexp prec emax m e loc_Exact in
  match shr_m mrs'' with
  | Z0 => S754_zero s
  | Zpos m => if e'' <=? emax - prec then S754_finite s m e'' else S754_infinity s
  | _ => S754_nan
  end.

(** A mantissa is aligned at [e] when no left shift is needed to reach
    the canonical exponent. *)
Definition aligned (m : positive) (e : Z) : Prop := e <= fexp prec emax (dig m + e).

(** The place of the infinities in the order, in units of [2 ^ emin]. *)
Definition omega : Z := 2 ^ (emax - (emin prec emax)).

(** A float as an integer multiple of [2 ^ emin]. *)
Definition key (f : spec_float) : Z :=
  match f with
  | S754_zero _ => 0
  | S754_nan => 0
  | S754_infinity s => cond_Zopp s omega
  | S754_finite s m e => cond_Zopp s (Zpos m * 2 ^ (e - (emin prec emax)))
  end.

End RoundingDefs.



(** ** Counting the detections of a scan *)

(** Whether the scan of row [i] of [cs] detects an overlap at column
    [j]. *)
Definition detects (hypotf : float -> float -> float) (cs : circles)
           (i j : Z) : bool :=
  match get cs i, get cs j with
  | Done ci, Done cj => negb (i =? j) && overlapping hypotf ci cj
  | _, _ => false
  end.

(** The sum of [f] over [count] consecutive indices from [lo]. *)
Fixpoint sum_from (f : Z -> Z) (lo : Z) (count : nat) : Z :=
  match count with
  | O => 0
  | S count' => f lo + sum_from f (lo + 1) count'
  end.

(** The detections of row [i], and those of the rows [start .. end_ - 1]. *)
Definition row_count (hypotf : float -> float -> float) (cs : circles)
           (i : Z) : Z :=
  sum_from (fun j => if detects hypotf cs i j then 1 else 0) 0 (length cs).

Definition detected (hypotf : float -> float -> float) (cs : circles)
           (start end_ : Z) : Z :=
  sum_from (row_count hypotf cs) start (Z.to_nat (end_ - start)).

(** ** Scenes without a negative zero *)

Definition negative_zero (a : float) : bool :=
  match a with S754_zero true => true | _ => false end.

(** No coordinate of a centre is the negative zero. *)
Definition no_negative_zero (cs : circles) : bool :=
  forallb (fun c => negb (negative_zero (x c)) && negb (negative_zero (y c))) cs.

(** ** Circles of the format *)

(** A circle all of whose fields are floats of the format. *)
Definition valid_circle (c : circle_t) : Prop :=
  wf_circle c /\ valid (dx c) = true /\ valid (dy c) = true.

(** ** Vocabulary of the bounds of a rounding *)

(** A nonnegative float of the format that is no infinity. *)
Definition plain (prec emax : Z) (f : spec_float) : Prop :=
  f = S754_zero false
  \/ exists m e, f = S754_finite false m e /\ bounded prec emax m e = true.

(** The mantissa of a shift record extended by its round bit. *)
Definition with_round (x : shr_record) : shr_record :=
  Build_shr_record (2 * shr_m x + (if shr_r x then 1 else 0)) false (shr_s x).

(** Rounding to nearest, ties to even, of a mantissa given with one
    more bit and a sticky bit. *)
Definition nearest_even (E : Z) (sticky : bool) : Z :=
  if E mod 2 =? 0 then E / 2
  else if sticky || Z.odd (E / 2) then E / 2 + 1 else E / 2.

(** ** The random scene *)

Section Random.

(** [RAND_MAX], and the generator behind [rand()]: its state and the
    function that returns the next value together with the next
    state. *)
Variable RAND_MAX : Z.
Variable rand_state : Type.
Variable rand : rand_state -> Z * rand_state.

(** [randab(a, b)] *)
Definition randab (a b : float) (s : rand_state) : float * rand_state :=
  let (v, s') := rand s in
  (fadd a (fmul (fdiv (of_Z v) (of_Z RAND_MAX)) (fsub b a)), s').

(** The loop of [init_circles], with [count] circles still to draw. *)
Fixpoint init_loop (count : nat) (s : rand_state) : circles * rand_state :=
  match count with
  | O => ([], s)
  | S count' =>
      let (cx, s1) := randab XMIN XMAX s in
      let (cy, s2) := randab YMIN YMAX s1 in
      let (cr, s3) := randab RMIN RMAX s2 in
      let (rest, s4) := init_loop count' s3 in
      (mkCircle cx cy cr zero zero :: rest, s4)
  end.

(** [init_circles(n)], the allocation succeeding. *)
Definition init_circles (n : Z) (s : rand_state) : circles * rand_state :=
  init_loop (Z.to_nat n) s.

End Random.

Arguments randab RAND_MAX {rand_state} rand a b s.
Arguments init_loop RAND_MAX {rand_state} rand count s.
Arguments init_circles RAND_MAX {rand_state} rand n s.

(** The generator of the C standard's sample implementation, with
    [RAND_MAX] = 32767. *)
Definition sample_rand (s : Z) : Z * Z :=
  let s' := (s * 1103515245 + 12345) mod 4294967296 in
  ((s' / 65536) mod 32768, s').

(** ** Unordered pairs *)

(** A [hypotf] that ignores the signs of its arguments. *)
Definition sign_blind (hypotf : float -> float -> float) : Prop :=
  forall a b, hypotf (fopp a) b = hypotf a b /\ hypotf a (fopp b) = hypotf a b.

(** The number of pairs [j < i] of circles that the scan detects as
    overlapping. *)
Definition pairs (hypotf : float -> float -> float) (cs : circles) : Z :=
  sum_from (fun i =>
              sum_from (fun j => if detects hypotf cs i j then 1 else 0)
                       0 (Z.to_nat i))
           0 (length cs).

(** A circle of radius 10 centred at (500,0), away from the others. *)
Definition c_far : circle_t := mkCircle (of_Z 500) (of_Z 0) (of_Z 10) zero zero.
Definition three_circles : circles := [c_origin; c_right; c_far].

(** The sign bit of a float, if it has one. *)
Definition sign_bit (a : float) : option bool :=
  match a with
  | S754_zero s | S754_infinity s | S754_finite s _ _ => Some s
  | S754_nan => None
  end.

(** ** Byte counts and large radii *)

(** [sizeof(circle_t)]: five floats. *)
Definition sizeof_circle_t : Z := 20.

(** * Properties *)

(** ** The partition *)

Lemma wrap32_id (z : Z) : Int.in_range z -> Int.wrap32 z = z.
Proof.
  unfold Int.in_range, Int.INT_MIN, Int.INT_MAX, Int.wrap32. intros H.
  rewrite Z.mod_small by lia. lia.
Qed.

Lemma int_div_exact (p w : Z) :
  0 <= p <= Int.INT_MAX -> 1 <= w -> Int.div p w = p / w.
Proof.
  intros Hp Hw. unfold Int.div. rewrite Z.quot_div_nonneg by lia.
  assert (0 <= p / w <= p).
  { split; [apply Z.div_pos; lia|]. apply Z.div_le_upper_bound; nia. }
  apply wrap32_id. unfold Int.in_range, Int.INT_MIN, Int.INT_MAX in *. lia.
Qed.

(** Without overflow the [int] computation is the floor of [rank*n/w]. *)
Lemma partition_start_exact (rank n w : Z) :
  0 <= n -> 1 <= w -> 0 <= rank <= w -> w * n <= Int.INT_MAX ->
  partition_start rank n w = rank * n / w.
Proof.
  intros Hn Hw Hr Hb. unfold partition_start, Int.mul.
  assert (Hp : 0 <= rank * n <= Int.INT_MAX) by (unfold Int.INT_MAX in *; nia).
  rewrite (wrap32_id (rank * n))
    by (unfold Int.in_range, Int.INT_MIN, Int.INT_MAX in *; lia).
  now apply int_div_exact.
Qed.

Lemma partition_end_exact (rank n w : Z) :
  0 <= n -> 1 <= w -> 0 <= rank < w -> w * n <= Int.INT_MAX ->
  partition_end rank n w = (rank + 1) * n / w.
Proof.
  intros Hn Hw Hr Hb. unfold partition_end.
  destruct (Z.eq_dec n 0) as [->|Hn0].
  - unfold Int.mul. rewrite !Z.mul_0_r. reflexivity.
  - assert (Hr1 : Int.add rank 1 = rank + 1).
    { apply wrap32_id. unfold Int.in_range, Int.INT_MIN, Int.INT_MAX in *. nia. }
    rewrite Hr1. unfold Int.mul.
    assert (Hp : 0 <= (rank + 1) * n <= Int.INT_MAX)
      by (unfold Int.INT_MAX in *; nia).
    rewrite (wrap32_id ((rank + 1) * n))
      by (unfold Int.in_range, Int.INT_MIN, Int.INT_MAX in *; lia).
    now apply int_div_exact.
Qed.

Section Floor.

Variables n w : Z.
Hypothesis Hn : 0 <= n.
Hypothesis Hw : 1 <= w.

Lemma cut_0 : cut n w 0 = 0.
Proof. reflexivity. Qed.

Lemma cut_w : cut n w w = n.
Proof. unfold cut. rewrite Z.mul_comm. apply Z.div_mul. lia. Qed.

Lemma cut_mono (a b : Z) : a <= b -> cut n w a <= cut n w b.
Proof. intros. unfold cut. apply Z.div_le_mono; nia. Qed.

Lemma cut_nonneg (a : Z) : 0 <= a -> 0 <= cut n w a.
Proof. intros. unfold cut. apply Z.div_pos; nia. Qed.

(** A range holds [n / w] circles, or one more. *)
Lemma cut_step (a : Z) :
  n / w <= cut n w (a + 1) - cut n w a <= n / w + 1.
Proof.
  unfold cut.
  pose proof (Z.div_mod (a * n) w ltac:(lia)) as E1.
  pose proof (Z.mod_pos_bound (a * n) w ltac:(lia)) as B1.
  pose proof (Z.div_mod n w ltac:(lia)) as E2.
  pose proof (Z.mod_pos_bound n w ltac:(lia)) as B2.
  pose proof (Z.div_mod ((a + 1) * n) w ltac:(lia)) as E3.
  pose proof (Z.mod_pos_bound ((a + 1) * n) w ltac:(lia)) as B3.
  nia.
Qed.

(** Some range below boundary [k] holds any index below [cut n w k]. *)
Lemma cut_find (i : Z) (k : nat) :
  0 <= i < cut n w (Z.of_nat k) ->
  exists rank, 0 <= rank < Z.of_nat k /\ cut n w rank <= i < cut n w (rank + 1).
Proof.
  induction k as [|k IH]; intros Hi.
  - change (Z.of_nat 0) with 0 in Hi. rewrite cut_0 in Hi. lia.
  - rewrite Nat2Z.inj_succ in *. unfold Z.succ in *.
    destruct (Z_lt_le_dec i (cut n w (Z.of_nat k))) as [Hlt|Hge].
    + destruct IH as [rank [Hr Hc]]; [lia|]. exists rank. lia.
    + exists (Z.of_nat k). lia.
Qed.

Lemma cut_unique (i a b : Z) :
  cut n w a <= i < cut n w (a + 1) -> cut n w b <= i < cut n w (b + 1) -> a = b.
Proof.
  intros Ha Hb.
  destruct (Z.lt_trichotomy a b) as [H|[H|H]]; [|assumption|].
  - pose proof (cut_mono (a + 1) b ltac:(lia)). lia.
  - pose proof (cut_mono (b + 1) a ltac:(lia)). lia.
Qed.

End Floor.

(** C4 (as amended). For every [n >= 0] and [w >= 1] whose product fits
    an [int], the ranges computed by [main] for the ranks [0 .. w-1] lie
    in [0, n), cover every index exactly once, and differ in size by at
    most one. *)
Theorem partition_covers (n w : Z) :
  0 <= n -> 1 <= w -> w * n <= Int.INT_MAX -> partition_ok n w.
Proof.
  intros Hn Hw Hb.
  assert (Hs : forall k, 0 <= k < w -> partition_start k n w = cut n w k).
  { intros. apply partition_start_exact; lia. }
  assert (He : forall k, 0 <= k < w -> partition_end k n w = cut n w (k + 1)).
  { intros. apply partition_end_exact; lia. }
  repeat split.
  - rewrite Hs by lia. apply cut_nonneg; lia.
  - rewrite Hs, He by lia. apply cut_mono; lia.
  - rewrite He by lia. rewrite <- (cut_w n w) at 2 by lia. apply cut_mono; lia.
  - intros i Hi.
    destruct (cut_find n w i (Z.to_nat w)) as [rank [Hr Hc]].
    { rewrite Z2Nat.id by lia. rewrite cut_w; lia. }
    rewrite Z2Nat.id in Hr by lia.
    exists rank. split.
    + rewrite Hs, He by lia. auto.
    + intros rank' Hr' Hc'. rewrite Hs, He in Hc' by lia.
      eapply cut_unique; eauto.
  - intros a b Ha Hb'. rewrite !Hs, !He by lia.
    pose proof (cut_step n w Hw a). pose proof (cut_step n w Hw b). lia.
Qed.

(** The amended statement at six circles and four ranks. *)
Lemma partition_covers_witness : partition_ok 6 4.
Proof. apply (partition_covers 6 4); unfold Int.INT_MAX; lia. Defined.

(** C4 (as stated) fails where [(rank + 1) * ncircles] leaves the range
    of [int]: with 65536 circles on 32768 ranks the product of the last
    rank is 2^31, which wraps, and its range ends below its start. *)
Lemma partition_overflow : ~ partition_ok 65536 32768.
Proof.
  intros [H _]. specialize (H 32767 ltac:(lia)).
  vm_compute in H. destruct H as [[_ H] _]. apply H. reflexivity.
Qed.

(** ** Rounding in a binary format

    What the statements on [float] need of the rounding of [SpecFloat]:
    results are floats of the format, they are ordered like the
    integers they scale to, and rounding never crosses a float of the
    format. *)

(** *** Binary digits *)




Lemma digits2_size (m : positive) : digits2_pos m = Pos.size m.
Proof. induction m; simpl; congruence. Qed.

Lemma dig_log2 (m : positive) : dig m = Z.log2 (Zpos m) + 1.
Proof.
  unfold dig. destruct m; simpl; rewrite ?digits2_size; lia.
Qed.

Lemma dig_pos (m : positive) : 1 <= dig m.
Proof. unfold dig. lia. Qed.

Lemma dig_bounds (m : positive) : 2 ^ (dig m - 1) <= Zpos m < 2 ^ dig m.
Proof.
  rewrite dig_log2. replace (Z.log2 (Zpos m) + 1 - 1) with (Z.log2 (Zpos m)) by lia.
  replace (Z.log2 (Zpos m) + 1) with (Z.succ (Z.log2 (Zpos m))) by lia.
  apply Z.log2_spec. lia.
Qed.

Lemma dig_unique (m : positive) (d : Z) :
  2 ^ (d - 1) <= Zpos m < 2 ^ d -> dig m = d.
Proof.
  intros H. rewrite dig_log2.
  assert (1 <= d).
  { destruct (Z_lt_le_dec d 1); [|assumption].
    assert (2 ^ d <= 2 ^ 0).
    { destruct (Z_lt_le_dec d 0).
      - rewrite Z.pow_neg_r by lia. simpl. lia.
      - apply Z.pow_le_mono_r; lia. }
    simpl in *. lia. }
  rewrite (Z.log2_unique (Zpos m) (d - 1)); try lia.
  replace (Z.succ (d - 1)) with d by lia. assumption.
Qed.

Lemma dig_le (m : positive) (d : Z) : 0 <= d -> Zpos m < 2 ^ d -> dig m <= d.
Proof.
  intros Hd H. destruct (Z_lt_le_dec d (dig m)); [|assumption].
  pose proof (dig_bounds m).
  assert (2 ^ d <= 2 ^ (dig m - 1)) by (apply Z.pow_le_mono_r; lia). lia.
Qed.

Lemma dig_ge (m : positive) (d : Z) : 2 ^ (d - 1) <= Zpos m -> d <= dig m.
Proof.
  intros H. destruct (Z_lt_le_dec (dig m) d); [|assumption].
  pose proof (dig_bounds m). pose proof (dig_pos m).
  assert (2 ^ dig m <= 2 ^ (d - 1)) by (apply Z.pow_le_mono_r; lia). lia.
Qed.

Lemma pow2_pos (k : Z) : 0 <= k -> 0 < 2 ^ k.
Proof. intros. apply Z.pow_pos_nonneg; lia. Qed.

(** ** Right shifts with round and sticky bits *)



Lemma shr_1_shifted (x : shr_record) : 0 <= shr_m x -> shifted 1 x (shr_1 x).
Proof.
  destruct x as [m r0 s0]. unfold shifted, inexact. simpl shr_m. intros Hm.
  change (2 ^ 1) with 2.
  destruct m as [|p|p]; [| |lia].
  - simpl. split; [reflexivity|]. destruct r0, s0; reflexivity.
  - destruct p as [p|p|]; cbn [shr_1 shr_m shr_r shr_s].
    + rewrite Pos2Z.inj_xI.
      replace ((2 * Zpos p + 1) / 2) with (Zpos p)
        by (apply Z.div_unique with 1; lia).
      replace ((2 * Zpos p + 1) mod 2) with 1
        by (apply Z.mod_unique with (Zpos p); lia).
      split; [reflexivity|]. destruct r0, s0; reflexivity.
    + rewrite Pos2Z.inj_xO.
      replace (2 * Zpos p / 2) with (Zpos p)
        by (apply Z.div_unique with 0; lia).
      replace ((2 * Zpos p) mod 2) with 0
        by (apply Z.mod_unique with (Zpos p); lia).
      split; [reflexivity|]. destruct r0, s0; reflexivity.
    + split; [reflexivity|]. destruct r0, s0; reflexivity.
Qed.

Lemma shifted_nonneg (k : Z) (x y : shr_record) :
  0 <= k -> 0 <= shr_m x -> shifted k x y -> 0 <= shr_m y.
Proof.
  intros Hk Hx [Hm _]. rewrite Hm. apply Z.div_pos; [assumption|now apply pow2_pos].
Qed.

Lemma shifted_trans (a b : Z) (x y z : shr_record) :
  0 <= a -> 0 <= b -> shifted a x y -> shifted b y z -> shifted (a + b) x z.
Proof.
  intros Ha Hb [Hm1 Hi1] [Hm2 Hi2]. unfold shifted.
  pose proof (pow2_pos a Ha). pose proof (pow2_pos b Hb).
  rewrite Z.pow_add_r by assumption. split.
  - rewrite Hm2, Hm1. apply Z.div_div; lia.
  - rewrite Hi2, Hi1, Hm1. rewrite <- orb_assoc. f_equal.
    rewrite Z.rem_mul_r by lia.
    pose proof (Z.mod_pos_bound (shr_m x) (2 ^ a) ltac:(lia)).
    pose proof (Z.mod_pos_bound (shr_m x / 2 ^ a) (2 ^ b) ltac:(lia)).
    destruct (Z.eqb_spec (shr_m x mod 2 ^ a) 0) as [E1|E1];
      destruct (Z.eqb_spec ((shr_m x / 2 ^ a) mod 2 ^ b) 0) as [E2|E2];
      destruct (Z.eqb_spec (shr_m x mod 2 ^ a + 2 ^ a * ((shr_m x / 2 ^ a) mod 2 ^ b)) 0) as [E3|E3];
      simpl; try reflexivity; try nia.
Qed.

Lemma iter_shr_shifted (p : positive) :
  forall x, 0 <= shr_m x -> shifted (Zpos p) x (iter_pos shr_1 p x).
Proof.
  induction p as [p IH|p IH|]; intros x Hx; cbn [iter_pos].
  - pose proof (shr_1_shifted x Hx) as H1.
    pose proof (shifted_nonneg 1 _ _ ltac:(lia) Hx H1) as N1.
    pose proof (IH _ N1) as H2.
    pose proof (shifted_nonneg (Zpos p) _ _ ltac:(lia) N1 H2) as N2.
    pose proof (IH _ N2) as H3.
    replace (Zpos p~1) with (1 + Zpos p + Zpos p) by lia.
    eapply shifted_trans; [lia|lia| |exact H3].
    eapply shifted_trans; [lia|lia|exact H1|exact H2].
  - pose proof (IH _ Hx) as H2.
    pose proof (shifted_nonneg (Zpos p) _ _ ltac:(lia) Hx H2) as N2.
    pose proof (IH _ N2) as H3.
    replace (Zpos p~0) with (Zpos p + Zpos p) by lia.
    eapply shifted_trans; [lia|lia|exact H2|exact H3].
  - now apply shr_1_shifted.
Qed.

Lemma shifted_0 (x : shr_record) : shifted 0 x x.
Proof.
  unfold shifted. change (2 ^ 0) with 1. rewrite Z.div_1_r, Z.mod_1_r.
  simpl. now rewrite orb_false_r.
Qed.

Lemma shr_shifted (x : shr_record) (e n : Z) :
  0 <= shr_m x ->
  shifted (Z.max 0 n) x (fst (shr x e n)) /\ snd (shr x e n) = e + Z.max 0 n.
Proof.
  intros Hx. destruct n as [|p|p]; simpl.
  - split; [apply shifted_0|lia].
  - split; [now apply iter_shr_shifted|lia].
  - split; [apply shifted_0|lia].
Qed.

Lemma loc_exact_iff (x : shr_record) :
  loc_of_shr_record x = loc_Exact <-> inexact x = false.
Proof.
  destruct x as [m [|] [|]]; unfold inexact; simpl; split; congruence.
Qed.

Lemma inexact_of_loc (m : Z) (l : location) :
  shr_m (shr_record_of_loc m l) = m
  /\ (inexact (shr_record_of_loc m l) = false <-> l = loc_Exact).
Proof.
  destruct l as [|[| |]]; unfold inexact; simpl; repeat split; congruence.
Qed.

Lemma round_nearest_even_bounds (m : Z) (l : location) :
  m <= round_nearest_even m l <= m + 1
  /\ (l = loc_Exact -> round_nearest_even m l = m).
Proof.
  destruct l as [|[| |]]; simpl; try destruct (Z.even m); split; try lia; congruence.
Qed.

Section Rounding.

Variables prec emax : Z.
Hypothesis Hprec : 0 < prec.
Hypothesis Hemax : prec < emax.

Abbreviation emin := (emin prec emax).
Abbreviation fexp := (fexp prec emax).

Lemma fexp_ge_emin (k : Z) : emin <= fexp k.
Proof. unfold SpecFloat.fexp. lia. Qed.

Lemma emin_le_emax : emin < emax - prec.
Proof. unfold SpecFloat.emin. lia. Qed.

Lemma shr_fexp_spec (m e : Z) (l : location) :
  0 <= m ->
  let k := Z.max 0 (fexp (Zdigits2 m + e) - e) in
  shr_m (fst (shr_fexp prec emax m e l)) = m / 2 ^ k
  /\ (inexact (fst (shr_fexp prec emax m e l)) = false
      <-> l = loc_Exact /\ m mod 2 ^ k = 0)
  /\ snd (shr_fexp prec emax m e l) = e + k.
Proof.
  intros Hm k. unfold shr_fexp.
  destruct (inexact_of_loc m l) as [Em El].
  destruct (shr_shifted (shr_record_of_loc m l) e (fexp (Zdigits2 m + e) - e))
    as [[Hs Hi] He]; [lia|].
  fold k in Hs, Hi, He. rewrite Em in Hs, Hi. repeat split; try assumption.
  - rewrite Hi in H. apply orb_false_elim in H. now apply El.
  - rewrite Hi in H. apply orb_false_elim in H. destruct H as [_ H].
    apply negb_false_iff in H. now apply Z.eqb_eq.
  - intros [Hl Hz]. rewrite Hi. apply orb_false_intro.
    + now apply El.
    + apply negb_false_iff. now apply Z.eqb_eq.
Qed.



Lemma binary_round_aux_conclude (s : bool) (m e : Z) (l : location) :
  binary_round_aux prec emax s m e l =
  conclude prec emax s
    (round_nearest_even (shr_m (fst (shr_fexp prec emax m e l)))
       (loc_of_shr_record (fst (shr_fexp prec emax m e l))))
    (snd (shr_fexp prec emax m e l)).
Proof.
  unfold binary_round_aux, conclude.
  destruct (shr_fexp prec emax m e l) as [mrs' e']. reflexivity.
Qed.

Lemma conclude_pack (s : bool) (m e : Z) :
  0 <= m <= 2 ^ prec -> emin <= e -> conclude prec emax s m e = pack prec emax s m e.
Proof.
  intros Hm He. unfold conclude, pack.
  pose proof (shr_fexp_spec m e loc_Exact ltac:(lia)) as [Hs [_ Hx]].
  destruct (shr_fexp prec emax m e loc_Exact) as [mrs'' e'']. simpl in Hs, Hx.
  rewrite Hs, Hx. clear Hs Hx.
  pose proof (pow2_pos prec ltac:(lia)) as Pp.
  destruct (Z.eqb_spec m 0) as [->|Hm0].
  - rewrite Z.div_0_l; [reflexivity|].
    apply Z.pow_nonzero; [lia|]. apply Z.le_max_l.
  - destruct m as [|p|p]; [lia| |lia].
    destruct (Z.ltb_spec (Zpos p) (2 ^ prec)) as [Hlt|Hge].
    + assert (Hd : dig p <= prec) by (apply dig_le; lia).
      simpl Zdigits2. fold (dig p).
      replace (Z.max 0 (fexp (dig p + e) - e)) with 0
        by (unfold SpecFloat.fexp; lia).
      change (2 ^ 0) with 1. rewrite Z.div_1_r, Z.add_0_r. reflexivity.
    + assert (Hp : Zpos p = 2 ^ prec) by lia.
      assert (Hd : dig p = prec + 1).
      { apply dig_unique. replace (prec + 1 - 1) with prec by lia.
        rewrite Hp. split; [lia|]. apply Z.pow_lt_mono_r; lia. }
      simpl Zdigits2. fold (dig p). rewrite Hd.
      replace (Z.max 0 (fexp (prec + 1 + e) - e)) with 1
        by (unfold SpecFloat.fexp; lia).
      rewrite Hp. change (2 ^ 1) with 2.
      replace (2 ^ prec / 2) with (2 ^ (prec - 1)).
      2:{ replace prec with (1 + (prec - 1)) at 2 by lia.
          rewrite Z.pow_add_r by lia. change (2 ^ 1) with 2.
          apply Z.div_unique with 0; lia. }
      pose proof (pow2_pos (prec - 1) ltac:(lia)) as Pq.
      destruct (2 ^ (prec - 1)) as [|q|q] eqn:Eq; [lia| |lia].
      reflexivity.
Qed.


Lemma binary_round_aux_aligned (s : bool) (m : positive) (e : Z) :
  aligned prec emax m e ->
  let e1 := fexp (dig m + e) in
  let m1 := Zpos m / 2 ^ (e1 - e) in
  exists m2,
    m1 <= m2 <= m1 + 1
    /\ (Zpos m mod 2 ^ (e1 - e) = 0 -> m2 = m1)
    /\ m1 < 2 ^ prec
    /\ (emin < e1 -> 2 ^ (prec - 1) <= m1)
    /\ binary_round_aux prec emax s (Zpos m) e loc_Exact = pack prec emax s m2 e1.
Proof.
  intros Ha e1 m1. unfold aligned in Ha. fold e1 in Ha.
  rewrite binary_round_aux_conclude.
  pose proof (shr_fexp_spec (Zpos m) e loc_Exact ltac:(lia)) as [Hs [Hi Hx]].
  simpl Zdigits2 in Hs, Hi, Hx. fold (dig m) in Hs, Hi, Hx. fold e1 in Hs, Hi, Hx.
  replace (Z.max 0 (e1 - e)) with (e1 - e) in Hs, Hi, Hx by lia.
  fold m1 in Hs. rewrite Hs, Hx. replace (e + (e1 - e)) with e1 by lia.
  set (l := loc_of_shr_record (fst (shr_fexp prec emax (Zpos m) e loc_Exact))).
  pose proof (round_nearest_even_bounds m1 l) as [Hb Hex].
  pose proof (dig_bounds m) as Hd. pose proof (dig_pos m) as Hd1.
  pose proof (pow2_pos (e1 - e) ltac:(lia)) as Psh.
  assert (H1 : m1 < 2 ^ prec).
  { apply Z.div_lt_upper_bound; [assumption|].
    rewrite <- Z.pow_add_r by lia.
    assert (2 ^ dig m <= 2 ^ (e1 - e + prec)).
    { apply Z.pow_le_mono_r; [lia|]. unfold e1, SpecFloat.fexp. lia. }
    lia. }
  assert (H2 : emin < e1 -> 2 ^ (prec - 1) <= m1).
  { intros He. assert (E : e1 - e = dig m - prec) by (unfold e1, SpecFloat.fexp in *; lia).
    apply Z.div_le_lower_bound; [assumption|].
    rewrite <- Z.pow_add_r by lia.
    replace (e1 - e + (prec - 1)) with (dig m - 1) by lia. lia. }
  assert (H0 : 0 <= m1) by (apply Z.div_pos; lia).
  exists (round_nearest_even m1 l). repeat split; try lia; try assumption.
  - intros Hz. apply Hex. apply loc_exact_iff. apply Hi. split; [reflexivity|assumption].
  - apply conclude_pack; [lia|]. apply fexp_ge_emin.
Qed.

(** No rounding of a nonnegative mantissa yields a NaN. *)
Lemma binary_round_aux_not_nan (s : bool) (m e : Z) (l : location) :
  0 <= m -> binary_round_aux prec emax s m e l <> S754_nan.
Proof.
  intros Hm. rewrite binary_round_aux_conclude.
  pose proof (shr_fexp_spec m e l Hm) as [Hs _].
  set (k := Z.max 0 (fexp (Zdigits2 m + e) - e)) in *.
  pose proof (round_nearest_even_bounds (shr_m (fst (shr_fexp prec emax m e l)))
                (loc_of_shr_record (fst (shr_fexp prec emax m e l)))) as [Hb _].
  set (m2 := round_nearest_even _ _) in *.
  assert (H2 : 0 <= m2).
  { rewrite Hs in Hb. pose proof (pow2_pos k ltac:(lia)).
    pose proof (Z.div_pos m (2 ^ k) Hm ltac:(lia)). lia. }
  unfold conclude.
  pose proof (shr_fexp_spec m2 (snd (shr_fexp prec emax m e l)) loc_Exact H2) as [Hs2 _].
  destruct (shr_fexp prec emax m2 _ loc_Exact) as [mrs'' e'']. simpl in Hs2.
  set (k2 := Z.max 0 _) in Hs2.
  pose proof (pow2_pos k2 ltac:(lia)).
  pose proof (Z.div_pos m2 (2 ^ k2) H2 ltac:(lia)).
  destruct (shr_m mrs'') as [|q|q]; [discriminate| |lia].
  destruct (e'' <=? emax - prec); discriminate.
Qed.

(** *** Left alignment *)

Lemma iter_xO (m d : positive) : Zpos (Pos.iter xO m d) = Zpos m * 2 ^ Zpos d.
Proof.
  induction d as [|d IH] using Pos.peano_ind.
  - simpl. lia.
  - rewrite Pos.iter_succ, Pos2Z.inj_xO, IH, Pos2Z.inj_succ.
    rewrite Z.pow_succ_r by lia. lia.
Qed.

Lemma shl_align_spec (mx : positive) (ex ex' : Z) :
  snd (shl_align mx ex ex') = Z.min ex ex'
  /\ Zpos (fst (shl_align mx ex ex')) = Zpos mx * 2 ^ (ex - Z.min ex ex').
Proof.
  unfold shl_align. destruct (ex' - ex) as [|d|d] eqn:E; cbn [fst snd].
  - replace (ex - Z.min ex ex') with 0 by lia. rewrite Z.pow_0_r. split; lia.
  - replace (ex - Z.min ex ex') with 0 by lia. rewrite Z.pow_0_r. split; lia.
  - assert (E' : ex' - ex = - Zpos d) by (rewrite E; reflexivity).
    rewrite iter_xO. replace (ex - Z.min ex ex') with (Zpos d) by lia. split; lia.
Qed.

Lemma dig_shift (m m' : positive) (k : Z) :
  0 <= k -> Zpos m' = Zpos m * 2 ^ k -> dig m' = dig m + k.
Proof.
  intros Hk E. apply dig_unique. rewrite E.
  pose proof (dig_bounds m) as [Hl Hu]. pose proof (dig_pos m).
  pose proof (pow2_pos k Hk).
  replace (dig m + k - 1) with (dig m - 1 + k) by lia.
  rewrite !Z.pow_add_r by lia. nia.
Qed.

Lemma pack_valid (s : bool) (m e : Z) :
  0 <= m <= 2 ^ prec -> emin <= e -> (emin < e -> 2 ^ (prec - 1) <= m) ->
  valid_binary prec emax (pack prec emax s m e) = true.
Proof.
  intros Hm He Hn. unfold pack.
  destruct (Z.eqb_spec m 0); [reflexivity|].
  destruct (Z.ltb_spec m (2 ^ prec)) as [Hlt|Hge].
  - destruct (Z.leb_spec e (emax - prec)) as [Hle|]; [|reflexivity].
    simpl. unfold bounded, canonical_mantissa.
    destruct m as [|p|p]; [lia| |lia]. simpl Z.to_pos. fold (dig p).
    assert (dig p <= prec) by (apply dig_le; lia).
    apply andb_true_intro. split; [|now apply Z.leb_le].
    apply Z.eqb_eq. unfold SpecFloat.fexp.
    destruct (Z.eq_dec e emin); [lia|].
    assert (prec <= dig p) by (apply dig_ge; apply Hn; lia). lia.
  - destruct (Z.leb_spec (e + 1) (emax - prec)) as [Hle|]; [|reflexivity].
    simpl. unfold bounded, canonical_mantissa.
    pose proof (pow2_pos (prec - 1) ltac:(lia)) as Pq.
    destruct (2 ^ (prec - 1)) as [|q|q] eqn:Eq; [lia| |lia].
    simpl Z.to_pos. fold (dig q).
    assert (dig q = prec).
    { apply dig_unique. rewrite Eq. split; [lia|].
      rewrite <- Eq. apply Z.pow_lt_mono_r; lia. }
    apply andb_true_intro. split; [|now apply Z.leb_le].
    apply Z.eqb_eq. unfold SpecFloat.fexp. lia.
Qed.

Lemma binary_round_aligned (mx : positive) (ex : Z) :
  let a := shl_align mx ex (fexp (dig mx + ex)) in
  aligned prec emax (fst a) (snd a)
  /\ dig (fst a) + snd a = dig mx + ex.
Proof.
  intros a. unfold aligned.
  destruct (shl_align_spec mx ex (fexp (dig mx + ex))) as [Hs Hf]. fold a in Hs, Hf.
  assert (Hd : dig (fst a) = dig mx + (ex - Z.min ex (fexp (dig mx + ex)))).
  { apply dig_shift; [lia|assumption]. }
  rewrite Hd, Hs. split; [|lia].
  replace (dig mx + (ex - Z.min ex (fexp (dig mx + ex))) + Z.min ex (fexp (dig mx + ex)))
    with (dig mx + ex) by lia.
  lia.
Qed.

Lemma binary_round_valid (s : bool) (mx : positive) (ex : Z) :
  valid_binary prec emax (binary_round prec emax s mx ex) = true.
Proof.
  unfold binary_round. fold (dig mx).
  pose proof (binary_round_aligned mx ex) as [Ha Hd].
  destruct (shl_align mx ex (fexp (dig mx + ex))) as [mz ez]. simpl in Ha, Hd.
  destruct (binary_round_aux_aligned s mz ez Ha) as [m2 [Hb [_ [H1 [H2 ->]]]]].
  assert (0 <= Zpos mz / 2 ^ (fexp (dig mz + ez) - ez)).
  { apply Z.div_pos; [lia|]. apply pow2_pos. unfold aligned in Ha. lia. }
  apply pack_valid; [lia|apply fexp_ge_emin|]. intros He. specialize (H2 He). lia.
Qed.

Lemma binary_normalize_valid (m e : Z) (s : bool) :
  valid_binary prec emax (binary_normalize prec emax m e s) = true.
Proof.
  destruct m; simpl; [reflexivity| |]; apply binary_round_valid.
Qed.

Lemma binary_round_not_nan (s : bool) (mx : positive) (ex : Z) :
  binary_round prec emax s mx ex <> S754_nan.
Proof.
  unfold binary_round. destruct (shl_align _ _ _) as [mz ez].
  apply binary_round_aux_not_nan. lia.
Qed.

Lemma binary_normalize_not_nan (m e : Z) (s : bool) :
  binary_normalize prec emax m e s <> S754_nan.
Proof.
  destruct m; simpl; [discriminate| |]; apply binary_round_not_nan.
Qed.

(** *** Valid operands *)

Lemma bounded_facts (m : positive) (e : Z) :
  bounded prec emax m e = true ->
  emin <= e <= emax - prec /\ dig m <= prec /\ (emin < e -> dig m = prec).
Proof.
  unfold bounded, canonical_mantissa. fold (dig m). intros H.
  apply andb_prop in H. destruct H as [H1 H2].
  apply Z.eqb_eq in H1. apply Z.leb_le in H2.
  unfold SpecFloat.fexp in H1. pose proof (dig_pos m). lia.
Qed.

Lemma valid_add (a b : spec_float) : valid_binary prec emax a = true ->
  valid_binary prec emax b = true -> valid_binary prec emax (SFadd prec emax a b) = true.
Proof.
  intros Ha Hb.
  destruct a as [sa|sa| |sa ma ea], b as [sb|sb| |sb mb eb]; simpl;
    try reflexivity; try assumption;
    try (destruct sa, sb; reflexivity).
  apply binary_normalize_valid.
Qed.

Lemma valid_sub (a b : spec_float) : valid_binary prec emax a = true ->
  valid_binary prec emax b = true -> valid_binary prec emax (SFsub prec emax a b) = true.
Proof.
  intros Ha Hb.
  destruct a as [sa|sa| |sa ma ea], b as [sb|sb| |sb mb eb]; simpl;
    try reflexivity; try assumption;
    try (destruct sa, sb; reflexivity).
  apply binary_normalize_valid.
Qed.

(** *** An order embedding into the integers

    Every finite float is an integer multiple of [2 ^ emin]; the
    infinities sit beyond the largest finite value. *)



Lemma omega_pos : 0 < (omega prec emax).
Proof. apply pow2_pos. unfold SpecFloat.emin. lia. Qed.

Lemma finite_key_bounds (m : positive) (e : Z) :
  bounded prec emax m e = true -> 1 <= Zpos m * 2 ^ (e - emin) < (omega prec emax).
Proof.
  intros H. apply bounded_facts in H. destruct H as [He [Hd _]].
  pose proof (dig_bounds m) as [_ Hu].
  pose proof (pow2_pos (e - emin) ltac:(lia)) as Pe.
  split; [nia|].
  assert (2 ^ dig m <= 2 ^ prec) by (apply Z.pow_le_mono_r; lia).
  assert (2 ^ prec * 2 ^ (e - emin) <= (omega prec emax)).
  { unfold omega. rewrite <- Z.pow_add_r by lia. apply Z.pow_le_mono_r; lia. }
  nia.
Qed.

Lemma key_lt_exp (m1 m2 : positive) (e1 e2 : Z) :
  bounded prec emax m1 e1 = true -> bounded prec emax m2 e2 = true ->
  e1 < e2 -> Zpos m1 * 2 ^ (e1 - emin) < Zpos m2 * 2 ^ (e2 - emin).
Proof.
  intros H1 H2 Hlt. apply bounded_facts in H1, H2.
  destruct H1 as [He1 [Hd1 _]]. destruct H2 as [He2 [_ Hn2]].
  specialize (Hn2 ltac:(lia)).
  pose proof (dig_bounds m1) as [_ Hu]. pose proof (dig_bounds m2) as [Hl _].
  rewrite Hn2 in Hl.
  pose proof (pow2_pos (e1 - emin) ltac:(lia)) as P1.
  pose proof (pow2_pos (prec - 1) ltac:(lia)) as P2.
  assert (2 ^ dig m1 <= 2 ^ prec) by (apply Z.pow_le_mono_r; lia).
  assert (E : 2 ^ prec * 2 ^ (e1 - emin) <= 2 ^ (prec - 1) * 2 ^ (e2 - emin)).
  { rewrite <- !Z.pow_add_r by lia. apply Z.pow_le_mono_r; lia. }
  pose proof (pow2_pos (e2 - emin) ltac:(lia)) as P3.
  nia.
Qed.

Lemma compare_finite_key (m1 m2 : positive) (e1 e2 : Z) :
  bounded prec emax m1 e1 = true -> bounded prec emax m2 e2 = true ->
  match e1 ?= e2 with
  | Lt => Lt
  | Gt => Gt
  | Eq => Pos.compare_cont Eq m1 m2
  end = (Zpos m1 * 2 ^ (e1 - emin) ?= Zpos m2 * 2 ^ (e2 - emin)).
Proof.
  intros H1 H2. destruct (Z.compare_spec e1 e2) as [E|L|G].
  - subst e2. pose proof (bounded_facts _ _ H1) as [He _].
    pose proof (pow2_pos (e1 - emin) ltac:(lia)).
    rewrite <- Zmult_compare_compat_r by lia. reflexivity.
  - symmetry. apply Z.compare_lt_iff. now apply key_lt_exp.
  - symmetry. apply Z.compare_gt_iff. now apply key_lt_exp.
Qed.

Lemma SFcompare_key (a b : spec_float) :
  valid_binary prec emax a = true -> valid_binary prec emax b = true ->
  a <> S754_nan -> b <> S754_nan ->
  SFcompare a b = Some (key prec emax a ?= key prec emax b).
Proof.
  intros Ha Hb Na Nb. pose proof omega_pos as PO.
  destruct a as [sa|sa| |sa ma ea]; [| |congruence|];
    (destruct b as [sb|sb| |sb mb eb]; [| |congruence|]);
    cbn [valid_binary] in Ha, Hb;
    try (pose proof (finite_key_bounds _ _ Ha) as Ka);
    try (pose proof (finite_key_bounds _ _ Hb) as Kb);
    try destruct sa; try destruct sb; cbn [SFcompare key cond_Zopp];
    try reflexivity;
    try (f_equal; symmetry;
         first [apply Z.compare_eq_iff; lia
               |apply Z.compare_lt_iff; lia
               |apply Z.compare_gt_iff; lia]).
  - rewrite Z.compare_opp, <- (compare_finite_key mb ma eb ea) by assumption.
    rewrite (Z.compare_antisym ea eb).
    destruct (ea ?= eb); cbn [CompOpp]; try reflexivity.
    f_equal. symmetry. apply (Pos.compare_antisym ma mb).
  - now rewrite compare_finite_key.
Qed.

Lemma key_bounds (a : spec_float) :
  valid_binary prec emax a = true -> - (omega prec emax) <= key prec emax a <= (omega prec emax).
Proof.
  intros Ha. pose proof omega_pos.
  destruct a as [sa|sa| |sa ma ea]; cbn [valid_binary key] in *; try lia.
  - destruct sa; cbn [cond_Zopp]; lia.
  - pose proof (finite_key_bounds _ _ Ha). destruct sa; cbn [cond_Zopp]; lia.
Qed.

(** *** The value of a rounded result *)

Lemma binary_round_facts (s : bool) (mx : positive) (ex : Z) :
  emin <= ex ->
  exists m1 m2 g rem,
    0 <= g
    /\ Zpos mx * 2 ^ (ex - emin) = m1 * 2 ^ g + rem
    /\ 0 <= rem < 2 ^ g
    /\ m1 <= m2 <= m1 + 1
    /\ (rem = 0 -> m2 = m1)
    /\ 1 <= m1 < 2 ^ prec
    /\ (0 < g -> 2 ^ (prec - 1) <= m1)
    /\ binary_round prec emax s mx ex = pack prec emax s m2 (emin + g).
Proof.
  intros He. unfold binary_round. fold (dig mx).
  pose proof (binary_round_aligned mx ex) as [Ha Hd].
  destruct (shl_align_spec mx ex (fexp (dig mx + ex))) as [Hs Hf].
  destruct (shl_align mx ex (fexp (dig mx + ex))) as [mz ez].
  cbn [fst snd] in Ha, Hd, Hs, Hf.
  destruct (binary_round_aux_aligned s mz ez Ha) as [m2 [Hb [Hex [H1 [H2 ->]]]]].
  rewrite Hd in *. set (e1 := fexp (dig mx + ex)) in *.
  pose proof (fexp_ge_emin (dig mx + ex)) as Ge. fold e1 in Ge.
  unfold aligned in Ha. rewrite Hd in Ha. fold e1 in Ha.
  set (m1 := Zpos mz / 2 ^ (e1 - ez)) in *.
  set (b := 2 ^ (e1 - ez)) in *. 
  assert (Pb : 0 < b) by (apply pow2_pos; lia).
  assert (Pc : 0 < 2 ^ (ez - emin)) by (apply pow2_pos; lia).
  pose proof (Z.div_mod (Zpos mz) b ltac:(lia)) as Dm. fold m1 in Dm.
  pose proof (Z.mod_pos_bound (Zpos mz) b Pb) as Bm.
  assert (EG : 2 ^ (e1 - emin) = b * 2 ^ (ez - emin)).
  { unfold b. rewrite <- Z.pow_add_r by lia. f_equal. lia. }
  assert (EW : Zpos mx * 2 ^ (ex - emin) = Zpos mz * 2 ^ (ez - emin)).
  { rewrite Hf. rewrite <- Hs. rewrite <- Z.mul_assoc, <- Z.pow_add_r by lia.
    do 2 f_equal. lia. }
  assert (M1 : 1 <= m1).
  { destruct (Z.eq_dec e1 emin) as [E|E].
    - assert (e1 - ez = 0) by lia. unfold m1, b. replace (e1 - ez) with 0 by lia.
      rewrite Z.pow_0_r, Z.div_1_r. lia.
    - pose proof (H2 ltac:(lia)). pose proof (pow2_pos (prec - 1) ltac:(lia)). lia. }
  exists m1, m2, (e1 - emin), (Zpos mz mod b * 2 ^ (ez - emin)).
  split; [lia|]. split; [rewrite EW, EG; nia|].
  split; [rewrite EG; nia|]. split; [assumption|].
  split; [intros Hz; apply Hex; fold b; nia|].
  split; [lia|]. split; [intros; apply H2; lia|].
  f_equal. lia.
Qed.

Lemma pack_key (s : bool) (m2 g : Z) :
  1 <= m2 <= 2 ^ prec -> 0 <= g -> (0 < g -> 2 ^ (prec - 1) <= m2) ->
  exists rho,
    key prec emax (pack prec emax s m2 (emin + g)) = cond_Zopp s rho
    /\ 1 <= rho <= (omega prec emax) /\ rho <= m2 * 2 ^ g
    /\ (rho = m2 * 2 ^ g \/ rho = (omega prec emax)).
Proof.
  intros Hm Hg Hn. unfold pack.
  pose proof omega_pos as PO.
  pose proof (pow2_pos g Hg) as Pg.
  pose proof (pow2_pos (prec - 1) ltac:(lia)) as Pq.
  assert (E2 : 2 ^ prec = 2 * 2 ^ (prec - 1)).
  { replace prec with (1 + (prec - 1)) at 1 by lia.
    rewrite Z.pow_add_r by lia. reflexivity. }
  destruct (Z.eqb_spec m2 0); [lia|].
  destruct (Z.ltb_spec m2 (2 ^ prec)) as [Hlt|Hge].
  - destruct (Z.leb_spec (emin + g) (emax - prec)) as [Hle|Hgt].
    + exists (m2 * 2 ^ g). cbn [key].
      replace (emin + g - emin) with g by lia.
      rewrite Z2Pos.id by lia.
      assert (2 ^ prec * 2 ^ g <= (omega prec emax)).
      { unfold omega. rewrite <- Z.pow_add_r by lia. apply Z.pow_le_mono_r; lia. }
      repeat split; try nia; now left.
    + exists (omega prec emax). cbn [key].
      assert ((omega prec emax) <= 2 ^ (prec - 1) * 2 ^ g).
      { unfold omega. rewrite <- Z.pow_add_r by lia. apply Z.pow_le_mono_r; lia. }
      pose proof emin_le_emax. specialize (Hn ltac:(lia)).
      repeat split; try nia; now right.
  - assert (Em : m2 = 2 ^ prec) by lia.
    destruct (Z.leb_spec (emin + g + 1) (emax - prec)) as [Hle|Hgt].
    + exists (m2 * 2 ^ g). cbn [key].
      replace (emin + g + 1 - emin) with (1 + g) by lia.
      rewrite Z2Pos.id by lia. rewrite Z.pow_add_r by lia. change (2 ^ 1) with 2.
      assert (2 ^ prec * 2 ^ g <= (omega prec emax)).
      { unfold omega. rewrite <- Z.pow_add_r by lia. apply Z.pow_le_mono_r; lia. }
      split; [f_equal; nia|]. repeat split; try nia; now left.
    + exists (omega prec emax). cbn [key].
      assert ((omega prec emax) <= 2 ^ prec * 2 ^ g).
      { unfold omega. rewrite <- Z.pow_add_r by lia. apply Z.pow_le_mono_r; lia. }
      repeat split; try nia; now right.
Qed.

(** The rounded magnitude is positive, and no representable value lies
    strictly between the exact value and its rounding. *)
Lemma binary_round_key (s : bool) (mx : positive) (ex : Z) :
  emin <= ex ->
  exists rho,
    key prec emax (binary_round prec emax s mx ex) = cond_Zopp s rho
    /\ 1 <= rho
    /\ forall mR eR, bounded prec emax mR eR = true ->
         (Zpos mx * 2 ^ (ex - emin) <= Zpos mR * 2 ^ (eR - emin) ->
          rho <= Zpos mR * 2 ^ (eR - emin))
         /\ (Zpos mR * 2 ^ (eR - emin) <= Zpos mx * 2 ^ (ex - emin) ->
             Zpos mR * 2 ^ (eR - emin) <= rho).
Proof.
  intros He.
  destruct (binary_round_facts s mx ex He)
    as [m1 [m2 [g [rem [Hg [EW [Hrem [Hb [Hex [H1 [H2 ->]]]]]]]]]]].
  destruct (pack_key s m2 g) as [rho [Hk [Hr [Hle Hor]]]];
    [split; lia|assumption|intros G; specialize (H2 G); lia|].
  exists rho. split; [assumption|]. split; [lia|].
  intros mR eR HR.
  pose proof (finite_key_bounds _ _ HR) as KR.
  pose proof (bounded_facts _ _ HR) as [HeR [HdR _]].
  pose proof (dig_bounds mR) as [_ HuR].
  pose proof (pow2_pos g Hg) as Pg.
  set (W := Zpos mx * 2 ^ (ex - emin)) in *.
  set (kR := Zpos mR * 2 ^ (eR - emin)) in *.
  destruct (Z_le_gt_dec g (eR - emin)) as [Hrep|Hsmall].
  - (* the bound is a multiple of the rounding step *)
    assert (Eq : kR = (Zpos mR * 2 ^ (eR - emin - g)) * 2 ^ g).
    { unfold kR. rewrite <- Z.mul_assoc, <- Z.pow_add_r by lia. do 2 f_equal. lia. }
    set (q := Zpos mR * 2 ^ (eR - emin - g)) in *.
    split; intros Hc.
    + destruct (Z.eq_dec rem 0) as [Hz|Hnz].
      * specialize (Hex Hz). subst m2. lia.
      * assert (m1 < q) by nia. assert (m2 * 2 ^ g <= q * 2 ^ g) by nia. lia.
    + destruct Hor as [-> | ->]; [|lia].
      assert (q <= m1) by nia. nia.
  - (* the bound has fewer digits than the rounded value *)
    specialize (H2 ltac:(lia)).
    assert (2 ^ dig mR <= 2 ^ prec) by (apply Z.pow_le_mono_r; lia).
    pose proof (pow2_pos (eR - emin) ltac:(lia)) as PR.
    assert (Hlt : 2 ^ prec * 2 ^ (eR - emin) <= 2 ^ (prec - 1) * 2 ^ g).
    { rewrite <- !Z.pow_add_r by lia. apply Z.pow_le_mono_r; lia. }
    assert (kR < m1 * 2 ^ g) by (unfold kR; nia).
    split; intros Hc; [lia|].
    destruct Hor as [-> | ->]; [nia|lia].
Qed.

(** *** Subtraction and the order *)

Lemma normalize_pos (M e : Z) (s0 : bool) :
  emin <= e -> 0 < M -> 0 < key prec emax (binary_normalize prec emax M e s0).
Proof.
  intros He HM. destruct M as [|p|p]; [lia| |lia]. cbn [binary_normalize].
  destruct (binary_round_key false p e He) as [rho [-> [Hr _]]].
  cbn [cond_Zopp]. lia.
Qed.

Lemma normalize_le (M e : Z) (s0 : bool) (R : spec_float) :
  emin <= e -> valid_binary prec emax R = true -> is_finite R = true ->
  M * 2 ^ (e - emin) <= key prec emax R ->
  key prec emax (binary_normalize prec emax M e s0) <= key prec emax R.
Proof.
  intros He VR FR HV.
  pose proof (pow2_pos (e - emin) ltac:(lia)) as Pe.
  destruct M as [|p|p]; cbn [binary_normalize].
  - cbn [key]. lia.
  - destruct (binary_round_key false p e He) as [rho [-> [Hr Hb]]].
    cbn [cond_Zopp].
    destruct R as [sR|sR| |sR mR eR]; try discriminate; cbn [key valid_binary] in *.
    + nia.
    + pose proof (finite_key_bounds _ _ VR).
      destruct sR; cbn [cond_Zopp] in *; [nia|].
      now apply (Hb mR eR VR).
  - destruct (binary_round_key true p e He) as [rho [-> [Hr Hb]]].
    cbn [cond_Zopp].
    destruct R as [sR|sR| |sR mR eR]; try discriminate; cbn [key valid_binary] in *.
    + lia.
    + pose proof (finite_key_bounds _ _ VR).
      destruct sR; cbn [cond_Zopp] in *; [|lia].
      assert (E : Z.neg p = - Zpos p) by reflexivity. rewrite E in HV.
      destruct (Hb mR eR VR) as [_ Hlow]. specialize (Hlow ltac:(nia)). lia.
Qed.

(** The exact difference of two finite operands, as [SFsub] forms it. *)
Lemma sub_exact (sx sy : bool) (mx my : positive) (ex ey : Z) :
  bounded prec emax mx ex = true -> bounded prec emax my ey = true ->
  let ez := Z.min ex ey in
  emin <= ez
  /\ (cond_Zopp sx (Zpos (fst (shl_align mx ex ez)))
      - cond_Zopp sy (Zpos (fst (shl_align my ey ez)))) * 2 ^ (ez - emin)
     = key prec emax (S754_finite sx mx ex) - key prec emax (S754_finite sy my ey).
Proof.
  intros Hx Hy ez.
  pose proof (bounded_facts _ _ Hx) as [Bx _].
  pose proof (bounded_facts _ _ Hy) as [By _].
  split; [unfold ez; lia|].
  destruct (shl_align_spec mx ex ez) as [_ ->].
  destruct (shl_align_spec my ey ez) as [_ ->].
  replace (Z.min ex ez) with ez by (unfold ez; lia).
  replace (Z.min ey ez) with ez by (unfold ez; lia).
  cbn [key].
  assert (Ex : 2 ^ (ex - emin) = 2 ^ (ex - ez) * 2 ^ (ez - emin)).
  { rewrite <- Z.pow_add_r by (unfold ez; lia). f_equal. lia. }
  assert (Ey : 2 ^ (ey - emin) = 2 ^ (ey - ez) * 2 ^ (ez - emin)).
  { rewrite <- Z.pow_add_r by (unfold ez; lia). f_equal. lia. }
  rewrite Ex, Ey. destruct sx, sy; cbn [cond_Zopp]; ring.
Qed.

(** Subtracting a positive finite value never raises the result. *)
Lemma sub_le (R : spec_float) (my : positive) (ey : Z) :
  valid_binary prec emax R = true -> bounded prec emax my ey = true ->
  R <> S754_nan ->
  key prec emax (SFsub prec emax R (S754_finite false my ey)) <= key prec emax R.
Proof.
  intros VR Vy NR. pose proof (finite_key_bounds _ _ Vy) as Ky.
  destruct R as [sR|sR| |sR mR eR]; [| |congruence|].
  - cbn [SFsub key negb cond_Zopp]. lia.
  - cbn [SFsub]. lia.
  - cbn [SFsub]. cbn [valid_binary] in VR.
    destruct (sub_exact sR false mR my eR ey VR Vy) as [He Eq].
    apply normalize_le; [assumption|assumption|reflexivity|].
    rewrite Eq. cbn [key cond_Zopp]. lia.
Qed.

(** The difference of a larger and a smaller value is positive. *)
Lemma sub_pos (d R : spec_float) :
  valid_binary prec emax d = true -> valid_binary prec emax R = true ->
  d <> S754_nan -> R <> S754_nan -> key prec emax d < key prec emax R ->
  0 < key prec emax (SFsub prec emax R d).
Proof.
  intros Vd VR Nd NR Hlt. pose proof omega_pos as PO.
  pose proof (key_bounds d Vd) as Bd. pose proof (key_bounds R VR) as BR.
  destruct R as [sR|sR| |sR mR eR]; [| |congruence|];
    (destruct d as [sd|sd| |sd md ed]; [| |congruence|]);
    cbn [valid_binary] in Vd, VR;
    try (pose proof (finite_key_bounds _ _ Vd) as Kd);
    try (pose proof (finite_key_bounds _ _ VR) as KR).
  - cbn [key] in Hlt. lia.
  - destruct sd; cbn [key cond_Zopp] in Hlt; [|lia].
    destruct sR; cbn [SFsub key negb cond_Zopp]; lia.
  - destruct sd; cbn [key cond_Zopp] in Hlt; [|lia].
    cbn [SFsub key negb cond_Zopp]. lia.
  - destruct sR; cbn [key cond_Zopp] in Hlt; [lia|].
    cbn [SFsub key cond_Zopp]. lia.
  - destruct sR, sd; cbn [key cond_Zopp] in Hlt; try lia.
    cbn [SFsub key cond_Zopp]. lia.
  - destruct sR; cbn [key cond_Zopp] in Hlt, Bd; [destruct sd; cbn [cond_Zopp] in *; lia|].
    cbn [SFsub key cond_Zopp]. lia.
  - cbn [SFsub]. cbn [key] in Hlt |- *. lia.
  - destruct sd; cbn [key cond_Zopp] in Hlt, BR;
      [|destruct sR; cbn [cond_Zopp] in *; lia].
    cbn [SFsub key negb cond_Zopp]. lia.
  - cbn [SFsub].
    destruct (sub_exact sR sd mR md eR ed VR Vd) as [He Eq].
    apply normalize_pos; [assumption|].
    pose proof (pow2_pos (Z.min eR ed - emin) ltac:(lia)) as Pz.
    assert (0 < (cond_Zopp sR (Zpos (fst (shl_align mR eR (Z.min eR ed))))
                 - cond_Zopp sd (Zpos (fst (shl_align md ed (Z.min eR ed)))))
                * 2 ^ (Z.min eR ed - emin)) by (rewrite Eq; lia).
    nia.
Qed.

Lemma SFltb_key (a b : spec_float) :
  valid_binary prec emax a = true -> valid_binary prec emax b = true ->
  SFltb a b = true -> a <> S754_nan /\ b <> S754_nan /\ key prec emax a < key prec emax b.
Proof.
  intros Va Vb H. unfold SFltb in H.
  assert (Na : a <> S754_nan) by (intros ->; discriminate).
  assert (Nb : b <> S754_nan) by (intros ->; destruct a; discriminate).
  rewrite (SFcompare_key a b Va Vb Na Nb) in H.
  repeat split; try assumption.
  destruct (Z.compare_spec (key prec emax a) (key prec emax b)); try discriminate. assumption.
Qed.

Lemma key_SFltb (a b : spec_float) :
  valid_binary prec emax a = true -> valid_binary prec emax b = true ->
  a <> S754_nan -> b <> S754_nan -> key prec emax a < key prec emax b -> SFltb a b = true.
Proof.
  intros Va Vb Na Nb H. unfold SFltb.
  rewrite (SFcompare_key a b Va Vb Na Nb).
  apply Z.compare_lt_iff in H. now rewrite H.
Qed.

Lemma SFsub_nan_l (a b : spec_float) :
  SFsub prec emax a b <> S754_nan -> a <> S754_nan.
Proof. intros H ->. apply H. reflexivity. Qed.

Lemma SFsub_not_nan (a b : spec_float) :
  a <> S754_nan -> b <> S754_nan ->
  key prec emax a <> key prec emax b \/ is_finite a = true ->
  SFsub prec emax a b <> S754_nan.
Proof.
  intros Na Nb Hk. pose proof omega_pos.
  destruct a as [sa|sa| |sa ma ea]; [| |congruence|];
    (destruct b as [sb|sb| |sb mb eb]; [| |congruence|]);
    cbn [SFsub]; try discriminate.
  - destruct sa, sb; discriminate.
  - destruct sa, sb; try discriminate;
      destruct Hk as [Hk|Hk]; try discriminate; cbn [key cond_Zopp] in Hk; lia.
  - apply binary_normalize_not_nan.
Qed.

(** Where [d < R - y] holds for a positive finite [y], the difference
    [R - d] is strictly positive. *)
Lemma gap_positive (d R : spec_float) (my : positive) (ey : Z) :
  valid_binary prec emax d = true -> valid_binary prec emax R = true ->
  bounded prec emax my ey = true ->
  SFltb d (SFsub prec emax R (S754_finite false my ey)) = true ->
  SFltb (S754_zero false) (SFsub prec emax R d) = true.
Proof.
  intros Vd VR Vy H.
  assert (Vs : valid_binary prec emax (SFsub prec emax R (S754_finite false my ey)) = true)
    by (apply valid_sub; assumption).
  destruct (SFltb_key _ _ Vd Vs H) as [Nd [Ns Hlt]].
  pose proof (SFsub_nan_l _ _ Ns) as NR.
  pose proof (sub_le R my ey VR Vy NR) as Hle.
  assert (Hdr : key prec emax d < key prec emax R) by lia.
  apply key_SFltb.
  - reflexivity.
  - apply valid_sub; assumption.
  - discriminate.
  - apply SFsub_not_nan; try assumption. left. lia.
  - cbn [key]. apply sub_pos; assumption.
Qed.

(** *** Further facts on the operations *)

Lemma SFsub_SFadd_opp (a b : spec_float) :
  SFsub prec emax a b = SFadd prec emax a (SFopp b).
Proof.
  destruct a as [sa|sa| |sa ma ea], b as [sb|sb| |sb mb eb]; cbn [SFsub SFadd SFopp];
    try reflexivity; destruct sa, sb; reflexivity.
Qed.






Lemma SFadd_zero_r (a : spec_float) :
  SFadd prec emax a (S754_zero false) = a
  \/ (a = S754_zero true /\ SFadd prec emax a (S754_zero false) = S754_zero false).
Proof.
  destruct a as [[|]|sa| |sa ma ea]; cbn [SFadd]; auto.
Qed.

Lemma valid_abs (a : spec_float) :
  valid_binary prec emax a = true -> valid_binary prec emax (SFabs a) = true.
Proof. destruct a; cbn [SFabs valid_binary]; auto. Qed.

End Rounding.

(** ** Single precision *)

Lemma prec_pos : 0 < prec.
Proof. reflexivity. Qed.

Lemma prec_lt_emax : prec < emax.
Proof. reflexivity. Qed.

Lemma valid_fadd (a b : float) :
  valid a = true -> valid b = true -> valid (fadd a b) = true.
Proof. intros. apply valid_add; auto using prec_pos, prec_lt_emax. Qed.

Lemma valid_fsub (a b : float) :
  valid a = true -> valid b = true -> valid (fsub a b) = true.
Proof. intros. apply valid_sub; auto using prec_pos, prec_lt_emax. Qed.

Lemma valid_of_double (d : spec_float) : valid (of_double d) = true.
Proof.
  destruct d; try reflexivity. unfold of_double.
  apply binary_normalize_valid; auto using prec_pos, prec_lt_emax.
Qed.

Lemma hypotf_ref_valid (a b : float) :
  valid a = true -> valid b = true -> valid (hypotf_ref a b) = true.
Proof.
  intros Va Vb. unfold hypotf_ref.
  destruct a as [sa|sa| |sa ma ea], b as [sb|sb| |sb mb eb];
    try reflexivity; try assumption; apply valid_of_double.
Qed.

(** The C library returns [fabsf(x)] for [hypotf(x, 0)]. *)
Lemma hypotf_ref_zero (a : float) : hypotf_ref a zero = fabs a.
Proof. destruct a; reflexivity. Qed.

(** An overlap that passes the test of [compute_forces] is positive. *)
Lemma overlap_positive (dist Rsum : float) :
  valid dist = true -> valid Rsum = true ->
  flt dist (fsub Rsum EPSILON) = true -> flt zero (fsub Rsum dist) = true.
Proof.
  intros Vd VR H.
  apply (gap_positive prec emax) with (my := 10995116%positive) (ey := -40);
    auto using prec_pos, prec_lt_emax.
Qed.

Lemma fsub_fadd_opp (a b : float) : fsub a b = fadd a (fopp b).
Proof. apply SFsub_SFadd_opp. Qed.

Lemma flt_not_nan (a b : float) : flt a b = true -> is_nan a = false /\ is_nan b = false.
Proof.
  unfold flt, SFltb. destruct a, b; cbn [SFcompare is_nan]; auto; discriminate.
Qed.





Lemma fadd_zero_same (a : float) : same_value (fadd a zero) a.
Proof.
  destruct (SFadd_zero_r prec emax a) as [E|[E1 E2]]; unfold fadd, zero.
  - rewrite E. now left.
  - rewrite E2, E1. right. split; reflexivity.
Qed.

Lemma fadd_zero_id (a : float) : a <> S754_zero true -> fadd a zero = a.
Proof.
  intros H. destruct (SFadd_zero_r prec emax a) as [E|[E1 _]]; [exact E|contradiction].
Qed.

(** ** Arrays *)

Lemma length_update (cs : circles) (n : nat) (f : circle_t -> circle_t) :
  length (update cs n f) = length cs.
Proof.
  revert n. induction cs as [|c cs IH]; intros [|n]; simpl; auto.
Qed.

Lemma nth_error_update_eq (cs : circles) (n : nat) (f : circle_t -> circle_t) (c : circle_t) :
  nth_error cs n = Some c -> nth_error (update cs n f) n = Some (f c).
Proof.
  revert n. induction cs as [|c' cs IH]; intros [|n]; simpl; try discriminate.
  - now intros [= ->].
  - apply IH.
Qed.

Lemma nth_error_update_neq (cs : circles) (n m : nat) (f : circle_t -> circle_t) :
  n <> m -> nth_error (update cs n f) m = nth_error cs m.
Proof.
  revert n m. induction cs as [|c' cs IH]; intros [|n] [|m] H; simpl; try reflexivity.
  - contradiction.
  - apply IH. congruence.
Qed.

Lemma map_update_inv {B : Type} (g : circle_t -> B) (cs : circles) (n : nat)
      (f : circle_t -> circle_t) :
  (forall c, g (f c) = g c) -> map g (update cs n f) = map g cs.
Proof.
  intros H. revert n. induction cs as [|c cs IH]; intros [|n]; simpl; try reflexivity.
  - now rewrite H.
  - now rewrite IH.
Qed.

Lemma get_done (cs : circles) (i : Z) (c : circle_t) :
  get cs i = Done c <-> 0 <= i /\ nth_error cs (Z.to_nat i) = Some c.
Proof.
  unfold get. destruct (Z.ltb_spec i 0).
  - split; [discriminate|lia].
  - destruct (nth_error cs (Z.to_nat i)); split;
      try discriminate; try (intros [_ [=]]); try (intros [= ->]); subst; auto.
Qed.

Lemma get_in_range (cs : circles) (i : Z) :
  0 <= i < ncircles cs -> exists c, get cs i = Done c.
Proof.
  intros H. unfold ncircles in H.
  destruct (nth_error cs (Z.to_nat i)) as [c|] eqn:E.
  - exists c. apply get_done. split; [lia|assumption].
  - apply nth_error_None in E. lia.
Qed.

Lemma get_not_abort (cs : circles) (i : Z) : get cs i <> AssertFail.
Proof.
  unfold get. destruct (i <? 0); [discriminate|].
  destruct (nth_error cs (Z.to_nat i)); discriminate.
Qed.

Lemma modify_done (cs cs' : circles) (i : Z) (f : circle_t -> circle_t) :
  modify cs i f = Done cs' <->
  0 <= i < ncircles cs /\ cs' = update cs (Z.to_nat i) f.
Proof.
  unfold modify. destruct (Z.ltb_spec i 0); [split; [discriminate|lia]|].
  destruct (Z.ltb_spec i (ncircles cs)).
  - split; [intros [= <-]; auto with zarith|intros [_ ->]; reflexivity].
  - split; [discriminate|lia].
Qed.

Lemma modify_not_abort (cs : circles) (i : Z) (f : circle_t -> circle_t) :
  modify cs i f <> AssertFail.
Proof.
  unfold modify. destruct (i <? 0); [discriminate|].
  destruct (i <? ncircles cs); discriminate.
Qed.

Lemma ncircles_update (cs : circles) (n : nat) (f : circle_t -> circle_t) :
  ncircles (update cs n f) = ncircles cs.
Proof. unfold ncircles. now rewrite length_update. Qed.

Lemma ncircles_geom (cs cs' : circles) :
  map geom cs' = map geom cs -> ncircles cs' = ncircles cs.
Proof.
  intros H. unfold ncircles. f_equal.
  rewrite <- (length_map geom cs'), H. apply length_map.
Qed.

Lemma wf_geom (cs cs' : circles) :
  map geom cs' = map geom cs -> wf cs -> wf cs'.
Proof.
  revert cs'. induction cs as [|c cs IH]; intros [|c' cs'] H W; simpl in H;
    try discriminate; constructor.
  - unfold geom in H. injection H as Hx Hy Hr _.
    inversion W as [|? ? [Vx [Vy Vr]] _]; subst. unfold wf_circle.
    rewrite Hx, Hy, Hr. auto.
  - inversion W; subst. unfold geom in H. injection H as _ _ _ H. now apply IH.
Qed.

Lemma wf_get (cs : circles) (i : Z) (c : circle_t) :
  wf cs -> get cs i = Done c -> wf_circle c.
Proof.
  intros W H. apply get_done in H. destruct H as [_ H].
  apply nth_error_In in H. unfold wf in W. rewrite Forall_forall in W. auto.
Qed.

(** ** Loops *)

Lemma for_loop_preserves {S : Type} (P : S -> Prop) (body : Z -> S -> outcome S) :
  (forall i s s', P s -> body i s = Done s' -> P s') ->
  forall count lo s s', P s -> for_loop lo count body s = Done s' -> P s'.
Proof.
  intros Hb. induction count as [|count IH]; intros lo s s' Hs H; simpl in H.
  - now injection H as <-.
  - destruct (body lo s) as [s1| |] eqn:E; simpl in H; try discriminate.
    eapply IH; [|exact H]. eapply Hb; eauto.
Qed.

Lemma for_loop_no_abort {S : Type} (P : S -> Prop) (body : Z -> S -> outcome S) :
  (forall i s, P s -> body i s <> AssertFail) ->
  (forall i s s', P s -> body i s = Done s' -> P s') ->
  forall count lo s, P s -> for_loop lo count body s <> AssertFail.
Proof.
  intros Ha Hb. induction count as [|count IH]; intros lo s Hs; simpl.
  - discriminate.
  - destruct (body lo s) as [s1| |] eqn:E; simpl.
    + apply IH. eapply Hb; eauto.
    + exfalso. eapply Ha; eauto.
    + discriminate.
Qed.

Lemma for_loop_total {S : Type} (P : S -> Prop) (body : Z -> S -> outcome S)
      (count : nat) :
  forall lo s,
    (forall i s, lo <= i < lo + Z.of_nat count -> P s ->
                 exists s', body i s = Done s' /\ P s') ->
    P s -> exists s', for_loop lo count body s = Done s' /\ P s'.
Proof.
  induction count as [|count IH]; intros lo s Hb Hs; simpl.
  - eauto.
  - destruct (Hb lo s ltac:(lia) Hs) as [s1 [E1 P1]]. rewrite E1. simpl.
    apply IH; [|assumption]. intros i s0 Hi. apply Hb. lia.
Qed.

(** A loop whose body changes nothing. *)
Lemma for_loop_skip {S : Type} (body : Z -> S -> outcome S) (s : S) (count : nat) :
  forall lo,
    (forall i, lo <= i < lo + Z.of_nat count -> body i s = Done s) ->
    for_loop lo count body s = Done s.
Proof.
  induction count as [|count IH]; intros lo Hb; simpl; [reflexivity|].
  rewrite Hb by lia. simpl. apply IH. intros i Hi. apply Hb. lia.
Qed.

(** ** The body of the scan *)

Section KernelFacts.

Variable hypotf : float -> float -> float.

Lemma apply_overlap_done (i j : Z) (ox oy : float) (cs cs' : circles) :
  apply_overlap i j ox oy cs = Done cs' <->
  (0 <= i < ncircles cs /\ 0 <= j < ncircles cs)
  /\ cs' =
     update (update (update (update cs
       (Z.to_nat i) (fun c => set_dx (fsub (dx c) (fdiv ox K)) c))
       (Z.to_nat i) (fun c => set_dy (fsub (dy c) (fdiv oy K)) c))
       (Z.to_nat j) (fun c => set_dx (fadd (dx c) (fdiv ox K)) c))
       (Z.to_nat j) (fun c => set_dy (fadd (dy c) (fdiv oy K)) c).
Proof.
  unfold apply_overlap. split.
  - intros H.
    destruct (modify cs i _) as [cs1| |] eqn:E1; simpl in H; try discriminate.
    destruct (modify cs1 i _) as [cs2| |] eqn:E2; simpl in H; try discriminate.
    destruct (modify cs2 j _) as [cs3| |] eqn:E3; simpl in H; try discriminate.
    apply modify_done in E1, E2, E3, H.
    destruct E1 as [R1 ->], E2 as [R2 ->], E3 as [R3 ->], H as [R4 ->].
    rewrite !ncircles_update in *. auto.
  - intros [[Ri Rj] ->].
    assert (M : forall cs0 k f, 0 <= k < ncircles cs0 ->
                modify cs0 k f = Done (update cs0 (Z.to_nat k) f)).
    { intros. apply modify_done. auto. }
    rewrite M by assumption. simpl.
    rewrite M by (rewrite ncircles_update; assumption). simpl.
    rewrite M by (rewrite !ncircles_update; assumption). simpl.
    apply M. rewrite !ncircles_update. assumption.
Qed.

Lemma apply_overlap_not_abort (i j : Z) (ox oy : float) (cs : circles) :
  apply_overlap i j ox oy cs <> AssertFail.
Proof.
  unfold apply_overlap.
  destruct (modify cs i _) as [cs1| |] eqn:E1; simpl; try discriminate;
    [|now apply modify_not_abort in E1].
  destruct (modify cs1 i _) as [cs2| |] eqn:E2; simpl; try discriminate;
    [|now apply modify_not_abort in E2].
  destruct (modify cs2 j _) as [cs3| |] eqn:E3; simpl; try discriminate;
    [|now apply modify_not_abort in E3].
  apply modify_not_abort.
Qed.

Lemma apply_overlap_geom (i j : Z) (ox oy : float) (cs cs' : circles) :
  apply_overlap i j ox oy cs = Done cs' -> map geom cs' = map geom cs.
Proof.
  intros H. apply apply_overlap_done in H. destruct H as [_ ->].
  rewrite !map_update_inv; reflexivity.
Qed.

Lemma pair_step_unfold (i j n : Z) (cs : circles) :
  pair_step hypotf i j (n, cs) =
  if i =? j then Done (n, cs)
  else
    cj <- get cs j ;;
    ci <- get cs i ;;
    if overlapping hypotf ci cj then
      if flt zero (pair_overlap hypotf ci cj) then
        cs' <- apply_overlap i j (fst (pair_overlap_xy hypotf ci cj))
                 (snd (pair_overlap_xy hypotf ci cj)) cs ;;
        Done (Int.add n 1, cs')
      else AssertFail
    else Done (n, cs).
Proof.
  unfold pair_step. destruct (i =? j); [reflexivity|].
  destruct (get cs j) as [cj| |]; simpl; try reflexivity.
  destruct (get cs i) as [ci| |]; simpl; try reflexivity.
  unfold overlapping, pair_overlap, pair_overlap_xy, pair_dist, pair_Rsum.
  destruct (flt _ (fsub _ EPSILON)); [|reflexivity].
  destruct (flt zero _); [|reflexivity].
  destruct (overlap_xy _ _ _ _) as [ox oy]. reflexivity.
Qed.

Lemma pair_step_geom (i j n n' : Z) (cs cs' : circles) :
  pair_step hypotf i j (n, cs) = Done (n', cs') -> map geom cs' = map geom cs.
Proof.
  rewrite pair_step_unfold. destruct (i =? j); [now intros [= _ <-]|].
  destruct (get cs j) as [cj| |]; simpl; try discriminate.
  destruct (get cs i) as [ci| |]; simpl; try discriminate.
  destruct (overlapping hypotf ci cj); [|now intros [= _ <-]].
  destruct (flt zero _); [|discriminate].
  destruct (apply_overlap _ _ _ _ _) as [cs1| |] eqn:E; simpl; try discriminate.
  intros [= _ <-]. eapply apply_overlap_geom; eauto.
Qed.

Hypothesis hypotf_valid :
  forall a b, valid a = true -> valid b = true -> valid (hypotf a b) = true.

(** The assertion of the overlap branch holds for every detected pair. *)
Lemma assert_passes (ci cj : circle_t) :
  wf_circle ci -> wf_circle cj -> overlapping hypotf ci cj = true ->
  flt zero (pair_overlap hypotf ci cj) = true.
Proof.
  intros [Vxi [Vyi Vri]] [Vxj [Vyj Vrj]] H.
  unfold overlapping in H. unfold pair_overlap.
  apply overlap_positive; [| |assumption].
  - unfold pair_dist. apply hypotf_valid; apply valid_fsub; assumption.
  - unfold pair_Rsum. apply valid_fadd; assumption.
Qed.

Lemma pair_step_no_abort (i j n : Z) (cs : circles) :
  wf cs -> pair_step hypotf i j (n, cs) <> AssertFail.
Proof.
  intros W. rewrite pair_step_unfold. destruct (i =? j); [discriminate|].
  destruct (get cs j) as [cj| |] eqn:Ej; simpl; try discriminate;
    [|now apply get_not_abort in Ej].
  destruct (get cs i) as [ci| |] eqn:Ei; simpl; try discriminate;
    [|now apply get_not_abort in Ei].
  destruct (overlapping hypotf ci cj) eqn:Ov; [|discriminate].
  rewrite assert_passes by eauto using wf_get.
  destruct (apply_overlap _ _ _ _ _) as [cs1| |] eqn:E; simpl; try discriminate.
  now apply apply_overlap_not_abort in E.
Qed.

Lemma pair_step_total (i j n : Z) (cs : circles) :
  wf cs -> 0 <= i < ncircles cs -> 0 <= j < ncircles cs ->
  exists n' cs', pair_step hypotf i j (n, cs) = Done (n', cs').
Proof.
  intros W Ri Rj. rewrite pair_step_unfold. destruct (i =? j); [eauto|].
  destruct (get_in_range cs j Rj) as [cj Ej].
  destruct (get_in_range cs i Ri) as [ci Ei].
  rewrite Ej, Ei. simpl.
  destruct (overlapping hypotf ci cj) eqn:Ov; [|eauto].
  rewrite assert_passes by eauto using wf_get.
  rewrite (proj2 (apply_overlap_done i j _ _ cs _) (conj (conj Ri Rj) eq_refl)).
  simpl. eauto.
Qed.

(** The scan leaves centres and radii alone. *)
Lemma compute_forces_geom (start end_ n : Z) (cs cs' : circles) :
  compute_forces hypotf start end_ cs = Done (n, cs') ->
  map geom cs' = map geom cs.
Proof.
  unfold compute_forces. intros H.
  apply (for_loop_preserves (fun st => map geom (snd st) = map geom cs)) in H;
    [exact H| |reflexivity].
  intros i st st' Hst Hi.
  apply (for_loop_preserves (fun st => map geom (snd st) = map geom cs)) in Hi;
    [exact Hi| |exact Hst].
  intros j [n1 cs1] [n2 cs2] H1 Hj. simpl in *.
  rewrite <- H1. eapply pair_step_geom; eauto.
Qed.

Lemma pair_step_inv (cs : circles) (i j : Z) (st st' : Z * circles) :
  map geom (snd st) = map geom cs -> pair_step hypotf i j st = Done st' ->
  map geom (snd st') = map geom cs.
Proof.
  destruct st as [n1 cs1], st' as [n2 cs2]. simpl. intros H1 Hj.
  rewrite <- H1. eapply pair_step_geom; eauto.
Qed.

Lemma compute_forces_no_abort (start end_ : Z) (cs : circles) :
  wf cs -> compute_forces hypotf start end_ cs <> AssertFail.
Proof.
  intros W. unfold compute_forces.
  set (P := fun st : Z * circles => map geom (snd st) = map geom cs).
  apply (for_loop_no_abort P); [| |reflexivity].
  - intros i st Hst.
    apply (for_loop_no_abort P (fun j st => pair_step hypotf i j st)); [| |exact Hst].
    + intros j [n1 cs1] H1. apply pair_step_no_abort. eapply wf_geom; eauto.
    + intros j s s' Hs Hj. eapply pair_step_inv; eauto.
  - intros i st st' Hst Hi.
    eapply (for_loop_preserves P); [|exact Hst|exact Hi].
    intros j s s' Hs Hj. eapply pair_step_inv; eauto.
Qed.

Lemma compute_forces_total (start end_ : Z) (cs : circles) :
  wf cs -> 0 <= start -> end_ <= ncircles cs ->
  exists n cs', compute_forces hypotf start end_ cs = Done (n, cs')
                /\ map geom cs' = map geom cs.
Proof.
  intros W Hs He. unfold compute_forces.
  set (P := fun st : Z * circles => map geom (snd st) = map geom cs).
  destruct (for_loop_total P
              (fun i st => for_loop 0 (length cs) (fun j st => pair_step hypotf i j st) st)
              (Z.to_nat (end_ - start)) start (0, cs)) as [[n cs'] [E Hp]];
    [|reflexivity|exists n, cs'; auto].
  intros i st Hi Hst.
  apply (for_loop_total P); [|exact Hst].
  intros j [n1 cs1] Hj H1. unfold P in H1. simpl in H1.
  destruct (pair_step_total i j n1 cs1) as [n2 [cs2 E2]].
  - eapply wf_geom; eauto.
  - rewrite (ncircles_geom _ _ H1). lia.
  - rewrite (ncircles_geom _ _ H1). unfold ncircles. lia.
  - exists (n2, cs2). split; [assumption|].
    eapply (pair_step_inv cs i j (n1, cs1)); eauto.
Qed.

End KernelFacts.

(** ** Dependence on the library function *)

Lemma for_loop_ext {S : Type} (P : S -> Prop) (b1 b2 : Z -> S -> outcome S) :
  (forall i s, P s -> b1 i s = b2 i s) ->
  (forall i s s', P s -> b2 i s = Done s' -> P s') ->
  forall count lo s, P s -> for_loop lo count b1 s = for_loop lo count b2 s.
Proof.
  intros He Hp. induction count as [|count IH]; intros lo s Hs; simpl; [reflexivity|].
  rewrite He by assumption.
  destruct (b2 lo s) as [s1| |] eqn:E; simpl; try reflexivity.
  apply IH. eapply Hp; eauto.
Qed.

Section Ext.

Variables h1 h2 : float -> float -> float.

Lemma agree_geom (cs cs' : circles) :
  map geom cs' = map geom cs -> agree h1 h2 cs -> agree h1 h2 cs'.
Proof. unfold agree. intros ->. auto. Qed.

Lemma get_In_geom (cs : circles) (i : Z) (c : circle_t) :
  get cs i = Done c -> In (geom c) (map geom cs).
Proof.
  intros H. apply get_done in H. destruct H as [_ H].
  apply in_map. eapply nth_error_In; eauto.
Qed.

Lemma pair_step_ext (i j n : Z) (cs : circles) :
  agree h1 h2 cs -> pair_step h1 i j (n, cs) = pair_step h2 i j (n, cs).
Proof.
  intros A. rewrite !pair_step_unfold. destruct (i =? j); [reflexivity|].
  destruct (get cs j) as [cj| |] eqn:Ej; simpl; try reflexivity.
  destruct (get cs i) as [ci| |] eqn:Ei; simpl; try reflexivity.
  unfold overlapping, pair_overlap_xy, pair_overlap.
  rewrite (A ci cj) by eauto using get_In_geom. reflexivity.
Qed.

Lemma compute_forces_ext (start end_ : Z) (cs : circles) :
  agree h1 h2 cs -> compute_forces h1 start end_ cs = compute_forces h2 start end_ cs.
Proof.
  intros A. unfold compute_forces.
  set (P := fun st : Z * circles => map geom (snd st) = map geom cs).
  apply (for_loop_ext P); [| |reflexivity].
  - intros i st Hst. apply (for_loop_ext P); [| |exact Hst].
    + intros j [n1 cs1] H1. apply pair_step_ext. eapply agree_geom; eauto.
    + intros j s s' Hs Hj. eapply pair_step_inv; eauto.
  - intros i st st' Hst Hi.
    eapply (for_loop_preserves P); [|exact Hst|exact Hi].
    intros j s s' Hs Hj. eapply pair_step_inv; eauto.
Qed.

Lemma reset_geom (cs : circles) : map geom (reset_displacements cs) = map geom cs.
Proof. unfold reset_displacements. rewrite map_map. apply map_ext. reflexivity. Qed.

Lemma local_compute_ext (size : Z) (w : world) :
  (forall cs, In cs w -> agree h1 h2 cs) ->
  forall rank, local_compute h1 size rank w = local_compute h2 size rank w.
Proof.
  induction w as [|cs w IH]; intros A rank; [reflexivity|].
  cbn [local_compute].
  rewrite compute_forces_ext
    by (eapply agree_geom; [apply reset_geom|apply A; now left]).
  rewrite IH by (intros cs' H; apply A; now right). reflexivity.
Qed.

Lemma iteration_ext (w : world) :
  (forall cs, In cs w -> agree h1 h2 cs) -> iteration h1 w = iteration h2 w.
Proof.
  intros A. unfold iteration. now rewrite local_compute_ext.
Qed.

End Ext.

(** ** Scans with few overlapping pairs *)

Lemma for_loop_app {S : Type} (body : Z -> S -> outcome S) (a b : nat) :
  forall lo s,
    for_loop lo (a + b) body s
    = (s' <- for_loop lo a body s ;; for_loop (lo + Z.of_nat a) b body s').
Proof.
  induction a as [|a IH]; intros lo s.
  - simpl. now rewrite Z.add_0_r.
  - cbn [Nat.add for_loop]. destruct (body lo s) as [s1| |]; simpl; try reflexivity.
    rewrite IH. replace (lo + 1 + Z.of_nat a) with (lo + Z.of_nat (Datatypes.S a)) by lia.
    reflexivity.
Qed.

Lemma for_loop_skip_inv {S : Type} (P : S -> Prop) (body : Z -> S -> outcome S)
      (count : nat) :
  forall lo s,
    (forall i, lo <= i < lo + Z.of_nat count -> P s -> body i s = Done s) ->
    P s -> for_loop lo count body s = Done s.
Proof.
  induction count as [|count IH]; intros lo s Hb Hs; simpl; [reflexivity|].
  rewrite Hb by (auto; lia). simpl. apply IH; [|assumption].
  intros i Hi. apply Hb. lia.
Qed.

(** A loop in which a single index does something. *)
Lemma for_loop_only {S : Type} (P : S -> Prop) (body : Z -> S -> outcome S) (a : Z)
      (count : nat) :
  (forall s s', P s -> body a s = Done s' -> P s') ->
  forall lo s,
    lo <= a < lo + Z.of_nat count ->
    (forall i s, lo <= i < lo + Z.of_nat count -> i <> a -> P s -> body i s = Done s) ->
    P s -> for_loop lo count body s = body a s.
Proof.
  intros Hp. induction count as [|count IH]; intros lo s Ha Hb Hs; [lia|].
  cbn [for_loop]. destruct (Z.eq_dec lo a) as [->|Hne].
  - destruct (body a s) as [s1| |] eqn:E; simpl; try reflexivity.
    apply for_loop_skip_inv with (P := P); [|eapply Hp; eauto].
    intros i Hi Hs1. apply Hb; [lia|lia|assumption].
  - rewrite Hb by (auto; lia). simpl. apply IH; [lia| |assumption].
    intros i s0 Hi. apply Hb. lia.
Qed.

Section Sparse.

Variable hypotf : float -> float -> float.
Variable cs : circles.

(** The pairs that may overlap; every other pair of [cs] does not. *)
Variable active : Z -> Z -> bool.
Hypothesis quiet :
  forall i j ci cj, get cs i = Done ci -> get cs j = Done cj ->
    i <> j -> active i j = false -> overlapping hypotf ci cj = false.

Lemma overlapping_geom (ci cj ci' cj' : circle_t) :
  geom ci = geom ci' -> geom cj = geom cj' ->
  overlapping hypotf ci cj = overlapping hypotf ci' cj'.
Proof.
  unfold geom. intros [= Hx Hy Hr] [= Hx' Hy' Hr'].
  unfold overlapping, pair_dist, pair_Rsum. now rewrite Hx, Hy, Hr, Hx', Hy', Hr'.
Qed.

Lemma get_same_geom (cs1 : circles) (i : Z) :
  map geom cs1 = map geom cs -> 0 <= i < ncircles cs ->
  exists c1 c, get cs1 i = Done c1 /\ get cs i = Done c /\ geom c1 = geom c.
Proof.
  intros G R.
  destruct (get_in_range cs i R) as [c Ec].
  destruct (get_in_range cs1 i) as [c1 Ec1]; [now rewrite (ncircles_geom _ _ G)|].
  exists c1, c. repeat split; try assumption.
  apply get_done in Ec, Ec1. destruct Ec as [_ Ec], Ec1 as [_ Ec1].
  apply (map_nth_error geom) in Ec, Ec1. rewrite G in Ec1. congruence.
Qed.

Lemma pair_step_quiet (i j : Z) (st : Z * circles) :
  same_geom cs st -> 0 <= i < ncircles cs -> 0 <= j < ncircles cs ->
  i = j \/ active i j = false -> pair_step hypotf i j st = Done st.
Proof.
  destruct st as [n cs1]. unfold same_geom. cbn [snd]. intros G Ri Rj H.
  rewrite pair_step_unfold. destruct (Z.eqb_spec i j) as [|Hne]; [reflexivity|].
  destruct H as [|H]; [contradiction|].
  destruct (get_same_geom cs1 i G Ri) as [ci1 [ci [E1 [E2 E3]]]].
  destruct (get_same_geom cs1 j G Rj) as [cj1 [cj [F1 [F2 F3]]]].
  rewrite F1, E1. simpl.
  rewrite (overlapping_geom ci1 cj1 ci cj E3 F3).
  now rewrite (quiet i j ci cj E2 F2 Hne H).
Qed.

Lemma row_quiet (i : Z) (st : Z * circles) :
  same_geom cs st -> 0 <= i < ncircles cs ->
  (forall j, 0 <= j < ncircles cs -> j <> i -> active i j = false) ->
  for_loop 0 (length cs) (fun j st => pair_step hypotf i j st) st = Done st.
Proof.
  intros G Ri H. apply for_loop_skip_inv with (P := same_geom cs); [|assumption].
  intros j Rj G'. apply pair_step_quiet; try assumption;
    try (unfold ncircles; lia).
  destruct (Z.eq_dec i j); [now left|right]. apply H; [unfold ncircles|]; lia.
Qed.

Lemma row_one (i b : Z) (st : Z * circles) :
  same_geom cs st -> 0 <= i < ncircles cs -> 0 <= b < ncircles cs ->
  (forall j, 0 <= j < ncircles cs -> j <> i -> j <> b -> active i j = false) ->
  for_loop 0 (length cs) (fun j st => pair_step hypotf i j st) st
  = pair_step hypotf i b st.
Proof.
  intros G Ri Rb H.
  apply for_loop_only with (P := same_geom cs); [| | |exact G].
  - intros s s'. apply pair_step_inv.
  - unfold ncircles in Rb. lia.
  - intros j s Rj Hj Gs. apply pair_step_quiet; try assumption;
      try (unfold ncircles; lia).
    destruct (Z.eq_dec i j); [now left|right]. apply H; [unfold ncircles|..]; lia.
Qed.

Lemma rows_inv (i : Z) (st st' : Z * circles) :
  same_geom cs st -> rows hypotf cs i st = Done st' -> same_geom cs st'.
Proof.
  intros G H. eapply (for_loop_preserves (same_geom cs)); [|exact G|exact H].
  intros j s s'. apply pair_step_inv.
Qed.

Lemma scan_quiet (lo : Z) (count : nat) (st : Z * circles) :
  same_geom cs st -> 0 <= lo -> lo + Z.of_nat count <= ncircles cs ->
  (forall i j, lo <= i < lo + Z.of_nat count -> 0 <= j < ncircles cs ->
               j <> i -> active i j = false) ->
  for_loop lo count (rows hypotf cs) st = Done st.
Proof.
  intros G Hlo Hhi H. apply for_loop_skip_inv with (P := same_geom cs); [|assumption].
  intros i Ri Gs. apply row_quiet; [assumption|lia|]. intros j Rj Hj. now apply H.
Qed.

Lemma scan_one (lo : Z) (count : nat) (a b : Z) (st : Z * circles) :
  same_geom cs st -> 0 <= lo -> lo + Z.of_nat count <= ncircles cs ->
  lo <= a < lo + Z.of_nat count -> 0 <= b < ncircles cs ->
  (forall i j, lo <= i < lo + Z.of_nat count -> 0 <= j < ncircles cs ->
               j <> i -> ~ (i = a /\ j = b) -> active i j = false) ->
  for_loop lo count (rows hypotf cs) st = pair_step hypotf a b st.
Proof.
  intros G Hlo Hhi Ra Rb H.
  rewrite for_loop_only with (P := same_geom cs) (a := a); [| |exact Ra| |exact G].
  - apply row_one; [assumption|lia|assumption|].
    intros j Rj Hj Hjb. apply H; try assumption. lia.
  - intros s s'. apply rows_inv.
  - intros i s Ri Hi Gs. apply row_quiet; [assumption|lia|].
    intros j Rj Hj. apply H; try assumption. lia.
Qed.

End Sparse.

(** ** The assertion of the overlap branch *)

Lemma wf_two_circles : wf two_circles.
Proof. repeat constructor. Qed.

(** The scenes used below lie within the bounds of [init_circles]. *)
Lemma two_circles_initial : forallb initial_circle two_circles = true.
Proof. vm_compute. reflexivity. Qed.

Lemma c_twin_initial : initial_circle c_twin = true.
Proof. vm_compute. reflexivity. Qed.

(** C7. Whenever [compute_forces] detects an overlap, that is
    [dist < Rsum - EPSILON], the overlap [Rsum - dist] it computes is
    strictly positive, so that [assert(overlap > 0.0)] never fails: no
    scan over circles with centres and radii of the format aborts on
    it. *)
Theorem overlap_assertion_holds (hypotf : float -> float -> float) :
  (forall a b, valid a = true -> valid b = true -> valid (hypotf a b) = true) ->
  (forall ci cj, wf_circle ci -> wf_circle cj ->
     overlapping hypotf ci cj = true ->
     flt zero (pair_overlap hypotf ci cj) = true)
  /\ (forall start end_ cs, wf cs ->
        compute_forces hypotf start end_ cs <> AssertFail).
Proof.
  intros Hh. split.
  - intros ci cj Wi Wj Ov. now apply assert_passes.
  - intros start end_ cs W. now apply compute_forces_no_abort.
Qed.

Lemma overlap_assertion_holds_witness :
  compute_forces hypotf_ref 0 2 two_circles <> AssertFail.
Proof.
  apply (proj2 (overlap_assertion_holds hypotf_ref hypotf_ref_valid) 0 2 two_circles).
  exact wf_two_circles.
Defined.

(** ** What the two passes leave unchanged *)

Lemma move_circles_rest (cs : circles) : map rest (move_circles cs) = map rest cs.
Proof.
  unfold move_circles. rewrite map_map. apply map_ext. reflexivity.
Qed.

(** C10. [compute_forces] changes no [x], [y] or [r] (whatever range it
    scans, and it completes whenever the range lies within the array);
    [move_circles] changes no [r], [dx] or [dy] and adds the pending
    displacement to [x] and [y]. *)
Theorem kernel_frames (hypotf : float -> float -> float) :
  (forall start end_ cs n cs',
     compute_forces hypotf start end_ cs = Done (n, cs') ->
     map geom cs' = map geom cs)
  /\ ((forall a b, valid a = true -> valid b = true -> valid (hypotf a b) = true) ->
      forall start end_ cs, wf cs -> 0 <= start -> end_ <= ncircles cs ->
      exists n cs', compute_forces hypotf start end_ cs = Done (n, cs')
                    /\ map geom cs' = map geom cs)
  /\ (forall cs,
        map rest (move_circles cs) = map rest cs
        /\ map x (move_circles cs) = map (fun c => fadd (x c) (dx c)) cs
        /\ map y (move_circles cs) = map (fun c => fadd (y c) (dy c)) cs).
Proof.
  split; [|split].
  - intros start end_ cs n cs'. apply compute_forces_geom.
  - intros Hh start end_ cs W Hs He. now apply compute_forces_total.
  - intros cs. split; [apply move_circles_rest|].
    unfold move_circles. rewrite !map_map. split; apply map_ext; reflexivity.
Qed.

Lemma kernel_frames_witness :
  exists n cs', compute_forces hypotf_ref 0 2 two_circles = Done (n, cs')
                /\ map geom cs' = map geom two_circles.
Proof.
  apply (proj1 (proj2 (kernel_frames hypotf_ref)) hypotf_ref_valid 0 2 two_circles).
  - exact wf_two_circles.
  - lia.
  - vm_compute. discriminate.
Defined.

(** ** The displacement of a detected pair *)

(** C5. For a detected overlapping pair [(i, j)] the step adds
    [overlap_x / K] and [overlap_y / K] to the displacement of circle
    [j] and the negations of the same two values to the displacement of
    circle [i], with [K = 3/2]; the two contributions have equal
    magnitude. *)
Theorem displacement_antisymmetric (hypotf : float -> float -> float)
        (i j n : Z) (cs : circles) (ci cj : circle_t) :
  (forall a b, valid a = true -> valid b = true -> valid (hypotf a b) = true) ->
  wf cs -> i <> j -> get cs i = Done ci -> get cs j = Done cj ->
  overlapping hypotf ci cj = true ->
  let ox := fst (pair_overlap_xy hypotf ci cj) in
  let oy := snd (pair_overlap_xy hypotf ci cj) in
  exists cs',
    pair_step hypotf i j (n, cs) = Done (Int.add n 1, cs')
    /\ get cs' i = Done (mkCircle (x ci) (y ci) (r ci)
                           (fadd (dx ci) (fopp (fdiv ox K)))
                           (fadd (dy ci) (fopp (fdiv oy K))))
    /\ get cs' j = Done (mkCircle (x cj) (y cj) (r cj)
                           (fadd (dx cj) (fdiv ox K))
                           (fadd (dy cj) (fdiv oy K)))
    /\ fabs (fopp (fdiv ox K)) = fabs (fdiv ox K)
    /\ fabs (fopp (fdiv oy K)) = fabs (fdiv oy K)
    /\ K = fdiv (of_Z 3) (of_Z 2).
Proof.
  intros Hh W Hij Gi Gj Ov ox oy.
  pose proof (proj1 (get_done cs i ci) Gi) as [Hi Ni].
  pose proof (proj1 (get_done cs j cj) Gj) as [Hj Nj].
  assert (Ri : 0 <= i < ncircles cs).
  { split; [assumption|]. unfold ncircles.
    assert (Z.to_nat i < length cs)%nat by (apply nth_error_Some; congruence). lia. }
  assert (Rj : 0 <= j < ncircles cs).
  { split; [assumption|]. unfold ncircles.
    assert (Z.to_nat j < length cs)%nat by (apply nth_error_Some; congruence). lia. }
  assert (Hne : Z.to_nat i <> Z.to_nat j) by lia.
  eexists. split; [|split; [|split; [|split; [|split]]]].
  - rewrite pair_step_unfold.
    destruct (Z.eqb_spec i j) as [|_]; [contradiction|].
    rewrite Gj, Gi. simpl. rewrite Ov.
    rewrite (assert_passes hypotf Hh ci cj) by eauto using wf_get.
    fold ox oy.
    rewrite (proj2 (apply_overlap_done i j ox oy cs _) (conj (conj Ri Rj) eq_refl)).
    reflexivity.
  - apply get_done. split; [assumption|].
    rewrite !nth_error_update_neq by congruence.
    erewrite nth_error_update_eq
      by (erewrite nth_error_update_eq by eassumption; reflexivity).
    unfold set_dx, set_dy. simpl. now rewrite !fsub_fadd_opp.
  - apply get_done. split; [assumption|].
    erewrite nth_error_update_eq
      by (erewrite nth_error_update_eq
            by (rewrite !nth_error_update_neq by congruence; eassumption);
          reflexivity).
    reflexivity.
  - destruct (fdiv ox K); reflexivity.
  - destruct (fdiv oy K); reflexivity.
  - reflexivity.
Qed.

Lemma displacement_antisymmetric_witness :
  exists cs', pair_step hypotf_ref 0 1 (0, two_circles) = Done (1, cs').
Proof.
  destruct (displacement_antisymmetric hypotf_ref 0 1 0 two_circles c_origin c_right
              hypotf_ref_valid wf_two_circles ltac:(lia) eq_refl eq_refl eq_refl)
    as [cs' [H _]].
  exists cs'. exact H.
Defined.

(** ** Coincident centres *)

(** What the step does to the two circles of a detected pair. *)
Lemma pair_step_detected (hypotf : float -> float -> float)
      (Hh : forall a b, valid a = true -> valid b = true ->
                        valid (hypotf a b) = true)
      (i j n : Z) (cs : circles) (ci cj : circle_t) :
  wf cs -> i <> j -> get cs i = Done ci -> get cs j = Done cj ->
  overlapping hypotf ci cj = true ->
  exists cs',
    pair_step hypotf i j (n, cs) = Done (Int.add n 1, cs')
    /\ get cs' i
       = Done (mkCircle (x ci) (y ci) (r ci)
                 (fsub (dx ci) (fdiv (fst (pair_overlap_xy hypotf ci cj)) K))
                 (fsub (dy ci) (fdiv (snd (pair_overlap_xy hypotf ci cj)) K)))
    /\ get cs' j
       = Done (mkCircle (x cj) (y cj) (r cj)
                 (fadd (dx cj) (fdiv (fst (pair_overlap_xy hypotf ci cj)) K))
                 (fadd (dy cj) (fdiv (snd (pair_overlap_xy hypotf ci cj)) K))).
Proof.
  intros W Hij Gi Gj Ov.
  pose proof (proj1 (get_done cs i ci) Gi) as [Hi Ni].
  pose proof (proj1 (get_done cs j cj) Gj) as [Hj Nj].
  assert (Ri : 0 <= i < ncircles cs).
  { split; [assumption|]. unfold ncircles.
    assert (Z.to_nat i < length cs)%nat by (apply nth_error_Some; congruence). lia. }
  assert (Rj : 0 <= j < ncircles cs).
  { split; [assumption|]. unfold ncircles.
    assert (Z.to_nat j < length cs)%nat by (apply nth_error_Some; congruence). lia. }
  assert (Hne : Z.to_nat i <> Z.to_nat j) by lia.
  eexists. split; [|split].
  - rewrite pair_step_unfold.
    destruct (Z.eqb_spec i j) as [|_]; [contradiction|].
    rewrite Gj, Gi. simpl. rewrite Ov.
    rewrite (assert_passes hypotf Hh ci cj) by eauto using wf_get.
    rewrite (proj2 (apply_overlap_done i j _ _ cs _) (conj (conj Ri Rj) eq_refl)).
    reflexivity.
  - apply get_done. split; [assumption|].
    rewrite !nth_error_update_neq by congruence.
    erewrite nth_error_update_eq
      by (erewrite nth_error_update_eq by eassumption; reflexivity).
    reflexivity.
  - apply get_done. split; [assumption|].
    erewrite nth_error_update_eq
      by (erewrite nth_error_update_eq
            by (rewrite !nth_error_update_neq by congruence; eassumption);
          reflexivity).
    reflexivity.
Qed.




(** ** A single circle *)

Lemma reduce_sum_zeros (k : nat) : reduce_sum (repeat 0 k) = 0.
Proof.
  unfold reduce_sum. induction k as [|k IH]; simpl; [reflexivity|exact IH].
Qed.

Lemma gather_blocks_0 (w : world) (rank : nat) : gather_blocks 0 rank w = [].
Proof.
  revert rank. induction w as [|cs w IH]; intros rank; simpl; [reflexivity|apply IH].
Qed.

Lemma bcast_repeat (cs : circles) (k : nat) : bcast (repeat cs k) = repeat cs k.
Proof.
  destruct k as [|k]; [reflexivity|].
  unfold bcast. change (repeat cs (S k)) with (cs :: repeat cs k).
  rewrite <- (map_id (cs :: repeat cs k)) at 2.
  apply map_ext_in. intros a Ha. symmetry.
  apply (repeat_spec (S k) cs a Ha).
Qed.

Lemma int_quot_small (a b : Z) : 0 <= a < b -> Int.div a b = 0.
Proof. intros H. unfold Int.div. now rewrite Z.quot_small. Qed.

Lemma merge_single (c : circle_t) (size : nat) :
  (1 <= size)%nat -> Z.of_nat size <= Int.INT_MAX ->
  displacement_merge (repeat [c] size) = repeat [c] size.
Proof.
  intros H1 H2. unfold displacement_merge. rewrite repeat_length.
  destruct size as [|[|size]]; [lia|reflexivity|].
  change (hd [] (repeat [c] (S (S size)))) with [c].
  rewrite int_quot_small by (unfold ncircles; simpl length; lia).
  unfold allgather_in_place. rewrite gather_blocks_0, repeat_length, Nat.mul_0_r.
  apply map_id.
Qed.

Section Single.

Variable hypotf : float -> float -> float.
Variable c : circle_t.
Variable size : nat.
Hypothesis size_pos : (1 <= size)%nat.
Hypothesis size_int : Z.of_nat size <= Int.INT_MAX.

Lemma local_compute_single (k : nat) :
  forall rank, 0 <= rank -> rank + Z.of_nat k <= Z.of_nat size ->
  local_compute hypotf (Z.of_nat size) rank (repeat [c] k)
  = Done (repeat (0, [reset_circle c]) k).
Proof.
  induction k as [|k IH]; intros rank Hr Hk; [reflexivity|].
  change (repeat [c] (S k)) with ([c] :: repeat [c] k).
  cbn [local_compute]. rewrite IH by lia.
  change (reset_displacements [c]) with [reset_circle c].
  change (ncircles [reset_circle c]) with 1.
  unfold partition_start, partition_end, Int.add, Int.mul.
  rewrite !Z.mul_1_r.
  assert (Hi : Int.INT_MAX = 2147483647) by reflexivity.
  rewrite (wrap32_id rank) by (unfold Int.in_range, Int.INT_MIN; lia).
  rewrite (wrap32_id (rank + 1)) by (unfold Int.in_range, Int.INT_MIN; lia).
  rewrite (wrap32_id (rank + 1)) by (unfold Int.in_range, Int.INT_MIN; lia).
  rewrite (int_quot_small rank) by lia.
  destruct (Z.eq_dec (rank + 1) (Z.of_nat size)) as [E|E].
  - rewrite E. unfold Int.div. rewrite Z.quot_same by lia. reflexivity.
  - rewrite (int_quot_small (rank + 1)) by lia. reflexivity.
Qed.

Lemma iteration_single :
  iteration hypotf (repeat [c] size)
  = Done (0, repeat [move_circle (reset_circle c)] size).
Proof.
  unfold iteration. rewrite repeat_length.
  rewrite (local_compute_single size 0) by lia. cbn [bind].
  rewrite !map_repeat. cbn [fst snd].
  rewrite reduce_sum_zeros, merge_single by assumption.
  rewrite map_repeat. now rewrite bcast_repeat.
Qed.

End Single.

Lemma settle_idem (c : circle_t) :
  move_circle (reset_circle (move_circle (reset_circle c)))
  = move_circle (reset_circle c).
Proof.
  unfold move_circle, reset_circle. cbn [x y r dx dy]. f_equal.
  - destruct (x c) as [[|]| | |]; reflexivity.
  - destruct (y c) as [[|]| | |]; reflexivity.
Qed.

Lemma run_single (hypotf : float -> float -> float) (c : circle_t)
      (size iterations : nat) :
  (1 <= size)%nat -> Z.of_nat size <= Int.INT_MAX ->
  run hypotf (S iterations) (initial_world size [c])
  = Done (repeat 0 (S iterations), repeat [move_circle (reset_circle c)] size).
Proof.
  intros H1 H2. unfold initial_world.
  revert c. induction iterations as [|k IH]; intros c.
  - cbn [run]. rewrite iteration_single by assumption. reflexivity.
  - change (run hypotf (S (S k)) (repeat [c] size))
      with (r1 <- iteration hypotf (repeat [c] size) ;;
            r2 <- run hypotf (S k) (snd r1) ;;
            Done (fst r1 :: fst r2, snd r2)).
    rewrite iteration_single by assumption. cbn [bind fst snd].
    rewrite IH. cbn [bind fst snd]. now rewrite settle_idem.
Qed.

(** C9. With a single circle the scan of the full range finds no
    overlap and accumulates nothing; every iteration, on any number of
    ranks, reports zero overlaps and leaves the circle where it is (a
    negative zero coordinate becomes the positive zero). *)
Theorem single_circle_still (hypotf : float -> float -> float) (c : circle_t)
        (size iterations : nat) :
  (1 <= size)%nat -> Z.of_nat size <= Int.INT_MAX ->
  compute_forces hypotf 0 1 (reset_displacements [c])
  = Done (0, reset_displacements [c])
  /\ exists c',
       run hypotf iterations (initial_world size [c])
       = Done (repeat 0 iterations, repeat [c'] size)
       /\ same_value (x c') (x c) /\ same_value (y c') (y c) /\ r c' = r c
       /\ (x c <> S754_zero true -> x c' = x c)
       /\ (y c <> S754_zero true -> y c' = y c).
Proof.
  intros H1 H2. split; [reflexivity|].
  destruct iterations as [|k].
  - exists c. split; [reflexivity|]. repeat split; auto; now left.
  - exists (move_circle (reset_circle c)). split; [now apply run_single|].
    cbn [move_circle reset_circle x y r dx dy].
    repeat split; auto using fadd_zero_same, fadd_zero_id.
Qed.

Lemma single_circle_still_witness :
  exists c',
    run hypotf_ref 100 (initial_world 4 [c_twin])
    = Done (repeat 0 100%nat, repeat [c'] 4)
    /\ x c' = x c_twin /\ y c' = y c_twin.
Proof.
  destruct (single_circle_still hypotf_ref c_twin 4 100) as [_ [c' [Hr [_ [_ [_ [Hx Hy]]]]]]].
  - lia.
  - vm_compute. discriminate.
  - exists c'. split; [exact Hr|]. split; [apply Hx|apply Hy]; discriminate.
Defined.

(** ** Two overlapping circles *)

(** Whatever [hypotf] returns elsewhere, on the two circles on the x
    axis it is the absolute value of the abscissa difference. *)
Lemma agree_two_circles (hypotf : float -> float -> float) :
  (forall a, hypotf a zero = fabs a) -> agree hypotf hypotf_ref two_circles.
Proof.
  intros Hz ci cj Hi Hj. unfold pair_dist.
  assert (Y : forall c, In (geom c) (map geom two_circles) -> y c = zero).
  { intros c [H|[H|[]]]; unfold geom in H; now injection H as _ <- _. }
  rewrite (Y ci Hi), (Y cj Hj).
  change (fsub zero zero) with zero. now rewrite Hz, hypotf_ref_zero.
Qed.

Lemma agree_world_two (hypotf : float -> float -> float) (size : nat) :
  (forall a, hypotf a zero = fabs a) ->
  forall cs, In cs (initial_world size two_circles) -> agree hypotf hypotf_ref cs.
Proof.
  intros Hz cs H. apply repeat_spec in H. subst cs. now apply agree_two_circles.
Qed.

(** C1 fails on the code: for the one overlapping pair of [two_circles]
    the total reported by an iteration is 2, on one rank and on two,
    because the inner loop of [compute_forces] visits the pair from
    both of its circles ([hypotf] being any function with
    [hypotf(x, 0) = |x|]). *)
Theorem pair_counted_twice (hypotf : float -> float -> float) :
  (forall a, hypotf a zero = fabs a) ->
  overlapping hypotf c_origin c_right = true
  /\ (exists cs', compute_forces hypotf 0 2 two_circles = Done (2, cs'))
  /\ (exists w', iteration hypotf (initial_world 1 two_circles) = Done (2, w'))
  /\ (exists w', iteration hypotf (initial_world 2 two_circles) = Done (2, w')).
Proof.
  intros Hz. split; [|split; [|split]].
  - unfold overlapping.
    rewrite (agree_two_circles hypotf Hz c_origin c_right)
      by (simpl; auto).
    reflexivity.
  - rewrite (compute_forces_ext hypotf hypotf_ref) by now apply agree_two_circles.
    eexists. vm_compute. reflexivity.
  - rewrite (iteration_ext hypotf hypotf_ref) by now apply agree_world_two.
    eexists. vm_compute. reflexivity.
  - rewrite (iteration_ext hypotf hypotf_ref) by now apply agree_world_two.
    eexists. vm_compute. reflexivity.
Qed.

Lemma pair_counted_twice_witness :
  exists w', iteration hypotf_ref (initial_world 2 two_circles) = Done (2, w').
Proof.
  apply (pair_counted_twice hypotf_ref hypotf_ref_zero).
Defined.

(** C8 fails on the code in its count: after one iteration on
    [two_circles] the reported total is 2, not 1.  The circles do part
    along the x axis, by 20 each: the one at the origin ends at -20, the
    other at 25, and no ordinate changes. *)
Theorem two_circles_one_iteration (hypotf : float -> float -> float) :
  (forall a, hypotf a zero = fabs a) ->
  iteration hypotf (initial_world 1 two_circles)
  = Done (2, [[ mkCircle (of_Z (-20)) (of_Z 0) (of_Z 10) (of_Z (-20)) zero;
                mkCircle (of_Z 25) (of_Z 0) (of_Z 10) (of_Z 20) zero ]]).
Proof.
  intros Hz.
  rewrite (iteration_ext hypotf hypotf_ref) by now apply agree_world_two.
  vm_compute. reflexivity.
Qed.

Lemma two_circles_one_iteration_witness :
  iteration hypotf_ref (initial_world 1 two_circles)
  = Done (2, [[ mkCircle (of_Z (-20)) (of_Z 0) (of_Z 10) (of_Z (-20)) zero;
                mkCircle (of_Z 25) (of_Z 0) (of_Z 10) (of_Z 20) zero ]]).
Proof.
  apply (two_circles_one_iteration hypotf_ref hypotf_ref_zero).
Defined.

(** ** The merge of the displacements *)

(** C2 fails on the code: on [two_circles] and two ranks each rank
    accumulates -10 for circle 0 and +10 for circle 1, so that the
    contributions sum to -20 and +20; the gathering keeps, for each
    circle, the value of the one rank whose block holds it: -10 and
    +10. *)
Theorem merge_keeps_one_rank (hypotf : float -> float -> float) :
  (forall a, hypotf a zero = fabs a) ->
  exists l0 l1,
    local_compute hypotf 2 0 (initial_world 2 two_circles)
    = Done [(1, l0); (1, l1)]
    /\ map dx l0 = [of_Z (-10); of_Z 10]
    /\ map dx l1 = [of_Z (-10); of_Z 10]
    /\ map (fun cs => map dx cs) (displacement_merge [l0; l1])
       = [[of_Z (-10); of_Z 10]; [of_Z (-10); of_Z 10]]
    /\ map (fun p => fadd (dx (fst p)) (dx (snd p))) (combine l0 l1)
       = [of_Z (-20); of_Z 20].
Proof.
  intros Hz.
  rewrite (local_compute_ext hypotf hypotf_ref) by now apply agree_world_two.
  do 2 eexists. split; [vm_compute; reflexivity|].
  repeat split; vm_compute; reflexivity.
Qed.

Lemma merge_keeps_one_rank_witness :
  exists l0 l1,
    local_compute hypotf_ref 2 0 (initial_world 2 two_circles)
    = Done [(1, l0); (1, l1)]
    /\ map (fun cs => map dx cs) (displacement_merge [l0; l1])
       = [[of_Z (-10); of_Z 10]; [of_Z (-10); of_Z 10]]
    /\ map (fun p => fadd (dx (fst p)) (dx (snd p))) (combine l0 l1)
       = [of_Z (-20); of_Z 20].
Proof.
  destruct (merge_keeps_one_rank hypotf_ref hypotf_ref_zero)
    as [l0 [l1 [H1 [_ [_ [H2 H3]]]]]].
  exists l0, l1. auto.
Defined.

(** ** A thousand circles on one rank and on four *)

Lemma float_beq_eq (a b : float) : float_beq a b = true -> a = b.
Proof.
  destruct a as [s|s| |s m e], b as [t|t| |t m' e']; simpl; try discriminate;
    try reflexivity.
  - intros H. apply Bool.eqb_prop in H. now subst.
  - intros H. apply Bool.eqb_prop in H. now subst.
  - intros H. apply andb_prop in H. destruct H as [H He].
    apply andb_prop in H. destruct H as [Hs Hm].
    apply Bool.eqb_prop in Hs. apply Pos.eqb_eq in Hm. apply Z.eqb_eq in He.
    now subst.
Qed.

Lemma geom_beq_eq (g h : float * float * float) : geom_beq g h = true -> g = h.
Proof.
  destruct g as [[gx gy] gr], h as [[hx hy] hr]. unfold geom_beq. simpl.
  intros H. apply andb_prop in H. destruct H as [H Hr].
  apply andb_prop in H. destruct H as [Hx Hy].
  apply float_beq_eq in Hx, Hy, Hr. now subst.
Qed.

Lemma In_indices (n : nat) (k : Z) : 0 <= k < Z.of_nat n -> In k (indices n).
Proof.
  intros H. unfold indices. apply in_map_iff. exists (Z.to_nat k).
  split; [lia|]. apply in_seq. lia.
Qed.

Lemma In_diffs (a : Z) : -31 <= a <= 31 -> In a diffs.
Proof.
  intros H. unfold diffs. apply in_map_iff. exists (Z.to_nat (a + 31)).
  split; [lia|]. apply in_seq. lia.
Qed.

(** Differences of grid coordinates are exact. *)
Lemma grid_diff_checked :
  forallb (fun p => forallb (fun q =>
    float_beq (fsub (X q) (X p)) (X (q - p))) (indices 32)) (indices 32) = true.
Proof. vm_compute. reflexivity. Qed.

(** Two distinct grid points are too far apart for radius 10. *)
Lemma grid_far_checked :
  forallb (fun a => forallb (fun b =>
    ((a =? 0) && (b =? 0))
    || negb (flt (hypotf_ref (X a) (X b))
                 (fsub (fadd (of_Z 10) (of_Z 10)) EPSILON))) diffs) diffs = true.
Proof. vm_compute. reflexivity. Qed.

Lemma grid_diff (p q : Z) :
  0 <= p < 32 -> 0 <= q < 32 -> fsub (X q) (X p) = X (q - p).
Proof.
  intros Hp Hq. pose proof grid_diff_checked as H.
  rewrite forallb_forall in H. specialize (H p (In_indices 32 p ltac:(lia))).
  rewrite forallb_forall in H. specialize (H q (In_indices 32 q ltac:(lia))).
  now apply float_beq_eq.
Qed.

Lemma grid_far (a b : Z) :
  -31 <= a <= 31 -> -31 <= b <= 31 -> a <> 0 \/ b <> 0 ->
  flt (hypotf_ref (X a) (X b)) (fsub (fadd (of_Z 10) (of_Z 10)) EPSILON) = false.
Proof.
  intros Ha Hb Hne. pose proof grid_far_checked as F.
  rewrite forallb_forall in F. specialize (F a (In_diffs a Ha)). cbv beta in F.
  rewrite forallb_forall in F. specialize (F b (In_diffs b Hb)). cbv beta in F.
  apply orb_prop in F. destruct F as [F|F].
  - apply andb_prop in F. destruct F as [Fa Fb].
    apply Z.eqb_eq in Fa, Fb. lia.
  - now apply negb_true_iff in F.
Qed.

(** Two circles of radius 10 on distinct grid points do not overlap. *)
Lemma grid_quiet (i j : Z) (ci cj : circle_t) :
  0 <= i < 1000 -> 0 <= j < 1000 -> i <> j ->
  geom ci = (X (i mod 32), X (i / 32), of_Z 10) ->
  geom cj = (X (j mod 32), X (j / 32), of_Z 10) ->
  overlapping hypotf_ref ci cj = false.
Proof.
  intros Hi Hj Hne Gi Gj. unfold geom in Gi, Gj.
  injection Gi as Xi Yi Ri. injection Gj as Xj Yj Rj.
  unfold overlapping, pair_dist, pair_Rsum. rewrite Xi, Yi, Ri, Xj, Yj, Rj.
  pose proof (Z.mod_pos_bound i 32 ltac:(lia)).
  pose proof (Z.mod_pos_bound j 32 ltac:(lia)).
  pose proof (Z.div_mod i 32 ltac:(lia)).
  pose proof (Z.div_mod j 32 ltac:(lia)).
  assert (0 <= i / 32 < 32) by (split; [apply Z.div_pos|apply Z.div_lt_upper_bound]; lia).
  assert (0 <= j / 32 < 32) by (split; [apply Z.div_pos|apply Z.div_lt_upper_bound]; lia).
  rewrite !grid_diff by assumption.
  apply grid_far; lia.
Qed.

Lemma special_spec (k : Z) : special k = true <-> k = 249 \/ k = 250.
Proof.
  unfold special. rewrite orb_true_iff, !Z.eqb_eq. tauto.
Qed.

Lemma quiet_pair_spec (active : Z -> Z -> bool) (cs : circles) (i j : Z)
      (ci cj : circle_t) :
  quiet_pair active cs i j = true -> get cs i = Done ci -> get cs j = Done cj ->
  i <> j -> active i j = false -> overlapping hypotf_ref ci cj = false.
Proof.
  unfold quiet_pair. intros H Gi Gj Hne Ha. rewrite Gi, Gj, Ha in H.
  destruct (Z.eqb_spec i j); [contradiction|]. simpl in H.
  now apply negb_true_iff in H.
Qed.

(** The two checks establish that only [active] pairs overlap. *)
Lemma quiet_of_checks (active : Z -> Z -> bool) (cs : circles) :
  length cs = 1000%nat -> on_grid cs = true -> quiet_special active cs = true ->
  forall i j ci cj, get cs i = Done ci -> get cs j = Done cj ->
    i <> j -> active i j = false -> overlapping hypotf_ref ci cj = false.
Proof.
  intros Hl Hg Hs i j ci cj Gi Gj Hne Ha.
  assert (Ri : 0 <= i < 1000).
  { apply get_done in Gi. destruct Gi as [H0 Gi].
    assert (Z.to_nat i < length cs)%nat by (apply nth_error_Some; congruence). lia. }
  assert (Rj : 0 <= j < 1000).
  { apply get_done in Gj. destruct Gj as [H0 Gj].
    assert (Z.to_nat j < length cs)%nat by (apply nth_error_Some; congruence). lia. }
  unfold quiet_special in Hs. rewrite forallb_forall in Hs.
  unfold on_grid in Hg. rewrite forallb_forall in Hg.
  pose proof (Hs j (In_indices 1000 j ltac:(lia))) as Sj.
  pose proof (Hs i (In_indices 1000 i ltac:(lia))) as Si.
  apply andb_prop in Sj. destruct Sj as [Sj Sj4].
  apply andb_prop in Sj. destruct Sj as [Sj Sj3].
  apply andb_prop in Sj. destruct Sj as [Sj1 Sj2].
  apply andb_prop in Si. destruct Si as [Si Si4].
  apply andb_prop in Si. destruct Si as [Si Si3].
  apply andb_prop in Si. destruct Si as [Si1 Si2].
  destruct (special i) eqn:Ei.
  { apply special_spec in Ei. destruct Ei; subst i.
    - exact (quiet_pair_spec active cs 249 j ci cj Sj1 Gi Gj Hne Ha).
    - exact (quiet_pair_spec active cs 250 j ci cj Sj3 Gi Gj Hne Ha). }
  destruct (special j) eqn:Ej.
  { apply special_spec in Ej. destruct Ej; subst j.
    - exact (quiet_pair_spec active cs i 249 ci cj Si2 Gi Gj Hne Ha).
    - exact (quiet_pair_spec active cs i 250 ci cj Si4 Gi Gj Hne Ha). }
  pose proof (Hg i (In_indices 1000 i ltac:(lia))) as Oi.
  pose proof (Hg j (In_indices 1000 j ltac:(lia))) as Oj.
  rewrite Ei, Gi in Oi. rewrite Ej, Gj in Oj. cbn [orb] in Oi, Oj.
  apply geom_beq_eq in Oi, Oj.
  now apply (grid_quiet i j).
Qed.

Lemma ncircles_thousand : ncircles thousand = 1000.
Proof. vm_compute. reflexivity. Qed.

(** The scene lies within the bounds of [init_circles]. *)
Lemma thousand_initial : forallb initial_circle thousand = true.
Proof. vm_compute. reflexivity. Qed.

Lemma quiet_thousand :
  forall i j ci cj, get thousand i = Done ci -> get thousand j = Done cj ->
    i <> j -> first_pairs i j = false -> overlapping hypotf_ref ci cj = false.
Proof.
  apply quiet_of_checks; vm_compute; reflexivity.
Qed.

Lemma quiet_settled_1 :
  forall i j ci cj, get settled_1 i = Done ci -> get settled_1 j = Done cj ->
    i <> j -> no_pairs i j = false -> overlapping hypotf_ref ci cj = false.
Proof.
  apply quiet_of_checks; vm_compute; reflexivity.
Qed.

Lemma quiet_settled_4 :
  forall i j ci cj, get settled_4 i = Done ci -> get settled_4 j = Done cj ->
    i <> j -> no_pairs i j = false -> overlapping hypotf_ref ci cj = false.
Proof.
  apply quiet_of_checks; vm_compute; reflexivity.
Qed.

Lemma compute_forces_rows (h : float -> float -> float) (s e : Z) (cs : circles) :
  compute_forces h s e cs = for_loop s (Z.to_nat (e - s)) (rows h cs) (0, cs).
Proof. reflexivity. Qed.

(** A scan of a scene without overlaps changes nothing. *)
Lemma scan_settled (cs : circles) (s e : Z) :
  (forall i j ci cj, get cs i = Done ci -> get cs j = Done cj ->
     i <> j -> no_pairs i j = false -> overlapping hypotf_ref ci cj = false) ->
  0 <= s <= e -> e <= ncircles cs ->
  compute_forces hypotf_ref s e cs = Done (0, cs).
Proof.
  intros Q Hs He. rewrite compute_forces_rows.
  apply scan_quiet with (active := no_pairs); try assumption;
    try reflexivity; lia.
Qed.

Lemma first_pairs_low (i j : Z) :
  i < 250 -> ~ (i = 249 /\ j = 250) -> first_pairs i j = false.
Proof.
  intros Hi Hn. unfold first_pairs.
  destruct (Z.eqb_spec i 249), (Z.eqb_spec j 250), (Z.eqb_spec i 250),
    (Z.eqb_spec j 249); simpl; try reflexivity; lia.
Qed.

Lemma first_pairs_mid (i j : Z) :
  250 <= i -> ~ (i = 250 /\ j = 249) -> first_pairs i j = false.
Proof.
  intros Hi Hn. unfold first_pairs.
  destruct (Z.eqb_spec i 249), (Z.eqb_spec j 250), (Z.eqb_spec i 250),
    (Z.eqb_spec j 249); simpl; try reflexivity; lia.
Qed.

Lemma first_pairs_high (i j : Z) : 251 <= i -> first_pairs i j = false.
Proof. intros Hi. apply first_pairs_mid; lia. Qed.

(** The scan of the first iteration, by the ranges of the ranks. *)
Lemma scan_first_low (n : Z) :
  for_loop 0 250 (rows hypotf_ref thousand) (n, thousand)
  = pair_step hypotf_ref 249 250 (n, thousand).
Proof.
  apply scan_one with (active := first_pairs).
  - exact quiet_thousand.
  - reflexivity.
  - lia.
  - rewrite ncircles_thousand. change (Z.of_nat 250) with 250. lia.
  - change (Z.of_nat 250) with 250. lia.
  - rewrite ncircles_thousand. lia.
  - change (Z.of_nat 250) with 250. intros i j Hi Hj Hne Hn.
    apply first_pairs_low; [lia|assumption].
Qed.

Lemma scan_first_from_250 (count : nat) (st : Z * circles) :
  same_geom thousand st -> (1 <= count <= 750)%nat ->
  for_loop 250 count (rows hypotf_ref thousand) st
  = pair_step hypotf_ref 250 249 st.
Proof.
  intros G Hc. apply scan_one with (active := first_pairs).
  - exact quiet_thousand.
  - exact G.
  - lia.
  - rewrite ncircles_thousand. lia.
  - lia.
  - rewrite ncircles_thousand. lia.
  - intros i j Hi Hj Hne Hn. apply first_pairs_mid; [lia|assumption].
Qed.

Lemma scan_first_high (lo : Z) (count : nat) :
  251 <= lo -> lo + Z.of_nat count <= 1000 ->
  for_loop lo count (rows hypotf_ref thousand) (0, thousand) = Done (0, thousand).
Proof.
  intros Hlo Hhi. apply scan_quiet with (active := first_pairs).
  - exact quiet_thousand.
  - reflexivity.
  - lia.
  - rewrite ncircles_thousand. lia.
  - intros i j Hi Hj Hne. apply first_pairs_high. lia.
Qed.

Lemma local_compute_cons (h : float -> float -> float) (size rank : Z)
      (cs : circles) (w : world) :
  local_compute h size rank (cs :: w)
  = (res <- compute_forces h
              (partition_start rank (ncircles (reset_displacements cs)) size)
              (partition_end rank (ncircles (reset_displacements cs)) size)
              (reset_displacements cs) ;;
     rest <- local_compute h size (rank + 1) w ;;
     Done (res :: rest)).
Proof. reflexivity. Qed.

Lemma reset_thousand : reset_displacements thousand = thousand.
Proof. vm_compute. reflexivity. Qed.

(** The bounds of the ranks for a thousand circles. *)
Lemma bounds_1 : partition_start 0 1000 1 = 0 /\ partition_end 0 1000 1 = 1000.
Proof. split; reflexivity. Qed.

Lemma bounds_4 :
  (partition_start 0 1000 4 = 0 /\ partition_end 0 1000 4 = 250)
  /\ (partition_start 1 1000 4 = 250 /\ partition_end 1 1000 4 = 500)
  /\ (partition_start 2 1000 4 = 500 /\ partition_end 2 1000 4 = 750)
  /\ (partition_start 3 1000 4 = 750 /\ partition_end 3 1000 4 = 1000).
Proof. repeat split; reflexivity. Qed.

Lemma local_first_1 :
  local_compute hypotf_ref 1 0 [thousand] = Done [(2, push_both)].
Proof.
  rewrite local_compute_cons, reset_thousand, ncircles_thousand.
  destruct bounds_1 as [-> ->].
  rewrite compute_forces_rows.
  change (Z.to_nat (1000 - 0)) with (250 + 750)%nat.
  rewrite for_loop_app, scan_first_low.
  replace (pair_step hypotf_ref 249 250 (0, thousand)) with (Done (1, push_249))
    by (vm_compute; reflexivity).
  cbn [bind]. change (0 + Z.of_nat 250) with 250.
  rewrite scan_first_from_250; [|vm_compute; reflexivity|lia].
  replace (pair_step hypotf_ref 250 249 (1, push_249)) with (Done (2, push_both))
    by (vm_compute; reflexivity).
  reflexivity.
Qed.

Lemma local_first_4 :
  local_compute hypotf_ref 4 0 [thousand; thousand; thousand; thousand]
  = Done [(1, push_249); (1, push_250); (0, thousand); (0, thousand)].
Proof.
  destruct bounds_4 as [[B0 E0] [[B1 E1] [[B2 E2] [B3 E3]]]].
  rewrite !local_compute_cons, reset_thousand, ncircles_thousand.
  change (0 + 1) with 1. change (1 + 1) with 2. change (2 + 1) with 3.
  rewrite B0, E0, B1, E1, B2, E2, B3, E3.
  rewrite !compute_forces_rows.
  change (Z.to_nat (250 - 0)) with 250%nat.
  change (Z.to_nat (500 - 250)) with 250%nat.
  change (Z.to_nat (750 - 500)) with 250%nat.
  change (Z.to_nat (1000 - 750)) with 250%nat.
  rewrite scan_first_low.
  rewrite scan_first_from_250; [|reflexivity|lia].
  rewrite !scan_first_high by (change (Z.of_nat 250) with 250; lia).
  replace (pair_step hypotf_ref 249 250 (0, thousand)) with (Done (1, push_249))
    by (vm_compute; reflexivity).
  replace (pair_step hypotf_ref 250 249 (0, thousand)) with (Done (1, push_250))
    by (vm_compute; reflexivity).
  reflexivity.
Qed.

Lemma iteration_first_1 :
  iteration hypotf_ref (initial_world 1 thousand) = Done (2, [after_first_1]).
Proof.
  unfold iteration, initial_world. cbn [repeat length].
  change (Z.of_nat 1) with 1. rewrite local_first_1. cbn [bind].
  vm_compute. reflexivity.
Qed.

Lemma iteration_first_4 :
  iteration hypotf_ref (initial_world 4 thousand)
  = Done (2, [after_first_4; after_first_4; after_first_4; after_first_4]).
Proof.
  unfold iteration, initial_world. cbn [repeat length].
  change (Z.of_nat 4) with 4. rewrite local_first_4. cbn [bind].
  vm_compute. reflexivity.
Qed.

(** Every later iteration finds the settled scene and leaves it. *)
Lemma iteration_later_1 (cs : circles) :
  reset_displacements cs = settled_1 ->
  iteration hypotf_ref [cs] = Done (0, [settled_1]).
Proof.
  intros R. unfold iteration. cbn [length]. change (Z.of_nat 1) with 1.
  rewrite local_compute_cons, R.
  replace (ncircles settled_1) with 1000 by (vm_compute; reflexivity).
  destruct bounds_1 as [-> ->].
  rewrite scan_settled;
    [|exact quiet_settled_1|lia|vm_compute; discriminate].
  cbn [local_compute bind]. vm_compute. reflexivity.
Qed.

Lemma iteration_later_4 (cs : circles) :
  reset_displacements cs = settled_4 ->
  iteration hypotf_ref [cs; cs; cs; cs]
  = Done (0, [settled_4; settled_4; settled_4; settled_4]).
Proof.
  intros R. unfold iteration. cbn [length]. change (Z.of_nat 4) with 4.
  destruct bounds_4 as [[B0 E0] [[B1 E1] [[B2 E2] [B3 E3]]]].
  rewrite !local_compute_cons, R.
  replace (ncircles settled_4) with 1000 by (vm_compute; reflexivity).
  change (0 + 1) with 1. change (1 + 1) with 2. change (2 + 1) with 3.
  rewrite B0, E0, B1, E1, B2, E2, B3, E3.
  rewrite !scan_settled by
    first [exact quiet_settled_4|lia|vm_compute; discriminate].
  cbn [local_compute bind]. vm_compute. reflexivity.
Qed.

Lemma run_fixed (h : float -> float -> float) (w : world) (k : nat) :
  iteration h w = Done (0, w) -> run h k w = Done (repeat 0 k, w).
Proof.
  intros H. induction k as [|k IH]; [reflexivity|].
  cbn [run]. rewrite H. cbn [bind fst snd]. rewrite IH. reflexivity.
Qed.

Lemma run_step (h : float -> float -> float) (w w' : world) (n : Z) (k : nat) :
  iteration h w = Done (n, w') ->
  run h (S k) w = (r2 <- run h k w' ;; Done (n :: fst r2, snd r2)).
Proof. intros H. cbn [run]. rewrite H. reflexivity. Qed.

(** C3 fails on the code: on the scene [thousand] the runs of 100
    iterations on one rank and on four report the same totals
    (2, then 0 ever after) but end with different positions.  On one
    rank circle 249 ends near x = 747.33, on four near x = 748.67:
    each rank keeps only the displacement it accumulated itself for
    the circles of its own block. *)
Theorem ranks_change_positions :
  run hypotf_ref 100 (initial_world 1 thousand)
  = Done (2 :: repeat 0 99, [settled_1])
  /\ run hypotf_ref 100 (initial_world 4 thousand)
     = Done (2 :: repeat 0 99, [settled_4; settled_4; settled_4; settled_4])
  /\ map x settled_1 <> map x settled_4
  /\ x (nth 249 settled_1 c_twin) = S754_finite false 12244309 (-14)
  /\ x (nth 249 settled_4 c_twin) = S754_finite false 12266155 (-14).
Proof.
  split; [|split; [|split; [|split]]].
  - rewrite (run_step _ _ _ _ 99 iteration_first_1).
    rewrite (run_step _ _ _ _ 98 (iteration_later_1 after_first_1 eq_refl)).
    rewrite (run_fixed _ _ 98 (iteration_later_1 settled_1 eq_refl)).
    reflexivity.
  - rewrite (run_step _ _ _ _ 99 iteration_first_4).
    rewrite (run_step _ _ _ _ 98 (iteration_later_4 after_first_4 eq_refl)).
    rewrite (run_fixed _ _ 98 (iteration_later_4 settled_4 eq_refl)).
    reflexivity.
  - vm_compute. discriminate.
  - vm_compute. reflexivity.
  - vm_compute. reflexivity.
Qed.


(** * Further properties of the kernel *)

(** ** The count returned by a scan *)

Lemma wrap32_add (a b : Z) : Int.wrap32 (Int.wrap32 a + b) = Int.wrap32 (a + b).
Proof.
  unfold Int.wrap32. f_equal.
  replace ((a + 2147483648) mod 4294967296 - 2147483648 + b + 2147483648)
    with ((a + 2147483648) mod 4294967296 + b) by lia.
  rewrite Zplus_mod_idemp_l. f_equal. lia.
Qed.

Lemma sum_from_ext (f g : Z -> Z) (count : nat) :
  forall lo, (forall i, lo <= i < lo + Z.of_nat count -> f i = g i) ->
  sum_from f lo count = sum_from g lo count.
Proof.
  induction count as [|count IH]; intros lo H; [reflexivity|].
  cbn [sum_from]. rewrite H by lia. f_equal. apply IH. intros i Hi. apply H. lia.
Qed.

Lemma sum_from_app (f : Z -> Z) (a b : nat) :
  forall lo, sum_from f lo (a + b)
             = sum_from f lo a + sum_from f (lo + Z.of_nat a) b.
Proof.
  induction a as [|a IH]; intros lo.
  - cbn [Nat.add sum_from]. now rewrite Z.add_0_r.
  - cbn [Nat.add sum_from]. rewrite IH.
    replace (lo + 1 + Z.of_nat a) with (lo + Z.of_nat (S a)) by lia. lia.
Qed.

Lemma sum_from_nonneg (f : Z -> Z) (count : nat) :
  forall lo, (forall i, 0 <= f i) -> 0 <= sum_from f lo count.
Proof.
  induction count as [|count IH]; intros lo H; cbn [sum_from]; [lia|].
  specialize (IH (lo + 1) H). specialize (H lo). lia.
Qed.

Section Counting.

Variable hypotf : float -> float -> float.
Hypothesis hypotf_valid :
  forall a b, valid a = true -> valid b = true -> valid (hypotf a b) = true.

Variable cs : circles.
Hypothesis cs_wf : wf cs.

(** One step adds the detection of its pair to the count. *)
Lemma pair_step_count (i j n : Z) (cs1 : circles) :
  map geom cs1 = map geom cs -> 0 <= i < ncircles cs -> 0 <= j < ncircles cs ->
  exists cs2,
    pair_step hypotf i j (Int.wrap32 n, cs1)
    = Done (Int.wrap32 (n + (if detects hypotf cs i j then 1 else 0)), cs2)
    /\ map geom cs2 = map geom cs.
Proof.
  intros G Ri Rj.
  destruct (get_same_geom cs cs1 i G Ri) as [ci1 [ci [E1 [E2 E3]]]].
  destruct (get_same_geom cs cs1 j G Rj) as [cj1 [cj [F1 [F2 F3]]]].
  unfold detects. rewrite E2, F2. rewrite pair_step_unfold.
  destruct (Z.eqb_spec i j) as [|Hne]; cbn [negb andb].
  - exists cs1. rewrite Z.add_0_r. auto.
  - rewrite F1, E1. cbn [bind].
    rewrite (overlapping_geom hypotf ci1 cj1 ci cj E3 F3).
    destruct (overlapping hypotf ci cj) eqn:Ov.
    + rewrite (assert_passes hypotf hypotf_valid ci1 cj1).
      * pose proof (ncircles_geom _ _ G) as N. rewrite <- N in Ri, Rj.
        rewrite (proj2 (apply_overlap_done i j _ _ cs1 _)
                   (conj (conj Ri Rj) eq_refl)).
        cbn [bind]. eexists. split.
        -- unfold Int.add. now rewrite wrap32_add.
        -- rewrite !map_update_inv; auto.
      * eapply wf_get; [|exact E1]. eapply wf_geom; eauto.
      * eapply wf_get; [|exact F1]. eapply wf_geom; eauto.
      * now rewrite (overlapping_geom hypotf ci1 cj1 ci cj E3 F3).
    + exists cs1. rewrite Z.add_0_r. auto.
Qed.

Lemma row_counts (i : Z) (count : nat) :
  0 <= i < ncircles cs ->
  forall lo n (cs1 : circles),
    map geom cs1 = map geom cs -> 0 <= lo -> lo + Z.of_nat count <= ncircles cs ->
    exists cs2,
      for_loop lo count (fun j st => pair_step hypotf i j st) (Int.wrap32 n, cs1)
      = Done (Int.wrap32
                (n + sum_from (fun j => if detects hypotf cs i j then 1 else 0)
                       lo count), cs2)
      /\ map geom cs2 = map geom cs.
Proof.
  intros Ri. induction count as [|count IH]; intros lo n cs1 G Hlo Hhi.
  - exists cs1. cbn [for_loop sum_from]. rewrite Z.add_0_r. auto.
  - cbn [for_loop sum_from].
    destruct (pair_step_count i lo n cs1 G Ri ltac:(lia)) as [cs2 [E G2]].
    destruct (IH (lo + 1) (n + (if detects hypotf cs i lo then 1 else 0)) cs2 G2
                ltac:(lia) ltac:(lia)) as [cs3 [E3 G3]].
    exists cs3. rewrite E. cbn [bind]. rewrite E3.
    split; [|assumption]. do 3 f_equal. lia.
Qed.

Lemma scan_counts (count : nat) :
  forall lo n (cs1 : circles),
    map geom cs1 = map geom cs -> 0 <= lo -> lo + Z.of_nat count <= ncircles cs ->
    exists cs2,
      for_loop lo count (rows hypotf cs) (Int.wrap32 n, cs1)
      = Done (Int.wrap32 (n + sum_from (row_count hypotf cs) lo count), cs2)
      /\ map geom cs2 = map geom cs.
Proof.
  induction count as [|count IH]; intros lo n cs1 G Hlo Hhi.
  - exists cs1. cbn [for_loop sum_from]. rewrite Z.add_0_r. auto.
  - cbn [for_loop sum_from]. unfold rows at 1.
    destruct (row_counts lo (length cs) ltac:(lia) 0 n cs1 G ltac:(lia)
                ltac:(unfold ncircles; lia)) as [cs2 [E G2]].
    fold (row_count hypotf cs lo) in E.
    destruct (IH (lo + 1) (n + row_count hypotf cs lo) cs2 G2
                ltac:(lia) ltac:(lia)) as [cs3 [E3 G3]].
    exists cs3. rewrite E. cbn [bind]. rewrite E3.
    split; [|assumption]. do 3 f_equal. lia.
Qed.

Lemma compute_forces_counts (start end_ : Z) :
  0 <= start -> end_ <= ncircles cs ->
  exists cs',
    compute_forces hypotf start end_ cs
    = Done (Int.wrap32 (detected hypotf cs start end_), cs')
    /\ map geom cs' = map geom cs.
Proof.
  intros Hs He. rewrite compute_forces_rows. unfold detected.
  destruct (Z_le_gt_dec end_ start) as [Hle|Hgt].
  - replace (Z.to_nat (end_ - start)) with 0%nat by lia. exists cs. auto.
  - destruct (scan_counts (Z.to_nat (end_ - start)) start 0 cs eq_refl Hs
                ltac:(lia)) as [cs' [E G]].
    change (Int.wrap32 0) with 0 in E. exists cs'. auto.
Qed.

End Counting.

(** ** The total of an iteration *)

Lemma wrap32_add_both (a b : Z) :
  Int.add (Int.wrap32 a) (Int.wrap32 b) = Int.wrap32 (a + b).
Proof.
  unfold Int.add. rewrite wrap32_add, Z.add_comm, wrap32_add. f_equal. lia.
Qed.

Lemma get_geom (cs cs' : circles) (i : Z) :
  map geom cs' = map geom cs ->
  match get cs' i, get cs i with
  | Done c', Done c => geom c' = geom c
  | Fault, Fault => True
  | _, _ => False
  end.
Proof.
  intros G. unfold get. destruct (i <? 0); [exact I|].
  pose proof (f_equal (fun l => nth_error l (Z.to_nat i)) G) as H. cbv beta in H.
  rewrite !nth_error_map in H.
  destruct (nth_error cs' (Z.to_nat i)), (nth_error cs (Z.to_nat i));
    cbn [option_map] in H; try discriminate; [congruence|exact I].
Qed.

Lemma detects_geom (h : float -> float -> float) (cs cs' : circles) (i j : Z) :
  map geom cs' = map geom cs -> detects h cs' i j = detects h cs i j.
Proof.
  intros G. unfold detects.
  pose proof (get_geom cs cs' i G) as Hi. pose proof (get_geom cs cs' j G) as Hj.
  destruct (get cs' i) as [ci'| |], (get cs i) as [ci| |]; try contradiction;
    try reflexivity.
  destruct (get cs' j) as [cj'| |], (get cs j) as [cj| |]; try contradiction;
    try reflexivity.
  now rewrite (overlapping_geom h ci' cj' ci cj Hi Hj).
Qed.

Lemma detected_geom (h : float -> float -> float) (cs cs' : circles) (s e : Z) :
  map geom cs' = map geom cs -> detected h cs' s e = detected h cs s e.
Proof.
  intros G. unfold detected. apply sum_from_ext. intros i _. unfold row_count.
  replace (length cs') with (length cs)
    by (rewrite <- (length_map geom cs'), G; symmetry; apply length_map).
  apply sum_from_ext. intros j _. now rewrite (detects_geom h cs cs' i j G).
Qed.

Lemma detected_split (h : float -> float -> float) (cs : circles) (a b c : Z) :
  a <= b <= c -> detected h cs a c = detected h cs a b + detected h cs b c.
Proof.
  intros H. unfold detected.
  replace (Z.to_nat (c - a)) with (Z.to_nat (b - a) + Z.to_nat (c - b))%nat by lia.
  rewrite sum_from_app. do 2 f_equal. lia.
Qed.

Lemma ncircles_nonneg (l : circles) : 0 <= ncircles l.
Proof. unfold ncircles. lia. Qed.

Section Totals.

Variable hypotf : float -> float -> float.
Hypothesis hypotf_valid :
  forall a b, valid a = true -> valid b = true -> valid (hypotf a b) = true.

Variable cs : circles.
Hypothesis cs_wf : wf cs.

Variable size : nat.
Hypothesis size_pos : (1 <= size)%nat.
Hypothesis no_overflow : Z.of_nat size * ncircles cs <= Int.INT_MAX.

(** The ranks from [rank] on scan their ranges, and their counts add up
    to the detections between the first and the last boundary. *)
Lemma local_compute_counts (k : nat) :
  forall rank, 0 <= rank -> rank + Z.of_nat k <= Z.of_nat size ->
  exists res,
    local_compute hypotf (Z.of_nat size) rank (repeat cs k) = Done res
    /\ length res = k
    /\ Forall (fun p => map geom (snd p) = map geom cs) res
    /\ forall acc,
         fold_left Int.add (map fst res) (Int.wrap32 acc)
         = Int.wrap32 (acc + detected hypotf cs
                               (cut (ncircles cs) (Z.of_nat size) rank)
                               (cut (ncircles cs) (Z.of_nat size)
                                    (rank + Z.of_nat k))).
Proof.
  pose proof (ncircles_nonneg cs) as Hn.
  induction k as [|k IH]; intros rank Hr Hk.
  - exists []. repeat split; [constructor|]. intros acc. cbn [map fold_left].
    rewrite Z.add_0_r. unfold detected. rewrite Z.sub_diag. cbn [Z.to_nat sum_from].
    now rewrite Z.add_0_r.
  - change (repeat cs (S k)) with (cs :: repeat cs k). rewrite local_compute_cons.
    rewrite (ncircles_geom _ _ (reset_geom cs)).
    rewrite partition_start_exact, partition_end_exact by lia.
    fold (cut (ncircles cs) (Z.of_nat size) rank).
    fold (cut (ncircles cs) (Z.of_nat size) (rank + 1)).
    set (c0 := cut (ncircles cs) (Z.of_nat size) rank).
    set (c1 := cut (ncircles cs) (Z.of_nat size) (rank + 1)).
    assert (B0 : 0 <= c0) by (apply cut_nonneg; lia).
    assert (B1 : c0 <= c1) by (apply cut_mono; lia).
    assert (B2 : c1 <= ncircles cs).
    { rewrite <- (cut_w (ncircles cs) (Z.of_nat size)) by lia.
      apply cut_mono; lia. }
    destruct (compute_forces_counts hypotf hypotf_valid (reset_displacements cs)
                (wf_geom _ _ (reset_geom cs) cs_wf) c0 c1 B0)
      as [cs0 [E0 G0]].
    { now rewrite (ncircles_geom _ _ (reset_geom cs)). }
    rewrite (detected_geom _ _ _ _ _ (reset_geom cs)) in E0.
    rewrite reset_geom in G0.
    destruct (IH (rank + 1) ltac:(lia) ltac:(lia)) as [rest [E1 [L1 [F1 S1]]]].
    exists ((Int.wrap32 (detected hypotf cs c0 c1), cs0) :: rest).
    rewrite E0. cbn [bind]. rewrite E1. cbn [bind].
    split; [reflexivity|]. split; [cbn [length]; lia|].
    split; [constructor; assumption|].
    intros acc. cbn [map fold_left fst]. rewrite wrap32_add_both, S1.
    f_equal. fold c1.
    replace (rank + Z.of_nat (S k)) with (rank + 1 + Z.of_nat k) by lia.
    rewrite (detected_split hypotf cs c0 c1
               (cut (ncircles cs) (Z.of_nat size) (rank + 1 + Z.of_nat k))).
    + lia.
    + split; [assumption|]. apply cut_mono; lia.
Qed.

Lemma iteration_total :
  exists w',
    iteration hypotf (initial_world size cs)
    = Done (Int.wrap32 (detected hypotf cs 0 (ncircles cs)), w').
Proof.
  unfold iteration, initial_world. rewrite repeat_length.
  destruct (local_compute_counts size 0 ltac:(lia) ltac:(lia))
    as [res [E [L [F S]]]].
  rewrite E. cbn [bind]. eexists. f_equal. f_equal.
  unfold reduce_sum. change 0 with (Int.wrap32 0) at 1. rewrite S.
  change (cut (ncircles cs) (Z.of_nat size) 0) with 0.
  rewrite Z.add_0_l, cut_w by lia. reflexivity.
Qed.

End Totals.

(** ** The gathering of the blocks *)

Lemma block_map {B : Type} (f : circle_t -> B) (c rank : nat) (cs : circles) :
  map f (block c rank cs) = firstn c (skipn (rank * c) (map f cs)).
Proof. unfold block. now rewrite skipn_map, firstn_map. Qed.

(** Arrays that agree on a field are gathered into an array that agrees
    with them on it, whatever the block size. *)
Lemma gather_uniform {B : Type} (f : circle_t -> B) (L : list B) (c : nat)
      (w : world) :
  Forall (fun cs => map f cs = L) w ->
  forall rank,
    map f (gather_blocks c rank w) ++ skipn ((rank + length w) * c) L
    = skipn (rank * c) L.
Proof.
  induction 1 as [|cs w Hcs Hw IH]; intros rank.
  - cbn [gather_blocks map length app]. now rewrite Nat.add_0_r.
  - cbn [gather_blocks length]. rewrite map_app, block_map, Hcs, <- app_assoc.
    specialize (IH (S rank)). cbn [Nat.add] in IH.
    rewrite Nat.add_succ_r, IH.
    replace (S rank * c)%nat with (c + rank * c)%nat by lia.
    rewrite <- skipn_skipn. apply firstn_skipn.
Qed.

Lemma merge_uniform {B : Type} (f : circle_t -> B) (L : list B) (w : world) :
  Forall (fun cs => map f cs = L) w ->
  Forall (fun cs => map f cs = L) (displacement_merge w).
Proof.
  intros H. unfold displacement_merge, allgather_in_place.
  set (c := Z.to_nat _). apply Forall_forall. intros cs' Hin.
  apply in_map_iff in Hin. destruct Hin as [own [<- Hown]].
  rewrite map_app, <- skipn_map.
  rewrite Forall_forall in H. rewrite (H own Hown).
  rewrite <- Forall_forall in H.
  pose proof (gather_uniform f L c w H 0%nat) as G.
  cbn [Nat.add Nat.mul skipn] in G. exact G.
Qed.

Lemma length_merge (w : world) : length (displacement_merge w) = length w.
Proof. unfold displacement_merge, allgather_in_place. apply length_map. Qed.

Lemma length_gather_blocks (c : nat) (w : world) :
  forall rank,
    Forall (fun cs => ((rank + length w) * c <= length cs)%nat) w ->
    length (gather_blocks c rank w) = (length w * c)%nat.
Proof.
  induction w as [|cs w IH]; intros rank H; [reflexivity|].
  cbn [gather_blocks length] in *. inversion H as [|? ? Hcs Hw]; subst.
  rewrite length_app, IH.
  - unfold block. rewrite length_firstn, length_skipn. nia.
  - eapply Forall_impl; [|exact Hw]. cbv beta. intros a Ha. nia.
Qed.

(** Circle [k] of the gathered prefix is circle [rank * c + k] of the
    array whose block holds it. *)
Lemma gather_blocks_nth (c : nat) (w : world) :
  forall rank k,
    Forall (fun cs => ((rank + length w) * c <= length cs)%nat) w ->
    (k < length w * c)%nat ->
    nth_error (gather_blocks c rank w) k
    = nth_error (nth (k / c) w []) (rank * c + k).
Proof.
  induction w as [|cs w IH]; intros rank k H Hk; [cbn [length] in Hk; lia|].
  cbn [gather_blocks length] in *. inversion H as [|? ? Hcs Hw]; subst.
  assert (Hc : (0 < c)%nat) by nia.
  assert (Lb : length (block c rank cs) = c).
  { unfold block. rewrite length_firstn, length_skipn. nia. }
  destruct (Nat.lt_ge_cases k c) as [Hlt|Hge].
  - rewrite nth_error_app1 by lia. rewrite Nat.div_small by assumption.
    cbn [nth]. unfold block. rewrite nth_error_firstn.
    destruct (Nat.ltb_spec k c); [|lia]. apply nth_error_skipn.
  - rewrite nth_error_app2 by lia. rewrite Lb.
    rewrite IH.
    + assert (E : (k / c = S ((k - c) / c))%nat).
      { rewrite <- Nat.add_1_r, <- Nat.div_add by lia. f_equal. lia. }
      rewrite E. cbn [nth]. f_equal. lia.
    + eapply Forall_impl; [|exact Hw]. cbv beta. intros a Ha. nia.
    + nia.
Qed.

Lemma block_size (n size : nat) :
  (1 <= size)%nat -> Z.of_nat n <= Int.INT_MAX ->
  Z.to_nat (Int.div (Z.of_nat n) (Z.of_nat size)) = (n / size)%nat.
Proof.
  intros Hs Hn. unfold Int.div.
  rewrite Z.quot_div_nonneg by lia.
  assert (0 <= Z.of_nat n / Z.of_nat size <= Z.of_nat n).
  { split; [apply Z.div_pos; lia|]. apply Z.div_le_upper_bound; nia. }
  rewrite wrap32_id by (unfold Int.in_range, Int.INT_MIN, Int.INT_MAX in *; lia).
  rewrite <- Nat2Z.inj_div. apply Nat2Z.id.
Qed.

Lemma nth_map_world (F : circles -> circles) (w : world) (rank : nat) :
  (rank < length w)%nat -> nth rank (map F w) [] = F (nth rank w []).
Proof.
  intros H. rewrite (nth_indep (map F w) [] (F [])) by (now rewrite length_map).
  apply map_nth.
Qed.

Lemma merge_by_block_aux (locals : world) (n rank k : nat) :
  Forall (fun cs => length cs = n) locals ->
  Z.of_nat n <= Int.INT_MAX ->
  (rank < length locals)%nat ->
  nth_error (nth rank (displacement_merge locals) []) k
  = if (k <? length locals * (n / length locals))%nat
    then nth_error (nth (k / (n / length locals)) locals []) k
    else nth_error (nth rank locals []) k.
Proof.
  intros Hn Hmax Hr. unfold displacement_merge.
  assert (Hh : ncircles (hd [] locals) = Z.of_nat n).
  { destruct locals as [|cs0 locals]; [cbn [length] in Hr; lia|].
    inversion Hn; subst. reflexivity. }
  rewrite Hh, block_size by (assumption || lia).
  set (size := length locals) in *. set (c := (n / size)%nat).
  assert (Hc : (size * c <= n)%nat).
  { unfold c. pose proof (Nat.div_mod_eq n size). nia. }
  unfold allgather_in_place. rewrite nth_map_world by assumption. fold size.
  assert (Hall : Forall (fun cs : circles => ((0 + size) * c <= length cs)%nat) locals).
  { eapply Forall_impl; [|exact Hn]. cbv beta. intros a ->. lia. }
  pose proof (length_gather_blocks c locals 0 Hall) as LG. fold size in LG.
  destruct (Nat.ltb_spec k (size * c)) as [Hlt|Hge].
  - rewrite nth_error_app1 by lia.
    rewrite (gather_blocks_nth c locals 0 k Hall) by (fold size; lia).
    reflexivity.
  - rewrite nth_error_app2 by lia. rewrite LG, nth_error_skipn. f_equal. lia.
Qed.

(** ** Invariants of the run *)

Lemma local_compute_geom (h : float -> float -> float) (size : Z) (cs : circles)
      (k : nat) :
  forall rank res,
    local_compute h size rank (repeat cs k) = Done res ->
    length res = k /\ Forall (fun p => map geom (snd p) = map geom cs) res.
Proof.
  induction k as [|k IH]; intros rank res H.
  - cbn in H. injection H as <-. split; [reflexivity|constructor].
  - change (repeat cs (S k)) with (cs :: repeat cs k) in H.
    rewrite local_compute_cons in H.
    destruct (compute_forces h _ _ _) as [[t cs1]| |] eqn:E; cbn [bind] in H;
      try discriminate.
    destruct (local_compute h size (rank + 1) (repeat cs k)) as [rest| |] eqn:E1;
      cbn [bind] in H; try discriminate.
    injection H as <-. destruct (IH _ _ E1) as [L F].
    split; [cbn [length]; lia|]. constructor; [|assumption].
    cbn [snd]. rewrite (compute_forces_geom h _ _ _ _ _ E). apply reset_geom.
Qed.

Lemma bcast_const (w : world) : bcast w = repeat (hd [] w) (length w).
Proof.
  destruct w as [|root w]; [reflexivity|]. unfold bcast. cbn [hd].
  generalize (root :: w). intros l. induction l as [|a l IH]; [reflexivity|].
  cbn [map length repeat]. now rewrite IH.
Qed.

Lemma map_r_geom (cs cs' : circles) :
  map geom cs' = map geom cs -> map r cs' = map r cs.
Proof.
  intros H. apply (f_equal (map snd)) in H. now rewrite !map_map in H.
Qed.

Lemma iteration_shape (h : float -> float -> float) (cs : circles) (size : nat)
      (t : Z) (w' : world) :
  iteration h (repeat cs size) = Done (t, w') ->
  exists cs', w' = repeat cs' size /\ map r cs' = map r cs.
Proof.
  unfold iteration. rewrite repeat_length.
  destruct (local_compute h (Z.of_nat size) 0 (repeat cs size)) as [res| |] eqn:E;
    cbn [bind]; try discriminate.
  intros [= _ <-]. destruct (local_compute_geom _ _ _ _ _ _ E) as [L F].
  rewrite bcast_const, length_map, length_merge, length_map, L.
  destruct size as [|size]; [exists cs; split; reflexivity|].
  eexists. split; [reflexivity|].
  assert (G : Forall (fun a => map geom a = map geom cs)
                (displacement_merge (map snd res))).
  { apply merge_uniform. apply Forall_forall. intros a Ha.
    apply in_map_iff in Ha. destruct Ha as [p [<- Hp]].
    rewrite Forall_forall in F. now apply F. }
  pose proof (length_merge (map snd res)) as LM. rewrite length_map, L in LM.
  destruct (displacement_merge (map snd res)) as [|m ms]; [discriminate|].
  cbn [map hd]. inversion G as [|? ? Gm _]; subst.
  rewrite <- (map_r_geom _ _ Gm). unfold move_circles. rewrite map_map.
  apply map_ext. reflexivity.
Qed.

Lemma run_shape_aux (h : float -> float -> float) (size k : nat) :
  forall cs ts w',
    run h k (repeat cs size) = Done (ts, w') ->
    length ts = k /\ exists cs', w' = repeat cs' size /\ map r cs' = map r cs.
Proof.
  induction k as [|k IH]; intros cs ts w' H.
  - cbn [run] in H. injection H as <- <-. split; [reflexivity|].
    exists cs. split; reflexivity.
  - cbn [run] in H.
    destruct (iteration h (repeat cs size)) as [[t w1]| |] eqn:E; cbn [bind] in H;
      try discriminate.
    destruct (iteration_shape _ _ _ _ _ E) as [cs1 [-> R1]]. cbn [snd fst] in H.
    destruct (run h k (repeat cs1 size)) as [[ts2 w2]| |] eqn:E2; cbn [bind] in H;
      try discriminate.
    injection H as <- <-. destruct (IH _ _ _ E2) as [L [cs' [-> R']]].
    cbn [fst snd length]. split; [lia|]. exists cs'. split; [reflexivity|congruence].
Qed.

(** ** A single rank *)

Lemma wrap32_range (z : Z) : Int.in_range (Int.wrap32 z).
Proof.
  unfold Int.in_range, Int.wrap32, Int.INT_MIN, Int.INT_MAX.
  pose proof (Z.mod_pos_bound (z + 2147483648) 4294967296 ltac:(lia)). lia.
Qed.

Lemma pair_step_range (h : float -> float -> float) (i j : Z)
      (st st' : Z * circles) :
  Int.in_range (fst st) -> pair_step h i j st = Done st' -> Int.in_range (fst st').
Proof.
  destruct st as [n cs], st' as [n' cs']. cbn [fst]. intros R.
  rewrite pair_step_unfold. destruct (i =? j); [now intros [= <- _]|].
  destruct (get cs j) as [cj| |]; cbn [bind]; try discriminate.
  destruct (get cs i) as [ci| |]; cbn [bind]; try discriminate.
  destruct (overlapping h ci cj); [|now intros [= <- _]].
  destruct (flt zero _); [|discriminate].
  destruct (apply_overlap _ _ _ _ _) as [cs1| |]; cbn [bind]; try discriminate.
  intros [= <- _]. apply wrap32_range.
Qed.

Lemma compute_forces_range (h : float -> float -> float) (s e t : Z)
      (cs cs' : circles) :
  compute_forces h s e cs = Done (t, cs') -> Int.in_range t.
Proof.
  unfold compute_forces. intros H.
  apply (for_loop_preserves (fun st => Int.in_range (fst st))) in H; [exact H| |].
  - intros i st st' Hst Hi.
    apply (for_loop_preserves (fun st => Int.in_range (fst st))) in Hi;
      [exact Hi| |exact Hst].
    intros j s1 s2. apply pair_step_range.
  - cbn [fst]. unfold Int.in_range, Int.INT_MIN, Int.INT_MAX. lia.
Qed.

Lemma merge_one (cs : circles) :
  ncircles cs <= Int.INT_MAX -> displacement_merge [cs] = [cs].
Proof.
  intros H. unfold displacement_merge. cbn [length hd]. unfold ncircles in *.
  rewrite (block_size (length cs) 1) by (assumption || lia).
  rewrite Nat.div_1_r. unfold allgather_in_place. cbn [map gather_blocks length].
  unfold block. cbn [Nat.mul skipn]. rewrite Nat.add_0_r.
  rewrite firstn_all, skipn_all, !app_nil_r. reflexivity.
Qed.

Lemma one_rank_aux (h : float -> float -> float) (cs : circles) :
  ncircles cs <= Int.INT_MAX ->
  iteration h [cs]
  = (res <- compute_forces h 0 (ncircles cs) (reset_displacements cs) ;;
     Done (fst res, [move_circles (snd res)])).
Proof.
  intros H. unfold iteration. cbn [length]. rewrite local_compute_cons.
  rewrite (ncircles_geom _ _ (reset_geom cs)).
  pose proof (ncircles_nonneg cs) as Hn.
  rewrite partition_start_exact, partition_end_exact by lia.
  change (Z.of_nat 1) with 1. change (0 + 1) with 1.
  rewrite Z.mul_0_l, Z.mul_1_l, !Z.div_1_r.
  destruct (compute_forces h 0 (ncircles cs) (reset_displacements cs))
    as [[t cs1]| |] eqn:E; cbn [bind local_compute map fst snd]; try reflexivity.
  unfold reduce_sum. cbn [fold_left]. unfold Int.add. rewrite Z.add_0_l.
  rewrite wrap32_id by (eapply compute_forces_range; eauto).
  rewrite merge_one.
  - reflexivity.
  - rewrite (ncircles_geom _ _ (compute_forces_geom h _ _ _ _ _ E)).
    now rewrite (ncircles_geom _ _ (reset_geom cs)).
Qed.

(** ** A scene without overlaps *)

Lemma sum_from_zero (f : Z -> Z) (count : nat) :
  forall lo, (forall i, 0 <= f i) -> sum_from f lo count = 0 ->
  forall i, lo <= i < lo + Z.of_nat count -> f i = 0.
Proof.
  induction count as [|count IH]; intros lo Hf H i Hi; [lia|].
  cbn [sum_from] in H.
  pose proof (sum_from_nonneg f count (lo + 1) Hf) as P. pose proof (Hf lo) as Q.
  destruct (Z.eq_dec i lo) as [->|Hne]; [lia|].
  apply (IH (lo + 1)); [assumption|lia|lia].
Qed.

Lemma row_count_nonneg (h : float -> float -> float) (cs : circles) (i : Z) :
  0 <= row_count h cs i.
Proof.
  unfold row_count. apply sum_from_nonneg. intros j.
  destruct (detects h cs i j); lia.
Qed.

Lemma detected_zero (h : float -> float -> float) (cs : circles) :
  detected h cs 0 (ncircles cs) = 0 ->
  forall i j, detects h cs i j = false.
Proof.
  intros H i j. destruct (detects h cs i j) eqn:D; [|reflexivity]. exfalso.
  assert (Ri : 0 <= i < ncircles cs /\ 0 <= j < ncircles cs).
  { unfold detects in D.
    destruct (get cs i) as [ci| |] eqn:Ei; try discriminate.
    destruct (get cs j) as [cj| |] eqn:Ej; try discriminate.
    apply get_done in Ei, Ej. destruct Ei as [Hi Ei], Ej as [Hj Ej].
    assert (nth_error cs (Z.to_nat i) <> None) by congruence.
    assert (nth_error cs (Z.to_nat j) <> None) by congruence.
    rewrite nth_error_Some in *. unfold ncircles. lia. }
  unfold detected in H.
  pose proof (sum_from_zero _ _ 0 (row_count_nonneg h cs) H i ltac:(lia)) as R.
  unfold row_count in R.
  assert (N : forall j0, 0 <= (if detects h cs i j0 then 1 else 0))
    by (intros j0; destruct (detects h cs i j0); lia).
  pose proof (sum_from_zero _ _ 0 N R j ltac:(unfold ncircles in Ri; lia)) as Z.
  cbv beta in Z. rewrite D in Z. lia.
Qed.

Lemma Forall_eq_repeat {A : Type} (L : A) (w : list A) :
  Forall (fun a => a = L) w -> w = repeat L (length w).
Proof.
  induction 1 as [|a w -> _ IH]; [reflexivity|]. cbn [length repeat]. now f_equal.
Qed.

Lemma merge_same (cs : circles) (size : nat) :
  displacement_merge (repeat cs size) = repeat cs size.
Proof.
  assert (H : Forall (fun a => map (fun c : circle_t => c) a = cs) (repeat cs size)).
  { apply Forall_forall. intros a Ha. apply repeat_spec in Ha. subst.
    apply map_id. }
  apply (merge_uniform (fun c => c)) in H.
  rewrite <- (repeat_length cs size) at 2. rewrite <- (length_merge (repeat cs size)).
  apply Forall_eq_repeat. eapply Forall_impl; [|exact H].
  cbv beta. intros a Ha. now rewrite map_id in Ha.
Qed.

Lemma move_reset (cs : circles) :
  no_negative_zero cs = true ->
  move_circles (reset_displacements cs) = reset_displacements cs.
Proof.
  unfold no_negative_zero, move_circles, reset_displacements. intros H.
  rewrite forallb_forall in H. rewrite map_map. apply map_ext_in.
  intros c Hc. specialize (H c Hc). apply andb_prop in H. destruct H as [Hx Hy].
  unfold move_circle, reset_circle. cbn [x y r dx dy].
  rewrite !fadd_zero_id; [reflexivity| |].
  - intros E. rewrite E in Hy. discriminate.
  - intros E. rewrite E in Hx. discriminate.
Qed.

Section Quiet.

Variable hypotf : float -> float -> float.
Variable cs : circles.
Hypothesis no_pair : detected hypotf cs 0 (ncircles cs) = 0.

Lemma scan_nothing (cs0 : circles) (s e : Z) :
  map geom cs0 = map geom cs -> 0 <= s <= e -> e <= ncircles cs ->
  compute_forces hypotf s e cs0 = Done (0, cs0).
Proof.
  intros G Hs He. rewrite compute_forces_rows.
  apply (scan_quiet hypotf cs0 (fun _ _ => false)).
  - intros i j ci cj Ei Ej Hne _.
    pose proof (detected_zero hypotf cs no_pair i j) as D.
    rewrite <- (detects_geom hypotf cs cs0 i j G) in D.
    unfold detects in D. rewrite Ei, Ej in D.
    destruct (Z.eqb_spec i j); [contradiction|]. exact D.
  - reflexivity.
  - lia.
  - rewrite (ncircles_geom _ _ G). lia.
  - reflexivity.
Qed.

Variable size : nat.
Hypothesis size_pos : (1 <= size)%nat.
Hypothesis no_overflow : Z.of_nat size * ncircles cs <= Int.INT_MAX.

Lemma local_compute_nothing (k : nat) :
  forall rank, 0 <= rank -> rank + Z.of_nat k <= Z.of_nat size ->
  local_compute hypotf (Z.of_nat size) rank (repeat cs k)
  = Done (repeat (0, reset_displacements cs) k).
Proof.
  pose proof (ncircles_nonneg cs) as Hn.
  induction k as [|k IH]; intros rank Hr Hk; [reflexivity|].
  change (repeat cs (S k)) with (cs :: repeat cs k). rewrite local_compute_cons.
  rewrite (ncircles_geom _ _ (reset_geom cs)).
  rewrite partition_start_exact, partition_end_exact by lia.
  fold (cut (ncircles cs) (Z.of_nat size) rank).
  fold (cut (ncircles cs) (Z.of_nat size) (rank + 1)).
  rewrite scan_nothing.
  - cbn [bind]. rewrite IH by lia. reflexivity.
  - apply reset_geom.
  - split; [apply cut_nonneg; lia|apply cut_mono; lia].
  - rewrite <- (cut_w (ncircles cs) (Z.of_nat size)) at 2 by lia.
    apply cut_mono; lia.
Qed.

Lemma iteration_nothing :
  iteration hypotf (repeat cs size)
  = Done (0, repeat (move_circles (reset_displacements cs)) size).
Proof.
  unfold iteration. rewrite repeat_length.
  rewrite (local_compute_nothing size 0) by lia. cbn [bind].
  rewrite !map_repeat. cbn [fst snd].
  rewrite reduce_sum_zeros, merge_same, map_repeat. now rewrite bcast_repeat.
Qed.

End Quiet.

Lemma no_negative_zero_reset (cs : circles) :
  no_negative_zero (reset_displacements cs) = no_negative_zero cs.
Proof.
  unfold no_negative_zero, reset_displacements.
  induction cs as [|c cs IH]; [reflexivity|]. cbn [map forallb]. now rewrite IH.
Qed.

Lemma reset_reset (cs : circles) :
  reset_displacements (reset_displacements cs) = reset_displacements cs.
Proof.
  unfold reset_displacements. rewrite map_map. apply map_ext. reflexivity.
Qed.

Lemma run_nothing_aux (h : float -> float -> float) (cs : circles)
      (size iterations : nat) :
  (1 <= size)%nat -> Z.of_nat size * ncircles cs <= Int.INT_MAX ->
  detected h cs 0 (ncircles cs) = 0 -> no_negative_zero cs = true ->
  run h (S iterations) (initial_world size cs)
  = Done (repeat 0 (S iterations), initial_world size (reset_displacements cs)).
Proof.
  intros Hs Ho Hd Hz. unfold initial_world.
  pose proof (ncircles_geom _ _ (reset_geom cs)) as N.
  rewrite (run_step h _ _ 0 iterations
             (iteration_nothing h cs Hd size Hs Ho)).
  rewrite move_reset by assumption.
  rewrite (run_fixed h (repeat (reset_displacements cs) size) iterations).
  - reflexivity.
  - rewrite iteration_nothing.
    + now rewrite reset_reset, move_reset.
    + now rewrite N, (detected_geom _ _ _ _ _ (reset_geom cs)).
    + assumption.
    + now rewrite N.
Qed.

(** ** What the scan leaves alone *)

Lemma for_loop_preserves_range {S : Type} (P : S -> Prop)
      (body : Z -> S -> outcome S) (count : nat) :
  forall lo s s',
    (forall i s s', lo <= i < lo + Z.of_nat count -> P s ->
                    body i s = Done s' -> P s') ->
    P s -> for_loop lo count body s = Done s' -> P s'.
Proof.
  induction count as [|count IH]; intros lo s s' Hb Hs H; cbn [for_loop] in H.
  - now injection H as <-.
  - destruct (body lo s) as [s1| |] eqn:E; cbn [bind] in H; try discriminate.
    apply (IH (lo + 1) s1 s'); [|apply (Hb lo s s1); [lia|assumption..]|exact H].
    intros i s2 s3 Hi. apply Hb. lia.
Qed.

Lemma pair_step_untouched (h : float -> float -> float) (cs : circles)
      (i j k : Z) (st st' : Z * circles) :
  0 <= k ->
  (detects h cs i j = true -> k <> i /\ k <> j) ->
  map geom (snd st) = map geom cs ->
  pair_step h i j st = Done st' ->
  nth_error (snd st') (Z.to_nat k) = nth_error (snd st) (Z.to_nat k).
Proof.
  destruct st as [n cs1], st' as [n' cs']. cbn [snd]. intros Hk Hd G.
  rewrite pair_step_unfold.
  destruct (Z.eqb_spec i j) as [|Hne]; [now intros [= _ <-]|].
  destruct (get cs1 j) as [cj| |] eqn:Ej; cbn [bind]; try discriminate.
  destruct (get cs1 i) as [ci| |] eqn:Ei; cbn [bind]; try discriminate.
  destruct (overlapping h ci cj) eqn:Ov; [|now intros [= _ <-]].
  destruct (flt zero _); [|discriminate].
  destruct (apply_overlap _ _ _ _ _) as [cs2| |] eqn:E; cbn [bind];
    try discriminate.
  intros [= _ <-]. apply apply_overlap_done in E. destruct E as [[Ri Rj] ->].
  assert (D : detects h cs i j = true).
  { rewrite <- (detects_geom h cs cs1 i j G). unfold detects. rewrite Ei, Ej, Ov.
    destruct (Z.eqb_spec i j); [contradiction|reflexivity]. }
  destruct (Hd D) as [Hi Hj].
  rewrite !nth_error_update_neq by lia. reflexivity.
Qed.

Lemma compute_forces_untouched_aux (h : float -> float -> float) (cs cs' : circles)
      (s e t k : Z) :
  compute_forces h s e cs = Done (t, cs') ->
  (forall i j, s <= i < e -> detects h cs i j = true -> k <> i /\ k <> j) ->
  get cs' k = get cs k.
Proof.
  intros H Hd. unfold get. destruct (Z.ltb_spec k 0) as [|Hk]; [reflexivity|].
  set (P := fun st : Z * circles =>
              map geom (snd st) = map geom cs
              /\ nth_error (snd st) (Z.to_nat k) = nth_error cs (Z.to_nat k)).
  assert (Q : P (t, cs')).
  { unfold compute_forces in H.
    apply (for_loop_preserves_range P _ _ _ _ _) with (3 := H);
      [|split; reflexivity].
    intros i st st' Hi Hst Hrow.
    apply (for_loop_preserves P) with (3 := Hrow); [|exact Hst].
    intros j s1 s2 [G1 N1] Hj. split.
    - eapply pair_step_inv; eauto.
    - rewrite <- N1. apply (pair_step_untouched h cs i j k s1 s2); try assumption.
      apply Hd. lia. }
  destruct Q as [_ Q]. cbn [snd] in Q. now rewrite Q.
Qed.

(** ** Rounding with a remainder

    Products and quotients are rounded by [binary_round_aux] from a
    mantissa that is not shifted left first, and the quotient comes
    with the location of the remainder. *)

Section RoundingMore.

Variables prec emax : Z.
Hypothesis Hprec : 0 < prec.
Hypothesis Hemax : prec < emax.

Lemma Zdigits2_bounds (m : Z) :
  0 <= m -> m < 2 ^ Zdigits2 m /\ (0 < m -> 2 ^ (Zdigits2 m - 1) <= m)
            /\ 0 <= Zdigits2 m.
Proof.
  intros H. destruct m as [|p|p]; [cbn; lia| |lia].
  cbn [Zdigits2]. fold (dig p). pose proof (dig_bounds p). pose proof (dig_pos p).
  lia.
Qed.

Lemma binary_round_aux_general (s : bool) (m e : Z) (l : location) :
  0 <= m -> e <= fexp prec emax (Zdigits2 m + e) ->
  let e1 := fexp prec emax (Zdigits2 m + e) in
  let m1 := m / 2 ^ (e1 - e) in
  exists m2,
    m1 <= m2 <= m1 + 1
    /\ (l = loc_Exact -> m mod 2 ^ (e1 - e) = 0 -> m2 = m1)
    /\ 0 <= m1 < 2 ^ prec
    /\ (emin prec emax < e1 -> 2 ^ (prec - 1) <= m1)
    /\ binary_round_aux prec emax s m e l = pack prec emax s m2 e1.
Proof.
  intros Hm Ha e1 m1. fold e1 in Ha.
  rewrite binary_round_aux_conclude.
  pose proof (shr_fexp_spec prec emax m e l Hm) as [Hs [Hi Hx]].
  fold e1 in Hs, Hi, Hx.
  replace (Z.max 0 (e1 - e)) with (e1 - e) in Hs, Hi, Hx by lia.
  fold m1 in Hs. rewrite Hs, Hx. replace (e + (e1 - e)) with e1 by lia.
  set (l' := loc_of_shr_record (fst (shr_fexp prec emax m e l))).
  pose proof (round_nearest_even_bounds m1 l') as [Hb Hex].
  pose proof (Zdigits2_bounds m Hm) as [Hd [Hd1 Hd0]].
  pose proof (pow2_pos (e1 - e) ltac:(lia)) as Psh.
  assert (H0 : 0 <= m1) by (apply Z.div_pos; lia).
  assert (H1 : m1 < 2 ^ prec).
  { apply Z.div_lt_upper_bound; [assumption|].
    rewrite <- Z.pow_add_r by lia.
    assert (2 ^ Zdigits2 m <= 2 ^ (e1 - e + prec)).
    { apply Z.pow_le_mono_r; [lia|]. unfold e1, SpecFloat.fexp. lia. }
    lia. }
  assert (H2 : emin prec emax < e1 -> 2 ^ (prec - 1) <= m1).
  { intros He.
    assert (E : e1 - e = Zdigits2 m - prec) by (unfold e1, SpecFloat.fexp in *; lia).
    assert (Hmp : 0 < m).
    { destruct (Z.eq_dec m 0) as [->|]; [|lia]. cbn [Zdigits2] in E. lia. }
    specialize (Hd1 Hmp).
    apply Z.div_le_lower_bound; [assumption|].
    rewrite <- Z.pow_add_r by lia.
    replace (e1 - e + (prec - 1)) with (Zdigits2 m - 1) by lia. lia. }
  exists (round_nearest_even m1 l'). repeat split; try lia; try assumption.
  - intros Hl Hz. apply Hex. apply loc_exact_iff. apply Hi. split; assumption.
  - apply conclude_pack; [assumption|lia|]. apply fexp_ge_emin.
Qed.

Lemma binary_round_aux_valid (s : bool) (m e : Z) (l : location) :
  0 <= m -> e <= fexp prec emax (Zdigits2 m + e) ->
  valid_binary prec emax (binary_round_aux prec emax s m e l) = true.
Proof.
  intros Hm Ha.
  destruct (binary_round_aux_general s m e l Hm Ha) as [m2 [Hb [_ [H1 [H2 ->]]]]].
  apply pack_valid; [assumption|lia|apply fexp_ge_emin|].
  intros He. specialize (H2 He). lia.
Qed.

Lemma emin_nonpos : emin prec emax <= 0.
Proof. unfold SpecFloat.emin. lia. Qed.

Lemma dig_mul (a b : positive) : dig a + dig b - 1 <= dig (a * b).
Proof.
  pose proof (dig_bounds a) as [La _]. pose proof (dig_bounds b) as [Lb _].
  pose proof (dig_pos a). pose proof (dig_pos b).
  apply dig_ge. replace (dig a + dig b - 1 - 1) with ((dig a - 1) + (dig b - 1)) by lia.
  rewrite Z.pow_add_r by lia. rewrite Pos2Z.inj_mul.
  pose proof (pow2_pos (dig a - 1) ltac:(lia)).
  pose proof (pow2_pos (dig b - 1) ltac:(lia)). nia.
Qed.

Lemma mul_aligned (mx my : positive) (ex ey : Z) :
  bounded prec emax mx ex = true -> bounded prec emax my ey = true ->
  ex + ey <= fexp prec emax (Zdigits2 (Zpos (mx * my)) + (ex + ey)).
Proof.
  intros Bx By.
  pose proof (bounded_facts prec emax mx ex Bx) as [Ex [Dx Nx]].
  pose proof (bounded_facts prec emax my ey By) as [Ey [Dy Ny]].
  pose proof (dig_mul mx my). pose proof (dig_pos mx). pose proof (dig_pos my).
  pose proof emin_nonpos.
  cbn [Zdigits2]. fold (dig (mx * my)). unfold SpecFloat.fexp.
  destruct (Z.eq_dec ex (emin prec emax)) as [E1|E1];
    destruct (Z.eq_dec ey (emin prec emax)) as [E2|E2].
  - lia.
  - specialize (Ny ltac:(lia)). lia.
  - specialize (Nx ltac:(lia)). lia.
  - specialize (Nx ltac:(lia)). lia.
Qed.

Lemma valid_mul (a b : spec_float) :
  valid_binary prec emax a = true -> valid_binary prec emax b = true ->
  valid_binary prec emax (SFmul prec emax a b) = true.
Proof.
  intros Va Vb.
  destruct a as [sa|sa| |sa ma ea], b as [sb|sb| |sb mb eb]; cbn [SFmul];
    try reflexivity.
  apply binary_round_aux_valid; [lia|]. now apply mul_aligned.
Qed.

(** The quotient and remainder that [SFdiv_core_binary] forms. *)
Lemma div_core_spec (mx my : positive) (ex ey : Z) :
  let D := dig mx + ex - (dig my + ey) in
  let e' := Z.min (fexp prec emax D) (ex - ey) in
  let sh := ex - ey - e' in
  let q := Zpos mx * 2 ^ sh / Zpos my in
  let rem := Zpos mx * 2 ^ sh mod Zpos my in
  SFdiv_core_binary prec emax (Zpos mx) ex (Zpos my) ey
  = (q, e', new_location (Zpos my) rem)
  /\ 0 <= sh /\ 0 <= q /\ 0 <= rem < Zpos my
  /\ (new_location (Zpos my) rem = loc_Exact <-> rem = 0)
  /\ e' <= fexp prec emax (Zdigits2 q + e').
Proof.
  intros D e' sh q rem.
  assert (Hsh : 0 <= sh) by (unfold sh, e'; lia).
  pose proof (pow2_pos sh Hsh) as Psh.
  assert (Hq : 0 <= q) by (apply Z.div_pos; lia).
  pose proof (Z.mod_pos_bound (Zpos mx * 2 ^ sh) (Zpos my) ltac:(lia)) as Hrem.
  fold rem in Hrem.
  split; [|split; [assumption|split; [assumption|split; [assumption|split]]]].
  - unfold SFdiv_core_binary. cbn [Zdigits2]. fold (dig mx) (dig my).
    fold D. change IntDef.Z.min with Z.min. fold e'. fold sh.
    assert (Em : match sh with
                 | 0 => Zpos mx
                 | Zpos _ => IntDef.Z.shiftl (Zpos mx) sh
                 | Zneg _ => 0
                 end = Zpos mx * 2 ^ sh).
    { destruct sh as [|p|p] eqn:Es; [cbn; lia| |lia].
      change IntDef.Z.shiftl with Z.shiftl. apply Z.shiftl_mul_pow2. lia. }
    rewrite Em. change IntDef.Z.div_eucl with Z.div_eucl.
    unfold q, rem, Z.div, Z.modulo.
    destruct (Z.div_eucl (Zpos mx * 2 ^ sh) (Zpos my)) as [q0 r0]. reflexivity.
  - unfold new_location, new_location_even, new_location_odd.
    destruct (Z.even (Zpos my)); destruct (Z.eqb_spec rem 0); split; auto;
      try discriminate; contradiction.
  - pose proof (Zdigits2_bounds q Hq) as [Uq [Lq Nq]].
    pose proof (dig_bounds mx) as [Lx Ux]. pose proof (dig_bounds my) as [Ly Uy].
    pose proof (dig_pos mx). pose proof (dig_pos my).
    destruct (Z_le_gt_dec (D - e') 0) as [Hsmall|Hbig].
    + (* the exponent is already at or below the least one *)
      assert (e' <= emin prec emax) by (unfold e', SpecFloat.fexp in *; lia).
      pose proof (fexp_ge_emin prec emax (Zdigits2 q + e')). lia.
    + (* the quotient has at least [D - e'] digits *)
      assert (Hd : D - e' <= Zdigits2 q).
      { assert (Hle : 2 ^ (D - e' - 1) <= q).
        { unfold q. apply Z.div_le_lower_bound; [lia|].
          assert (E : D - e' - 1 + dig my = (dig mx - 1) + sh) by (unfold D, sh; lia).
          assert (Zpos my * 2 ^ (D - e' - 1) <= 2 ^ dig my * 2 ^ (D - e' - 1)).
          { apply Z.mul_le_mono_nonneg_r; [|lia].
            pose proof (pow2_pos (D - e' - 1) ltac:(lia)). lia. }
          rewrite <- Z.pow_add_r in H1 by lia.
          replace (dig my + (D - e' - 1)) with ((dig mx - 1) + sh) in H1 by lia.
          rewrite Z.pow_add_r in H1 by lia. nia. }
        destruct (Z_lt_le_dec (Zdigits2 q) (D - e')) as [Hc|]; [|assumption].
        exfalso.
        assert (2 ^ Zdigits2 q <= 2 ^ (D - e' - 1))
          by (apply Z.pow_le_mono_r; lia).
        lia. }
      assert (fexp prec emax D <= fexp prec emax (Zdigits2 q + e'))
        by (unfold SpecFloat.fexp; lia).
      assert (e' <= fexp prec emax D) by (unfold e'; lia).
      lia.
Qed.

Lemma valid_div (a b : spec_float) :
  valid_binary prec emax a = true -> valid_binary prec emax b = true ->
  valid_binary prec emax (SFdiv prec emax a b) = true.
Proof.
  intros Va Vb.
  destruct a as [sa|sa| |sa ma ea], b as [sb|sb| |sb mb eb]; cbn [SFdiv];
    try reflexivity.
  destruct (div_core_spec ma mb ea eb) as [-> [_ [Hq [_ [_ Ha]]]]].
  now apply binary_round_aux_valid.
Qed.

End RoundingMore.

Lemma valid_fmul (a b : float) :
  valid a = true -> valid b = true -> valid (fmul a b) = true.
Proof. intros. apply valid_mul; auto using prec_pos, prec_lt_emax. Qed.

Lemma valid_fdiv (a b : float) :
  valid a = true -> valid b = true -> valid (fdiv a b) = true.
Proof. intros. apply valid_div; auto using prec_pos, prec_lt_emax. Qed.

(** ** The run never aborts *)

Lemma Forall_update (P : circle_t -> Prop) (cs : circles) (n : nat)
      (f : circle_t -> circle_t) :
  (forall c, P c -> P (f c)) -> Forall P cs -> Forall P (update cs n f).
Proof.
  intros Hf H. revert n. induction H as [|c cs Hc Hcs IH]; intros [|n];
    cbn [update]; constructor; auto.
Qed.

Lemma Forall_block (P : circle_t -> Prop) (c rank : nat) (cs : circles) :
  Forall P cs -> Forall P (block c rank cs).
Proof.
  intros H. rewrite Forall_forall in *. intros a Ha. apply H. unfold block in Ha.
  rewrite <- (firstn_skipn (rank * c) cs). apply in_or_app. right.
  rewrite <- (firstn_skipn c (skipn (rank * c) cs)). apply in_or_app. now left.
Qed.

Lemma Forall_gather (P : circle_t -> Prop) (c : nat) (w : world) :
  Forall (Forall P) w -> forall rank, Forall P (gather_blocks c rank w).
Proof.
  induction 1 as [|cs w Hcs Hw IH]; intros rank; cbn [gather_blocks];
    [constructor|].
  apply Forall_app. split; [now apply Forall_block|apply IH].
Qed.

Lemma Forall_merge (P : circle_t -> Prop) (w : world) :
  Forall (Forall P) w -> Forall (Forall P) (displacement_merge w).
Proof.
  intros H. unfold displacement_merge, allgather_in_place.
  set (c := Z.to_nat _). apply Forall_forall. intros a Ha.
  apply in_map_iff in Ha. destruct Ha as [own [<- Hown]].
  apply Forall_app. split; [now apply Forall_gather|].
  rewrite Forall_forall in H. specialize (H own Hown).
  rewrite Forall_forall in *. intros b Hb. apply H.
  rewrite <- (firstn_skipn (length w * c) own). apply in_or_app. now right.
Qed.

Lemma valid_K : valid K = true.
Proof. reflexivity. Qed.

Lemma valid_sqrtf_two : valid (sqrtf two) = true.
Proof. reflexivity. Qed.

Lemma overlap_xy_valid (dist overlap deltax deltay : float) :
  valid dist = true -> valid overlap = true ->
  valid deltax = true -> valid deltay = true ->
  valid (fst (overlap_xy dist overlap deltax deltay)) = true
  /\ valid (snd (overlap_xy dist overlap deltax deltay)) = true.
Proof.
  intros Vd Vo Vx Vy. unfold overlap_xy. destruct (flt dist EPSILON); cbn [fst snd].
  - split; apply valid_fdiv; auto using valid_sqrtf_two.
  - split; apply valid_fmul; auto using valid_fdiv.
Qed.

Lemma reset_valid (cs : circles) :
  wf cs -> Forall valid_circle (reset_displacements cs).
Proof.
  intros H. unfold reset_displacements. apply Forall_map.
  eapply Forall_impl; [|exact H]. intros c [Vx [Vy Vr]].
  repeat split; assumption.
Qed.

Lemma move_valid (cs : circles) :
  Forall valid_circle cs -> wf (move_circles cs).
Proof.
  intros H. unfold move_circles, wf. apply Forall_map.
  eapply Forall_impl; [|exact H]. intros c [[Vx [Vy Vr]] [Vdx Vdy]].
  repeat split; cbn [move_circle x y r]; auto using valid_fadd.
Qed.

Lemma valid_circle_wf (cs : circles) : Forall valid_circle cs -> wf cs.
Proof. intros H. eapply Forall_impl; [|exact H]. now intros c [W _]. Qed.

Section Safety.

Variable hypotf : float -> float -> float.
Hypothesis hypotf_valid :
  forall a b, valid a = true -> valid b = true -> valid (hypotf a b) = true.

Lemma pair_step_valid (i j : Z) (st st' : Z * circles) :
  Forall valid_circle (snd st) -> pair_step hypotf i j st = Done st' ->
  Forall valid_circle (snd st').
Proof.
  destruct st as [n cs], st' as [n' cs']. cbn [snd]. intros V.
  rewrite pair_step_unfold. destruct (i =? j); [now intros [= _ <-]|].
  destruct (get cs j) as [cj| |] eqn:Ej; cbn [bind]; try discriminate.
  destruct (get cs i) as [ci| |] eqn:Ei; cbn [bind]; try discriminate.
  destruct (overlapping hypotf ci cj); [|now intros [= _ <-]].
  destruct (flt zero _); [|discriminate].
  destruct (apply_overlap _ _ _ _ _) as [cs1| |] eqn:E; cbn [bind];
    try discriminate.
  intros [= _ <-]. apply apply_overlap_done in E. destruct E as [_ ->].
  pose proof (wf_get cs i ci (valid_circle_wf cs V) Ei) as [Vxi [Vyi Vri]].
  pose proof (wf_get cs j cj (valid_circle_wf cs V) Ej) as [Vxj [Vyj Vrj]].
  assert (Vd : valid (pair_dist hypotf ci cj) = true).
  { unfold pair_dist. apply hypotf_valid; apply valid_fsub; assumption. }
  assert (Vo : valid (pair_overlap hypotf ci cj) = true).
  { unfold pair_overlap, pair_Rsum. auto using valid_fsub, valid_fadd. }
  destruct (overlap_xy_valid (pair_dist hypotf ci cj) (pair_overlap hypotf ci cj)
              (fsub (x cj) (x ci)) (fsub (y cj) (y ci)))
    as [Vox Voy]; auto using valid_fsub.
  fold (pair_overlap_xy hypotf ci cj) in Vox, Voy.
  repeat apply Forall_update; try assumption;
    intros c [[Vx [Vy Vr]] [Vdx Vdy]]; repeat split; cbn [set_dx set_dy x y r dx dy];
    auto using valid_fsub, valid_fadd, valid_fdiv, valid_K.
Qed.

Lemma compute_forces_valid (s e t : Z) (cs cs' : circles) :
  Forall valid_circle cs -> compute_forces hypotf s e cs = Done (t, cs') ->
  Forall valid_circle cs'.
Proof.
  intros V H. unfold compute_forces in H.
  apply (for_loop_preserves (fun st => Forall valid_circle (snd st))) in H;
    [exact H| |exact V].
  intros i st st' Hst Hi.
  apply (for_loop_preserves (fun st => Forall valid_circle (snd st))) in Hi;
    [exact Hi| |exact Hst].
  intros j s1 s2. apply pair_step_valid.
Qed.

Lemma local_compute_valid (size : Z) (w : world) :
  forall rank res,
    Forall wf w -> local_compute hypotf size rank w = Done res ->
    Forall (Forall valid_circle) (map snd res).
Proof.
  induction w as [|cs w IH]; intros rank res W H.
  - cbn in H. injection H as <-. constructor.
  - rewrite local_compute_cons in H. inversion W as [|? ? Wcs Ww]; subst.
    destruct (compute_forces hypotf _ _ _) as [[t cs1]| |] eqn:E; cbn [bind] in H;
      try discriminate.
    destruct (local_compute hypotf size (rank + 1) w) as [rest| |] eqn:E1;
      cbn [bind] in H; try discriminate.
    injection H as <-. cbn [map snd]. constructor; [|eapply IH; eauto].
    eapply compute_forces_valid; [|exact E]. now apply reset_valid.
Qed.

Variable size : nat.
Hypothesis size_pos : (1 <= size)%nat.

Lemma iteration_completes (cs : circles) :
  wf cs -> Z.of_nat size * ncircles cs <= Int.INT_MAX ->
  exists t cs',
    iteration hypotf (repeat cs size) = Done (t, repeat cs' size)
    /\ wf cs' /\ ncircles cs' = ncircles cs.
Proof.
  intros W Ho.
  destruct (iteration_total hypotf hypotf_valid cs W size size_pos Ho) as [w' E].
  unfold initial_world in E.
  destruct (iteration_shape hypotf cs size _ w' E) as [cs' [-> R]].
  exists (Int.wrap32 (detected hypotf cs 0 (ncircles cs))), cs'.
  split; [exact E|]. split.
  - unfold iteration in E. rewrite repeat_length in E.
    destruct (local_compute hypotf (Z.of_nat size) 0 (repeat cs size))
      as [res| |] eqn:El; cbn [bind] in E; try discriminate.
    injection E as _ E.
    assert (Ww : Forall wf (repeat cs size)).
    { apply Forall_forall. intros a Ha. apply repeat_spec in Ha. now subst. }
    pose proof (local_compute_valid _ _ _ _ Ww El) as V.
    apply Forall_merge in V.
    assert (Vm : Forall wf (map move_circles (displacement_merge (map snd res)))).
    { apply Forall_map. eapply Forall_impl; [|exact V]. intros a. apply move_valid. }
    rewrite bcast_const in E.
    destruct size as [|k]; [lia|].
    destruct (map move_circles (displacement_merge (map snd res))) as [|m ms];
      [discriminate|].
    cbn [hd length repeat] in E. injection E as -> _.
    now inversion Vm.
  - unfold ncircles. f_equal. rewrite <- (length_map r cs'), R. apply length_map.
Qed.

Lemma run_completes_aux (iterations : nat) :
  forall cs,
    wf cs -> Z.of_nat size * ncircles cs <= Int.INT_MAX ->
    exists ts cs',
      run hypotf iterations (repeat cs size) = Done (ts, repeat cs' size)
      /\ wf cs'.
Proof.
  induction iterations as [|k IH]; intros cs W Ho.
  - exists [], cs. split; [reflexivity|assumption].
  - destruct (iteration_completes cs W Ho) as [t [cs1 [E [W1 N1]]]].
    destruct (IH cs1 W1 ltac:(now rewrite N1)) as [ts [cs' [E' W']]].
    exists (t :: ts), cs'. split; [|assumption].
    cbn [run]. rewrite E. cbn [bind fst snd]. rewrite E'. reflexivity.
Qed.

End Safety.

(** ** Upper bounds of rounded products and quotients *)

Section RoundingBounds.

Variables prec emax : Z.
Hypothesis Hprec : 0 < prec.
Hypothesis Hemax : prec < emax.

(** A value that does not exceed a float of the format is not rounded
    beyond it.  The value is [m * 2 ^ e], or lies above it by less
    than [2 ^ e] when the location is inexact; [t] is an exponent low
    enough to compare on integers. *)
Lemma round_aux_upper (m e : Z) (l : location) (mR : positive) (eR t : Z) :
  0 <= m -> e <= fexp prec emax (Zdigits2 m + e) ->
  bounded prec emax mR eR = true ->
  t <= e -> t <= emin prec emax ->
  m * 2 ^ (e - t) <= Zpos mR * 2 ^ (eR - t) ->
  (l <> loc_Exact -> m * 2 ^ (e - t) < Zpos mR * 2 ^ (eR - t)) ->
  plain prec emax (binary_round_aux prec emax false m e l)
  /\ key prec emax (binary_round_aux prec emax false m e l)
     <= Zpos mR * 2 ^ (eR - emin prec emax).
Proof.
  intros Hm Ha BR Ht Hte Hle Hlt.
  pose proof (binary_round_aux_valid prec emax Hprec false m e l Hm Ha) as V.
  destruct (binary_round_aux_general prec emax Hprec false m e l Hm Ha)
    as [m2 [Hb [Hex [H1 [H2 E]]]]].
  rewrite E in *. clear E.
  set (e1 := fexp prec emax (Zdigits2 m + e)) in *.
  pose proof (fexp_ge_emin prec emax (Zdigits2 m + e)) as Ge. fold e1 in Ge.
  set (k := e1 - e) in *. set (g := e1 - emin prec emax).
  set (m1 := m / 2 ^ k) in *.
  pose proof (bounded_facts prec emax mR eR BR) as [HeR [HdR _]].
  pose proof (finite_key_bounds prec emax Hprec mR eR BR) as KR.
  pose proof (dig_bounds mR) as [_ HuR].
  pose proof (pow2_pos k ltac:(unfold k; lia)) as Pk.
  pose proof (pow2_pos g ltac:(unfold g; lia)) as Pg.
  pose proof (pow2_pos (e - t) ltac:(lia)) as Pet.
  pose proof (Z.div_mod m (2 ^ k) ltac:(lia)) as Dm. fold m1 in Dm.
  pose proof (Z.mod_pos_bound m (2 ^ k) Pk) as Bm.
  assert (Hkey : m2 = 0 \/ (1 <= m2 /\ m2 * 2 ^ g <= Zpos mR * 2 ^ (eR - emin prec emax))).
  { destruct (Z.eq_dec m2 0) as [|Hm2]; [now left|right]. split; [lia|].
    destruct (Z_le_gt_dec e1 eR) as [Hrep|Hsmall].
    - set (Q := Zpos mR * 2 ^ (eR - e1)).
      assert (EQ : Zpos mR * 2 ^ (eR - emin prec emax) = Q * 2 ^ g).
      { unfold Q, g. rewrite <- Z.mul_assoc, <- Z.pow_add_r by lia.
        do 2 f_equal. lia. }
      assert (ET : Zpos mR * 2 ^ (eR - t) = Q * 2 ^ k * 2 ^ (e - t)).
      { unfold Q, k. rewrite <- !Z.mul_assoc, <- !Z.pow_add_r by lia.
        do 2 f_equal. lia. }
      rewrite EQ. rewrite ET in Hle, Hlt.
      assert (Hmq : m <= Q * 2 ^ k) by nia.
      assert (Hq : m1 <= Q) by nia.
      destruct (Z.eq_dec m1 Q) as [Heq|Hne].
      + assert (Hr0 : m mod 2 ^ k = 0) by nia.
        assert (Hl : l = loc_Exact).
        { destruct l as [|c]; [reflexivity|]. exfalso.
          assert (m * 2 ^ (e - t) < Q * 2 ^ k * 2 ^ (e - t))
            by (apply Hlt; discriminate).
          nia. }
        rewrite (Hex Hl Hr0). nia.
      + assert (m2 <= Q) by lia. nia.
    - exfalso. specialize (H2 ltac:(lia)).
      assert (P1 : 2 ^ dig mR <= 2 ^ prec) by (apply Z.pow_le_mono_r; lia).
      assert (P2 : 2 ^ (prec + (eR - t)) <= 2 ^ (prec - 1 + (e1 - t)))
        by (apply Z.pow_le_mono_r; lia).
      rewrite !Z.pow_add_r in P2 by lia.
      pose proof (pow2_pos (eR - t) ltac:(lia)) as PRt.
      pose proof (pow2_pos (prec - 1) ltac:(lia)) as Pp1.
      assert (P3 : 2 ^ (e1 - t) = 2 ^ k * 2 ^ (e - t)).
      { unfold k. rewrite <- Z.pow_add_r by lia. f_equal. lia. }
      assert (P4 : Zpos mR * 2 ^ (eR - t) < 2 ^ prec * 2 ^ (eR - t)) by nia.
      assert (P5 : 2 ^ (prec - 1) * 2 ^ (e1 - t) <= m1 * 2 ^ (e1 - t)).
      { apply Z.mul_le_mono_nonneg_r; [|assumption].
        rewrite P3. nia. }
      assert (P6 : m1 * 2 ^ (e1 - t) <= m * 2 ^ (e - t)).
      { rewrite P3. nia. }
      lia. }
  destruct Hkey as [->|[Hm2 Hk]].
  - unfold pack. cbn [Z.eqb]. split; [now left|]. cbn [key]. lia.
  - destruct (pack_key prec emax Hprec Hemax false m2 g) as [rho [Kr [Br [Hr Hor]]]];
      [lia|unfold g; lia|intros G; unfold g in G; specialize (H2 ltac:(lia)); lia|].
    replace (emin prec emax + g) with e1 in Kr by (unfold g; lia).
    cbn [cond_Zopp] in Kr. split; [|lia].
    assert (Hrho : rho < omega prec emax) by lia.
    unfold pack in *.
    destruct (Z.eqb_spec m2 0); [lia|].
    destruct (m2 <? 2 ^ prec).
    + destruct (e1 <=? emax - prec).
      * right. eexists _, _. split; [reflexivity|exact V].
      * cbn [key cond_Zopp] in Kr. lia.
    + destruct (e1 + 1 <=? emax - prec).
      * right. eexists _, _. split; [reflexivity|exact V].
      * cbn [key cond_Zopp] in Kr. lia.
Qed.

(** The quotient of a positive value by one that is not smaller does
    not exceed one; [mR * 2 ^ eR] is the float one. *)
Lemma div_le_one (ma mb mR : positive) (ea eb eR : Z) :
  bounded prec emax ma ea = true -> bounded prec emax mb eb = true ->
  bounded prec emax mR eR = true ->
  Zpos mR * 2 ^ (eR - emin prec emax) = 2 ^ (- emin prec emax) ->
  Zpos ma * 2 ^ (ea - emin prec emax) <= Zpos mb * 2 ^ (eb - emin prec emax) ->
  plain prec emax (SFdiv prec emax (S754_finite false ma ea) (S754_finite false mb eb))
  /\ key prec emax (SFdiv prec emax (S754_finite false ma ea)
                      (S754_finite false mb eb))
     <= 2 ^ (- emin prec emax).
Proof.
  intros Ba Bb BR E1 Hle. cbn [SFdiv xorb].
  destruct (div_core_spec prec emax Hprec ma mb ea eb) as [-> [Hsh [Hq [Hrem [Hl Ha]]]]].
  set (e' := Z.min (fexp prec emax (dig ma + ea - (dig mb + eb))) (ea - eb)) in *.
  set (sh := ea - eb - e') in *.
  set (q := Zpos ma * 2 ^ sh / Zpos mb) in *.
  set (rem := Zpos ma * 2 ^ sh mod Zpos mb) in *.
  pose proof (bounded_facts prec emax ma ea Ba) as [Hea _].
  pose proof (bounded_facts prec emax mb eb Bb) as [Heb _].
  pose proof (bounded_facts prec emax mR eR BR) as [HeR _].
  pose proof (emin_nonpos prec emax Hprec Hemax) as En.
  set (t := Z.min e' (emin prec emax)).
  rewrite <- E1.
  assert (ER : Zpos mR * 2 ^ (eR - t) = 2 ^ (- t)).
  { replace (eR - t) with ((eR - emin prec emax) + (emin prec emax - t))
      by lia.
    rewrite Z.pow_add_r by (unfold t; lia). rewrite Z.mul_assoc, E1.
    rewrite <- Z.pow_add_r by (unfold t; lia). f_equal. lia. }
  pose proof (Z.div_mod (Zpos ma * 2 ^ sh) (Zpos mb) ltac:(lia)) as Dm.
  fold q rem in Dm.
  set (c := eb - emin prec emax) in *.
  pose proof (pow2_pos c ltac:(unfold c; lia)) as Pc.
  pose proof (pow2_pos sh Hsh) as Psh.
  pose proof (pow2_pos (e' - t) ltac:(unfold t; lia)) as Pet.
  pose proof (pow2_pos (- t) ltac:(unfold t; lia)) as Pt.
  assert (Hmain : (q * Zpos mb + rem) * 2 ^ (e' - t) <= Zpos mb * 2 ^ (- t)).
  { assert (X1 : 2 ^ (ea - emin prec emax) * 2 ^ (- t)
                 = 2 ^ sh * 2 ^ (e' - t) * 2 ^ c).
    { rewrite <- !Z.pow_add_r by (unfold t, c; lia). f_equal. unfold sh, c. lia. }
    assert (X2 : Zpos ma * 2 ^ sh = q * Zpos mb + rem) by lia.
    rewrite <- X2.
    apply Z.mul_le_mono_pos_r with (p := 2 ^ c); [assumption|].
    replace (Zpos ma * 2 ^ sh * 2 ^ (e' - t) * 2 ^ c)
      with (Zpos ma * (2 ^ sh * 2 ^ (e' - t) * 2 ^ c)) by ring.
    rewrite <- X1. nia. }
  apply (round_aux_upper q e' (new_location (Zpos mb) rem) mR eR t);
    try assumption; try (unfold t; lia).
  - rewrite ER. nia.
  - intros Hne. rewrite ER.
    assert (rem <> 0) by (intros Hz; apply Hne; now apply Hl).
    nia.
Qed.

(** The product of a float by a factor between zero and one does not
    exceed the float. *)
Lemma mul_le_span (mq ms : positive) (eq es : Z) :
  bounded prec emax mq eq = true -> bounded prec emax ms es = true ->
  Zpos mq * 2 ^ (eq - emin prec emax) <= 2 ^ (- emin prec emax) ->
  plain prec emax (SFmul prec emax (S754_finite false mq eq) (S754_finite false ms es))
  /\ key prec emax (SFmul prec emax (S754_finite false mq eq)
                      (S754_finite false ms es))
     <= Zpos ms * 2 ^ (es - emin prec emax).
Proof.
  intros Bq Bs Hle. cbn [SFmul xorb].
  pose proof (bounded_facts prec emax mq eq Bq) as [Heq _].
  pose proof (bounded_facts prec emax ms es Bs) as [Hes _].
  pose proof (emin_nonpos prec emax Hprec Hemax) as En.
  set (t := Z.min (eq + es) (emin prec emax)).
  assert (Hq0 : eq <= 0).
  { destruct (Z_le_gt_dec eq 0); [assumption|exfalso].
    assert (2 ^ (- emin prec emax) < 2 ^ (eq - emin prec emax))
      by (apply Z.pow_lt_mono_r; lia).
    pose proof (pow2_pos (- emin prec emax) ltac:(lia)). nia. }
  assert (Hmq : Zpos mq <= 2 ^ (- eq)).
  { replace (- emin prec emax) with ((- eq) + (eq - emin prec emax)) in Hle by lia.
    rewrite Z.pow_add_r in Hle by lia.
    pose proof (pow2_pos (eq - emin prec emax) ltac:(lia)). nia. }
  assert (Hmain : Zpos (mq * ms) * 2 ^ (eq + es - t) <= Zpos ms * 2 ^ (es - t)).
  { replace (es - t) with ((- eq) + (eq + es - t)) by lia.
    rewrite Z.pow_add_r by (unfold t; lia). rewrite Pos2Z.inj_mul.
    pose proof (pow2_pos (eq + es - t) ltac:(unfold t; lia)). nia. }
  apply (round_aux_upper (Zpos (mq * ms)) (eq + es) loc_Exact ms es t);
    try assumption; try (unfold t; lia).
  - now apply mul_aligned.
  - congruence.
Qed.

End RoundingBounds.

(** ** Rounding to nearest is monotone *)

Lemma shr_1_round (x : shr_record) :
  0 <= shr_m x -> shifted 1 (with_round x) (with_round (shr_1 x)).
Proof.
  destruct x as [m r0 s0]. unfold shifted, inexact, with_round.
  cbn [shr_m shr_r shr_s]. intros Hm. change (2 ^ 1) with 2.
  assert (Hr : forall v : Z, (2 * v + (if r0 then 1 else 0)) / 2 = v
                  /\ negb ((2 * v + (if r0 then 1 else 0)) mod 2 =? 0) = r0).
  { intros v. destruct r0.
    - split; [symmetry; apply Z.div_unique with 1; lia|].
      replace ((2 * v + 1) mod 2) with 1 by (apply Z.mod_unique with v; lia).
      reflexivity.
    - split; [symmetry; apply Z.div_unique with 0; lia|].
      replace ((2 * v + 0) mod 2) with 0 by (apply Z.mod_unique with v; lia).
      reflexivity. }
  destruct (Hr m) as [-> ->].
  destruct m as [|p|p]; [| |lia].
  - cbn [shr_1 shr_m shr_r shr_s]. split; [reflexivity|]. destruct r0, s0; reflexivity.
  - destruct p as [p|p|]; cbn [shr_1 shr_m shr_r shr_s].
    + split; [lia|]. destruct r0, s0; reflexivity.
    + split; [lia|]. destruct r0, s0; reflexivity.
    + split; [reflexivity|]. destruct r0, s0; reflexivity.
Qed.

Lemma with_round_nonneg (x : shr_record) : 0 <= shr_m x -> 0 <= shr_m (with_round x).
Proof. intros H. unfold with_round. cbn [shr_m]. destruct (shr_r x); lia. Qed.

Lemma iter_shr_round (p : positive) :
  forall x, 0 <= shr_m x ->
  shifted (Zpos p) (with_round x) (with_round (iter_pos shr_1 p x)).
Proof.
  induction p as [p IH|p IH|]; intros x Hx; cbn [iter_pos].
  - pose proof (shr_1_round x Hx) as H1.
    pose proof (shifted_nonneg 1 _ _ ltac:(lia) Hx (shr_1_shifted x Hx)) as N1.
    pose proof (IH _ N1) as H2.
    pose proof (shifted_nonneg (Zpos p) _ _ ltac:(lia) N1 (iter_shr_shifted p _ N1))
      as N2.
    pose proof (IH _ N2) as H3.
    replace (Zpos p~1) with (1 + Zpos p + Zpos p) by lia.
    eapply shifted_trans; [lia|lia| |exact H3].
    eapply shifted_trans; [lia|lia|exact H1|exact H2].
  - pose proof (IH _ Hx) as H2.
    pose proof (shifted_nonneg (Zpos p) _ _ ltac:(lia) Hx (iter_shr_shifted p _ Hx))
      as N2.
    pose proof (IH _ N2) as H3.
    replace (Zpos p~0) with (Zpos p + Zpos p) by lia.
    eapply shifted_trans; [lia|lia|exact H2|exact H3].
  - now apply shr_1_round.
Qed.

Lemma shr_round (x : shr_record) (e n : Z) :
  0 <= shr_m x ->
  shifted (Z.max 0 n) (with_round x) (with_round (fst (shr x e n))).
Proof.
  intros Hx. destruct n as [|p|p]; cbn [shr fst Z.max Z.compare].
  - apply shifted_0.
  - now apply iter_shr_round.
  - apply shifted_0.
Qed.

Lemma round_nearest_even_spec (y : shr_record) :
  0 <= shr_m y ->
  round_nearest_even (shr_m y) (loc_of_shr_record y)
  = nearest_even (shr_m (with_round y)) (shr_s y).
Proof.
  destruct y as [m r0 s0]. cbn [shr_m shr_r shr_s with_round]. intros Hm.
  unfold nearest_even.
  destruct r0.
  - replace ((2 * m + 1) mod 2) with 1 by (apply Z.mod_unique with m; lia).
    replace ((2 * m + 1) / 2) with m by (apply Z.div_unique with 1; lia).
    cbn [Z.eqb]. rewrite <- Z.negb_even.
    destruct s0; cbn [loc_of_shr_record round_nearest_even orb];
      [reflexivity|]. change IntDef.Z.even with Z.even.
    destruct (Z.even m); reflexivity.
  - replace ((2 * m + 0) mod 2) with 0 by (apply Z.mod_unique with m; lia).
    replace ((2 * m + 0) / 2) with m by (apply Z.div_unique with 0; lia).
    cbn [Z.eqb]. destruct s0; reflexivity.
Qed.

Lemma nearest_even_bounds (E : Z) (s : bool) :
  E / 2 <= nearest_even E s <= E / 2 + 1
  /\ (E mod 2 = 0 -> nearest_even E s = E / 2).
Proof.
  unfold nearest_even. destruct (Z.eqb_spec (E mod 2) 0) as [Hz|Hz].
  - split; [lia|reflexivity].
  - destruct (s || Z.odd (E / 2)); split; lia.
Qed.

Lemma nearest_even_mono (E1 E2 : Z) (s1 s2 : bool) :
  E1 <= E2 -> (E1 = E2 -> s1 = true -> s2 = true) ->
  nearest_even E1 s1 <= nearest_even E2 s2.
Proof.
  intros Hle Hs.
  pose proof (nearest_even_bounds E1 s1) as [B1 X1].
  pose proof (nearest_even_bounds E2 s2) as [B2 X2].
  pose proof (Z.div_mod E1 2 ltac:(lia)) as D1.
  pose proof (Z.div_mod E2 2 ltac:(lia)) as D2.
  pose proof (Z.mod_pos_bound E1 2 ltac:(lia)) as M1.
  pose proof (Z.mod_pos_bound E2 2 ltac:(lia)) as M2.
  destruct (Z.eq_dec E1 E2) as [->|Hne].
  - specialize (Hs eq_refl). unfold nearest_even.
    destruct (E2 mod 2 =? 0); [lia|].
    destruct s1; [rewrite Hs by reflexivity; cbn [orb]; lia|].
    cbn [orb]. destruct (Z.odd (E2 / 2)); [rewrite orb_true_r; lia|].
    destruct (s2 || false); lia.
  - destruct (Z.eq_dec (E1 mod 2) 0) as [Hz|Hz].
    + rewrite (X1 Hz). assert (E1 / 2 <= E2 / 2) by lia. lia.
    + assert (E1 / 2 + 1 <= E2 / 2) by lia. lia.
Qed.

Section Monotone.

Variables prec emax : Z.
Hypothesis Hprec : 0 < prec.
Hypothesis Hemax : prec < emax.

(** The rounded mantissa of an aligned one, as a function of what is
    shifted out. *)
Lemma binary_round_aux_nearest (s : bool) (m : positive) (e : Z) :
  aligned prec emax m e ->
  let e1 := fexp prec emax (dig m + e) in
  let k := e1 - e in
  let m2 := nearest_even (2 * Zpos m / 2 ^ k) (negb (2 * Zpos m mod 2 ^ k =? 0)) in
  binary_round_aux prec emax s (Zpos m) e loc_Exact = pack prec emax s m2 e1
  /\ Zpos m / 2 ^ k <= m2 <= Zpos m / 2 ^ k + 1
  /\ Zpos m / 2 ^ k < 2 ^ prec
  /\ (emin prec emax < e1 -> 2 ^ (prec - 1) <= Zpos m / 2 ^ k).
Proof.
  intros Ha e1 k m2.
  destruct (binary_round_aux_aligned prec emax Hprec s m e Ha)
    as [m2' [_ [_ [H1 [H2 _]]]]].
  unfold aligned in Ha. fold e1 in Ha, H1, H2. fold k in H1, H2.
  pose proof (pow2_pos k ltac:(unfold k; lia)) as Pk.
  assert (Hm2 : m2 = round_nearest_even
                       (shr_m (fst (shr_fexp prec emax (Zpos m) e loc_Exact)))
                       (loc_of_shr_record
                          (fst (shr_fexp prec emax (Zpos m) e loc_Exact)))
                /\ shr_m (fst (shr_fexp prec emax (Zpos m) e loc_Exact))
                   = Zpos m / 2 ^ k
                /\ snd (shr_fexp prec emax (Zpos m) e loc_Exact) = e1).
  { pose proof (shr_fexp_spec prec emax (Zpos m) e loc_Exact ltac:(lia))
      as [Hs [_ Hx]].
    cbn [Zdigits2] in Hs, Hx. fold (dig m) in Hs, Hx. fold e1 in Hs, Hx.
    replace (Z.max 0 (e1 - e)) with k in Hs, Hx by (unfold k; lia).
    split; [|split; [exact Hs|unfold k in Hx; lia]].
    rewrite round_nearest_even_spec
      by (rewrite Hs; apply Z.div_pos; lia).
    unfold shr_fexp. cbn [Zdigits2]. fold (dig m). fold e1.
    pose proof (shr_round (shr_record_of_loc (Zpos m) loc_Exact) e (e1 - e)
                  ltac:(cbn; lia)) as [Hm Hi].
    replace (Z.max 0 (e1 - e)) with k in Hm, Hi by (unfold k; lia).
    rewrite Hm. unfold inexact in Hi. cbn [with_round shr_r shr_s] in Hi.
    cbn [orb] in Hi. rewrite Hi.
    cbn [shr_record_of_loc with_round shr_m shr_r shr_s orb].
    unfold m2. rewrite Z.add_0_r. reflexivity. }
  destruct Hm2 as [E2 [Es Ex]].
  pose proof (round_nearest_even_bounds
                (shr_m (fst (shr_fexp prec emax (Zpos m) e loc_Exact)))
                (loc_of_shr_record (fst (shr_fexp prec emax (Zpos m) e loc_Exact))))
    as [Hb _].
  rewrite <- E2, Es in Hb.
  assert (H0 : 0 <= Zpos m / 2 ^ k) by (apply Z.div_pos; lia).
  split; [|split; [exact Hb|split; assumption]].
  rewrite binary_round_aux_conclude, <- E2, Ex.
  apply conclude_pack; [assumption|lia|apply fexp_ge_emin].
Qed.

Lemma dig_mono (a b : positive) : Zpos a <= Zpos b -> dig a <= dig b.
Proof.
  intros H. apply dig_le; [pose proof (dig_pos b); lia|].
  pose proof (dig_bounds b). lia.
Qed.

Lemma binary_round_nearest (s : bool) (p : positive) (e : Z) :
  let e1 := fexp prec emax (dig p + e) in
  let ez := Z.min e e1 in
  let mz := Zpos p * 2 ^ (e - ez) in
  let k := e1 - ez in
  let m2 := nearest_even (2 * mz / 2 ^ k) (negb (2 * mz mod 2 ^ k =? 0)) in
  binary_round prec emax s p e = pack prec emax s m2 e1
  /\ mz / 2 ^ k <= m2 <= mz / 2 ^ k + 1
  /\ 0 <= mz / 2 ^ k < 2 ^ prec
  /\ (emin prec emax < e1 -> 2 ^ (prec - 1) <= mz / 2 ^ k).
Proof.
  intros e1 ez mz k m2. unfold binary_round. fold (dig p).
  pose proof (binary_round_aligned prec emax p e) as [Ha Hd].
  destruct (shl_align_spec p e (fexp prec emax (dig p + e))) as [Hs Hf].
  destruct (shl_align p e (fexp prec emax (dig p + e))) as [mz' ez'].
  cbn [fst snd] in Ha, Hd, Hs, Hf. fold e1 in Hs, Hf.
  fold ez in Hs. subst ez'. fold ez in Hf. fold mz in Hf.
  destruct (binary_round_aux_nearest s mz' ez Ha) as [E [Hb [H1 H2]]].
  rewrite Hd in E, Hb, H1, H2. fold e1 in E, Hb, H1, H2. fold k in E, Hb, H1, H2.
  rewrite Hf in E, Hb, H1, H2. fold m2 in E, Hb.
  rewrite Hf. split; [exact E|]. split; [exact Hb|]. split; [|exact H2].
  split; [|exact H1].
  apply Z.div_pos; [unfold mz|apply pow2_pos; unfold k, ez; lia].
  pose proof (pow2_pos (e - ez) ltac:(unfold ez; lia)). nia.
Qed.

Lemma pack_key0 (m2 g : Z) :
  0 <= m2 <= 2 ^ prec -> 0 <= g -> (0 < g -> 2 ^ (prec - 1) <= m2) ->
  exists rho,
    key prec emax (pack prec emax false m2 (emin prec emax + g)) = rho
    /\ 0 <= rho <= omega prec emax /\ rho <= m2 * 2 ^ g
    /\ (rho = m2 * 2 ^ g \/ rho = omega prec emax).
Proof.
  intros Hm Hg Hn. destruct (Z.eq_dec m2 0) as [->|Hne].
  - exists 0. pose proof (omega_pos prec emax Hprec Hemax).
    unfold pack. cbn [Z.eqb key]. repeat split; lia.
  - destruct (pack_key prec emax Hprec Hemax false m2 g) as [rho [K [B [L O]]]];
      [lia|assumption|assumption|].
    exists rho. cbn [cond_Zopp] in K. repeat split; try assumption; lia.
Qed.

Lemma binary_round_mono (p1 p2 : positive) (e : Z) :
  Zpos p1 <= Zpos p2 ->
  key prec emax (binary_round prec emax false p1 e)
  <= key prec emax (binary_round prec emax false p2 e).
Proof.
  intros Hle.
  destruct (binary_round_nearest false p1 e) as [E1 [B1 [R1 N1]]].
  destruct (binary_round_nearest false p2 e) as [E2 [B2 [R2 N2]]].
  rewrite E1, E2. clear E1 E2.
  pose proof (dig_mono p1 p2 Hle) as Hd.
  set (e1 := fexp prec emax (dig p1 + e)) in *.
  set (e2 := fexp prec emax (dig p2 + e)) in *.
  pose proof (fexp_ge_emin prec emax (dig p1 + e)) as G1. fold e1 in G1.
  pose proof (fexp_ge_emin prec emax (dig p2 + e)) as G2. fold e2 in G2.
  assert (He : e1 <= e2) by (unfold e1, e2, SpecFloat.fexp; lia).
  set (n1 := nearest_even _ _) in B1 |- *.
  set (n2 := nearest_even _ _) in B2 |- *.
  destruct (pack_key0 n1 (e1 - emin prec emax)) as [rho1 [K1 [Br1 [L1 O1]]]];
    [lia|lia|intros G; specialize (N1 ltac:(lia)); lia|].
  destruct (pack_key0 n2 (e2 - emin prec emax)) as [rho2 [K2 [Br2 [L2 O2]]]];
    [lia|lia|intros G; specialize (N2 ltac:(lia)); lia|].
  replace (emin prec emax + (e1 - emin prec emax)) with e1 in K1 by lia.
  replace (emin prec emax + (e2 - emin prec emax)) with e2 in K2 by lia.
  rewrite K1, K2.
  destruct O2 as [O2|O2]; [|lia]. rewrite O2.
  destruct (Z.eq_dec e1 e2) as [Heq|Hne].
  - (* the same unit in the last place *)
    assert (Hn : n1 <= n2).
    { unfold n1, n2. fold e1 e2. rewrite <- Heq.
      set (ez := Z.min e e1). set (k := e1 - ez).
      pose proof (pow2_pos k ltac:(unfold k, ez; lia)) as Pk.
      pose proof (pow2_pos (e - ez) ltac:(unfold ez; lia)) as Pz.
      set (a := 2 * (Zpos p1 * 2 ^ (e - ez))).
      set (b := 2 * (Zpos p2 * 2 ^ (e - ez))).
      assert (Hab : a <= b) by (unfold a, b; nia).
      pose proof (Z.div_mod a (2 ^ k) ltac:(lia)) as Da.
      pose proof (Z.div_mod b (2 ^ k) ltac:(lia)) as Db.
      pose proof (Z.mod_pos_bound a (2 ^ k) Pk) as Ma.
      pose proof (Z.mod_pos_bound b (2 ^ k) Pk) as Mb.
      apply nearest_even_mono.
      - apply Z.div_le_mono; lia.
      - intros Eq Hs. apply negb_true_iff in Hs. apply negb_true_iff.
        apply Z.eqb_neq in Hs. apply Z.eqb_neq. rewrite Eq in Da. nia. }
    rewrite <- Heq. pose proof (pow2_pos (e1 - emin prec emax) ltac:(lia)). nia.
  - (* the larger value has a larger unit in the last place *)
    specialize (N2 ltac:(lia)).
    assert (P : 2 ^ (prec + (e1 - emin prec emax))
                <= 2 ^ (prec - 1 + (e2 - emin prec emax)))
      by (apply Z.pow_le_mono_r; lia).
    rewrite !Z.pow_add_r in P by lia.
    pose proof (pow2_pos (e1 - emin prec emax) ltac:(lia)).
    pose proof (pow2_pos (e2 - emin prec emax) ltac:(lia)).
    nia.
Qed.

Lemma normalize_mono (M1 M2 e : Z) (s0 : bool) :
  0 <= M1 <= M2 ->
  key prec emax (binary_normalize prec emax M1 e s0)
  <= key prec emax (binary_normalize prec emax M2 e s0).
Proof.
  intros [H1 H2]. destruct M1 as [|p1|p1]; [|destruct M2 as [|p2|p2]; try lia|lia].
  - destruct M2 as [|p2|p2]; [lia| |lia]. cbn [binary_normalize key].
    destruct (binary_round_nearest false p2 e) as [E2 [B2 [R2 N2]]]. rewrite E2.
    pose proof (fexp_ge_emin prec emax (dig p2 + e)) as G2.
    set (e2 := fexp prec emax (dig p2 + e)) in *.
    set (n2 := nearest_even _ _) in *.
    destruct (pack_key0 n2 (e2 - emin prec emax)) as [rho2 [K2 [Br2 _]]];
      [lia|lia|intros G; specialize (N2 ltac:(lia)); lia|].
    replace (emin prec emax + (e2 - emin prec emax)) with e2 in K2 by lia.
    lia.
  - cbn [binary_normalize]. now apply binary_round_mono.
Qed.

(** A value that is not below a float of the format is not rounded
    below it. *)
Lemma normalize_ge (M e : Z) (s0 : bool) (R : spec_float) :
  emin prec emax <= e -> valid_binary prec emax R = true -> is_finite R = true ->
  key prec emax R <= M * 2 ^ (e - emin prec emax) -> 0 < M ->
  key prec emax R <= key prec emax (binary_normalize prec emax M e s0).
Proof.
  intros He VR FR HV HM. destruct M as [|p|p]; [lia| |lia].
  cbn [binary_normalize].
  destruct (binary_round_key prec emax Hprec Hemax false p e He) as [rho [-> [Hr Hb]]].
  cbn [cond_Zopp].
  destruct R as [sR|sR| |sR mR eR]; try discriminate; cbn [key valid_binary] in *.
  - lia.
  - pose proof (finite_key_bounds prec emax Hprec _ _ VR).
    destruct sR; cbn [cond_Zopp] in *; [lia|].
    now apply (Hb mR eR VR).
Qed.

End Monotone.

(** ** The random scene *)

Section RoundingSums.

Variables prec emax : Z.
Hypothesis Hprec : 0 < prec.
Hypothesis Hemax : prec < emax.

(** The exact sum of two finite operands, as [SFadd] forms it. *)
Lemma add_exact (sx sy : bool) (mx my : positive) (ex ey : Z) :
  bounded prec emax mx ex = true -> bounded prec emax my ey = true ->
  let ez := Z.min ex ey in
  emin prec emax <= ez
  /\ (cond_Zopp sx (Zpos (fst (shl_align mx ex ez)))
      + cond_Zopp sy (Zpos (fst (shl_align my ey ez)))) * 2 ^ (ez - emin prec emax)
     = key prec emax (S754_finite sx mx ex) + key prec emax (S754_finite sy my ey).
Proof.
  intros Hx Hy ez.
  pose proof (bounded_facts _ _ _ _ Hx) as [Bx _].
  pose proof (bounded_facts _ _ _ _ Hy) as [By _].
  split; [unfold ez; lia|].
  destruct (shl_align_spec mx ex ez) as [_ ->].
  destruct (shl_align_spec my ey ez) as [_ ->].
  replace (Z.min ex ez) with ez by (unfold ez; lia).
  replace (Z.min ey ez) with ez by (unfold ez; lia).
  cbn [key].
  assert (Ex : 2 ^ (ex - emin prec emax) = 2 ^ (ex - ez) * 2 ^ (ez - emin prec emax)).
  { rewrite <- Z.pow_add_r by (unfold ez; lia). f_equal. lia. }
  assert (Ey : 2 ^ (ey - emin prec emax) = 2 ^ (ey - ez) * 2 ^ (ez - emin prec emax)).
  { rewrite <- Z.pow_add_r by (unfold ez; lia). f_equal. lia. }
  rewrite Ex, Ey. destruct sx, sy; cbn [cond_Zopp]; ring.
Qed.

Lemma plain_valid (f : spec_float) :
  plain prec emax f -> valid_binary prec emax f = true /\ f <> S754_nan
                       /\ 0 <= key prec emax f.
Proof.
  intros [->|[m [e [-> B]]]].
  - repeat split; [discriminate|cbn; lia].
  - repeat split; [exact B|discriminate|].
    pose proof (finite_key_bounds prec emax Hprec m e B). cbn [key cond_Zopp]. lia.
Qed.

Lemma key_SFleb (a b : spec_float) :
  valid_binary prec emax a = true -> valid_binary prec emax b = true ->
  a <> S754_nan -> b <> S754_nan ->
  key prec emax a <= key prec emax b -> SFleb a b = true.
Proof.
  intros Va Vb Na Nb H. unfold SFleb.
  rewrite (SFcompare_key prec emax Hprec Hemax a b Va Vb Na Nb).
  destruct (Z.compare_spec (key prec emax a) (key prec emax b)); [reflexivity..|lia].
Qed.

(** A positive integer below a finite float converts to a positive
    finite float. *)
Lemma normalize_plain (M : Z) (R : spec_float) :
  0 <= M -> valid_binary prec emax R = true -> is_finite R = true ->
  M * 2 ^ (- emin prec emax) <= key prec emax R ->
  plain prec emax (binary_normalize prec emax M 0 false)
  /\ (0 < M -> exists m e,
        binary_normalize prec emax M 0 false = S754_finite false m e
        /\ bounded prec emax m e = true).
Proof.
  intros HM VR FR HR.
  pose proof (emin_nonpos prec emax Hprec Hemax) as En.
  assert (Pos : 0 < M -> exists m e,
             binary_normalize prec emax M 0 false = S754_finite false m e
             /\ bounded prec emax m e = true).
  { intros Hp.
    pose proof (normalize_le prec emax Hprec Hemax M 0 false R ltac:(lia) VR FR) as Hu.
    rewrite Z.sub_0_l in Hu. specialize (Hu HR).
    pose proof (normalize_pos prec emax Hprec Hemax M 0 false ltac:(lia) Hp) as Hl.
    pose proof (binary_normalize_valid prec emax Hprec M 0 false) as V.
    assert (KR : key prec emax R < omega prec emax).
    { destruct R as [sR|sR| |sR mR eR]; try discriminate.
      - cbn [key]. apply (omega_pos prec emax Hprec Hemax).
      - pose proof (finite_key_bounds prec emax Hprec mR eR VR).
        destruct sR; cbn [key cond_Zopp]; lia. }
    pose proof (omega_pos prec emax Hprec Hemax).
    destruct (binary_normalize prec emax M 0 false) as [s|s| |s m e];
      cbn [key] in Hu, Hl; try lia.
    - destruct s; cbn [cond_Zopp] in *; lia.
    - destruct s; cbn [cond_Zopp] in *; [lia|]. exists m, e. split; [reflexivity|exact V]. }
  split; [|exact Pos].
  destruct (Z.eq_dec M 0) as [->|Hne]; [now left|].
  right. apply Pos. lia.
Qed.

End RoundingSums.

Lemma key_one : key prec emax (of_Z 1) = 2 ^ (- emin prec emax).
Proof. reflexivity. Qed.

(** [(float)rand() / RAND_MAX] lies between zero and one. *)
Lemma unit_fraction (RAND_MAX v : Z) :
  1 <= RAND_MAX <= Int.INT_MAX -> 0 <= v <= RAND_MAX ->
  plain prec emax (fdiv (of_Z v) (of_Z RAND_MAX))
  /\ key prec emax (fdiv (of_Z v) (of_Z RAND_MAX)) <= 2 ^ (- emin prec emax).
Proof.
  intros HR Hv. unfold Int.INT_MAX in HR.
  set (top := S754_finite false 8388608 8).
  assert (Kt : key prec emax top = 2147483648 * 2 ^ (- emin prec emax))
    by reflexivity.
  pose proof (pow2_pos (- emin prec emax) ltac:(cbv; discriminate)) as Pe.
  destruct (normalize_plain prec emax prec_pos prec_lt_emax RAND_MAX top)
    as [_ PM]; [lia|reflexivity|reflexivity|rewrite Kt; nia|].
  destruct (PM ltac:(lia)) as [mb [eb [EM BM]]].
  destruct (normalize_plain prec emax prec_pos prec_lt_emax v top)
    as [_ Pv]; [lia|reflexivity|reflexivity|rewrite Kt; nia|].
  pose proof (normalize_mono prec emax prec_pos prec_lt_emax v RAND_MAX 0 false Hv)
    as Mono.
  unfold of_Z, fdiv. rewrite EM in *.
  destruct (Z.eq_dec v 0) as [->|Hne].
  - cbn [binary_normalize SFdiv xorb]. split; [now left|cbn [key]; lia].
  - destruct (Pv ltac:(lia)) as [ma [ea [Ev Bv]]]. rewrite Ev in *.
    cbn [key cond_Zopp] in Mono.
    apply (div_le_one prec emax prec_pos prec_lt_emax ma mb 8388608 ea eb (-23));
      try assumption; reflexivity.
Qed.

(** Scaling a float by such a fraction does not exceed it. *)
Lemma scaled (q : float) (ms : positive) (es : Z) :
  plain prec emax q -> key prec emax q <= 2 ^ (- emin prec emax) ->
  bounded prec emax ms es = true ->
  plain prec emax (fmul q (S754_finite false ms es))
  /\ key prec emax (fmul q (S754_finite false ms es))
     <= key prec emax (S754_finite false ms es).
Proof.
  intros [->|[mq [eq [-> Bq]]]] Hk Bs; unfold fmul.
  - cbn [SFmul xorb]. split; [now left|].
    pose proof (finite_key_bounds prec emax prec_pos ms es Bs).
    cbn [key cond_Zopp]. lia.
  - cbn [key cond_Zopp] in Hk |- *.
    now apply (mul_le_span prec emax prec_pos prec_lt_emax).
Qed.

Lemma fadd_zero_plain (p : float) : plain prec emax p -> fadd zero p = p.
Proof. intros [->|[m [e [-> _]]]]; reflexivity. Qed.

Lemma span_X : fsub XMAX XMIN = XMAX.
Proof. reflexivity. Qed.

Lemma span_R : fsub RMAX RMIN = S754_finite false 11796480 (-17).
Proof. reflexivity. Qed.

(** A coordinate drawn by [randab(XMIN, XMAX)]. *)
Lemma drawn_coordinate (RAND_MAX v : Z) :
  1 <= RAND_MAX <= Int.INT_MAX -> 0 <= v <= RAND_MAX ->
  let c := fadd XMIN (fmul (fdiv (of_Z v) (of_Z RAND_MAX)) (fsub XMAX XMIN)) in
  valid c = true /\ fle XMIN c = true /\ fle c XMAX = true.
Proof.
  intros HR Hv. cbv zeta. destruct (unit_fraction RAND_MAX v HR Hv) as [Pq Kq].
  rewrite span_X.
  destruct (scaled _ 16384000 (-14) Pq Kq eq_refl) as [Pp Kp].
  change (S754_finite false 16384000 (-14)) with XMAX in Pp, Kp.
  change XMIN with zero. rewrite (fadd_zero_plain _ Pp).
  destruct (plain_valid prec emax prec_pos _ Pp) as [V [N K0]].
  split; [exact V|]. split.
  - destruct Pp as [->|[m [e [-> _]]]]; reflexivity.
  - apply (key_SFleb prec emax prec_pos prec_lt_emax); try assumption;
      [reflexivity|discriminate].
Qed.

(** A radius drawn by [randab(RMIN, RMAX)]. *)
Lemma drawn_radius (RAND_MAX v : Z) :
  1 <= RAND_MAX <= Int.INT_MAX -> 0 <= v <= RAND_MAX ->
  let c := fadd RMIN (fmul (fdiv (of_Z v) (of_Z RAND_MAX)) (fsub RMAX RMIN)) in
  valid c = true /\ fle RMIN c = true /\ fle c RMAX = true.
Proof.
  intros HR Hv. cbv zeta. destruct (unit_fraction RAND_MAX v HR Hv) as [Pq Kq].
  rewrite span_R.
  destruct (scaled _ 11796480 (-17) Pq Kq eq_refl) as [Pp Kp].
  set (p := fmul (fdiv (of_Z v) (of_Z RAND_MAX)) (S754_finite false 11796480 (-17)))
    in *.
  assert (K90 : key prec emax (S754_finite false 11796480 (-17))
                + key prec emax RMIN = key prec emax RMAX) by reflexivity.
  destruct Pp as [Ep|[mp [ep [Ep Bp]]]].
  - rewrite Ep. repeat split; reflexivity.
  - rewrite Ep in *. unfold fadd, RMIN. cbn [SFadd cond_Zopp].
    change IntDef.Z.min with Z.min.
    destruct (add_exact prec emax false false 10485760 mp (-20) ep eq_refl Bp)
      as [He Eq].
    cbn [cond_Zopp] in Eq.
    set (M := Zpos (fst (shl_align 10485760 (-20) (Z.min (-20) ep)))
              + Zpos (fst (shl_align mp ep (Z.min (-20) ep)))) in *.
    pose proof (finite_key_bounds prec emax prec_pos mp ep Bp) as Kb.
    cbn [key cond_Zopp] in Kp, Eq.
    pose proof (binary_normalize_valid prec emax prec_pos M (Z.min (-20) ep) false)
      as V.
    pose proof (binary_normalize_not_nan prec emax M (Z.min (-20) ep) false) as N.
    split; [exact V|]. split.
    + apply (key_SFleb prec emax prec_pos prec_lt_emax); try assumption;
        [reflexivity|discriminate|].
      apply (normalize_ge prec emax prec_pos prec_lt_emax);
        [assumption|reflexivity|reflexivity| |].
      * rewrite Eq. cbn [key cond_Zopp]. lia.
      * unfold M.
        pose proof (Pos2Z.is_pos (fst (shl_align 10485760 (-20) (Z.min (-20) ep)))).
        pose proof (Pos2Z.is_pos (fst (shl_align mp ep (Z.min (-20) ep)))).
        lia.
    + apply (key_SFleb prec emax prec_pos prec_lt_emax); try assumption;
        [reflexivity|discriminate|].
      apply (normalize_le prec emax prec_pos prec_lt_emax);
        [assumption|reflexivity|reflexivity|].
      rewrite Eq, <- K90. cbn [key cond_Zopp]. 
      change (key prec emax RMIN) with (key prec emax (S754_finite false 10485760 (-20))).
      cbn [key cond_Zopp]. lia.
Qed.

Section Drawn.

Variable RAND_MAX : Z.
Variable rand_state : Type.
Variable rand : rand_state -> Z * rand_state.
Hypothesis RAND_MAX_range : 1 <= RAND_MAX <= Int.INT_MAX.
Hypothesis rand_range : forall s, 0 <= fst (rand s) <= RAND_MAX.

Lemma init_loop_spec (count : nat) :
  forall s,
    length (fst (init_loop RAND_MAX rand count s)) = count
    /\ Forall (fun c => initial_circle c = true /\ wf_circle c)
         (fst (init_loop RAND_MAX rand count s)).
Proof.
  induction count as [|count IH]; intros s; cbn [init_loop].
  - split; [reflexivity|constructor].
  - unfold randab.
    pose proof (rand_range s) as R1. destruct (rand s) as [v1 s1].
    pose proof (rand_range s1) as R2. destruct (rand s1) as [v2 s2].
    pose proof (rand_range s2) as R3. destruct (rand s2) as [v3 s3].
    cbn [fst] in R1, R2, R3.
    destruct (IH s3) as [L F]. destruct (init_loop RAND_MAX rand count s3) as [rest s4].
    cbn [fst length] in *. split; [now f_equal|]. constructor; [|exact F].
    destruct (drawn_coordinate RAND_MAX v1 RAND_MAX_range R1) as [Vx [Lx Ux]].
    destruct (drawn_coordinate RAND_MAX v2 RAND_MAX_range R2) as [Vy [Ly Uy]].
    destruct (drawn_radius RAND_MAX v3 RAND_MAX_range R3) as [Vr [Lr Ur]].
    split.
    + unfold initial_circle. cbn [x y r dx dy].
      change YMIN with XMIN. change YMAX with XMAX.
      rewrite Lx, Ux, Ly, Uy, Lr, Ur. reflexivity.
    + repeat split; assumption.
Qed.

End Drawn.

(** ** Every pair is scanned from both of its circles *)

Lemma binary_round_aux_opp (prec emax : Z) (m e : Z) (l : location) :
  binary_round_aux prec emax true m e l
  = SFopp (binary_round_aux prec emax false m e l).
Proof.
  unfold binary_round_aux.
  destruct (shr_fexp prec emax m e l) as [mrs' e'].
  destruct (shr_fexp prec emax _ e' loc_Exact) as [mrs'' e''].
  destruct (shr_m mrs'') as [|p|p]; [reflexivity| |reflexivity].
  destruct (e'' <=? emax - prec); reflexivity.
Qed.

Lemma binary_round_opp (prec emax : Z) (m : positive) (e : Z) :
  binary_round prec emax true m e = SFopp (binary_round prec emax false m e).
Proof.
  unfold binary_round. destruct (shl_align m e _) as [mz ez].
  apply binary_round_aux_opp.
Qed.

Lemma SFopp_involutive (a : spec_float) : SFopp (SFopp a) = a.
Proof. destruct a as [[|]|[|]| |[|] m e]; reflexivity. Qed.

Lemma binary_normalize_opp (prec emax : Z) (M e : Z) :
  binary_normalize prec emax (- M) e false
  = SFopp (binary_normalize prec emax M e false)
  \/ binary_normalize prec emax (- M) e false = binary_normalize prec emax M e false.
Proof.
  destruct M as [|p|p]; cbn [Z.opp binary_normalize].
  - now right.
  - left. apply binary_round_opp.
  - left. rewrite binary_round_opp. now rewrite SFopp_involutive.
Qed.

Lemma SFsub_finite_swap (prec emax : Z) (sa sb : bool) (ma mb : positive)
      (ea eb : Z) :
  SFsub prec emax (S754_finite sb mb eb) (S754_finite sa ma ea)
  = SFopp (SFsub prec emax (S754_finite sa ma ea) (S754_finite sb mb eb))
  \/ SFsub prec emax (S754_finite sb mb eb) (S754_finite sa ma ea)
     = SFsub prec emax (S754_finite sa ma ea) (S754_finite sb mb eb).
Proof.
  cbn [SFsub]. change IntDef.Z.min with Z.min. rewrite (Z.min_comm eb ea).
  set (A := cond_Zopp sa (Zpos (fst (shl_align ma ea (Z.min ea eb))))).
  set (B := cond_Zopp sb (Zpos (fst (shl_align mb eb (Z.min ea eb))))).
  replace (B - A) with (- (A - B)) by lia.
  apply binary_normalize_opp.
Qed.

Lemma fsub_swap (a b : float) :
  fsub b a = fopp (fsub a b) \/ fsub b a = fsub a b.
Proof.
  unfold fsub, fopp.
  destruct a as [sa|sa| |sa ma ea], b as [sb|sb| |sb mb eb];
    try apply SFsub_finite_swap;
    try destruct sa; try destruct sb; cbn [SFsub SFopp negb];
    try (left; reflexivity); right; reflexivity.
Qed.

Lemma fadd_comm (a b : float) : fadd a b = fadd b a.
Proof.
  unfold fadd.
  destruct a as [[|]|[|]| |sa ma ea], b as [[|]|[|]| |sb mb eb];
    cbn [SFadd]; try reflexivity.
  change IntDef.Z.min with Z.min. rewrite (Z.min_comm eb ea). f_equal. lia.
Qed.

Lemma overlapping_sym (h : float -> float -> float) (ci cj : circle_t) :
  sign_blind h -> overlapping h ci cj = overlapping h cj ci.
Proof.
  intros Hb. unfold overlapping, pair_dist, pair_Rsum.
  rewrite (fadd_comm (r ci) (r cj)). f_equal.
  destruct (fsub_swap (x ci) (x cj)) as [Ex|Ex], (fsub_swap (y ci) (y cj)) as [Ey|Ey];
    rewrite Ex, Ey.
  - destruct (Hb (fsub (x ci) (x cj)) (fopp (fsub (y ci) (y cj)))) as [-> _].
    now destruct (Hb (fsub (x ci) (x cj)) (fsub (y ci) (y cj))) as [_ ->].
  - now destruct (Hb (fsub (x ci) (x cj)) (fsub (y ci) (y cj))) as [-> _].
  - now destruct (Hb (fsub (x ci) (x cj)) (fsub (y ci) (y cj))) as [_ ->].
  - reflexivity.
Qed.

Lemma detects_sym (h : float -> float -> float) (cs : circles) (i j : Z) :
  sign_blind h -> detects h cs i j = detects h cs j i.
Proof.
  intros Hb. unfold detects.
  destruct (get cs i) as [ci| |], (get cs j) as [cj| |]; try reflexivity.
  rewrite (overlapping_sym h ci cj Hb). f_equal. f_equal. apply Z.eqb_sym.
Qed.

Lemma detects_diag (h : float -> float -> float) (cs : circles) (i : Z) :
  detects h cs i i = false.
Proof.
  unfold detects. destruct (get cs i); try reflexivity.
  now rewrite Z.eqb_refl.
Qed.

Lemma sum_from_snoc (f : Z -> Z) (lo : Z) (count : nat) :
  sum_from f lo (S count) = sum_from f lo count + f (lo + Z.of_nat count).
Proof.
  replace (S count) with (count + 1)%nat by lia. rewrite sum_from_app.
  cbn [sum_from]. lia.
Qed.

Lemma sum_from_add (f g : Z -> Z) (count : nat) :
  forall lo, sum_from (fun i => f i + g i) lo count
             = sum_from f lo count + sum_from g lo count.
Proof.
  induction count as [|count IH]; intros lo; cbn [sum_from]; [reflexivity|].
  rewrite IH. lia.
Qed.

(** A symmetric table with an empty diagonal sums to twice its lower
    triangle. *)
Lemma sum_square (f : Z -> Z -> Z) (n : nat) :
  (forall i j, f i j = f j i) -> (forall i, f i i = 0) ->
  sum_from (fun i => sum_from (f i) 0 n) 0 n
  = 2 * sum_from (fun i => sum_from (f i) 0 (Z.to_nat i)) 0 n.
Proof.
  intros Hs Hd. induction n as [|n IH]; [reflexivity|].
  rewrite !sum_from_snoc. rewrite !Z.add_0_l, Nat2Z.id, Hd.
  rewrite (sum_from_ext (fun i => sum_from (f i) 0 (S n))
             (fun i => sum_from (f i) 0 n + f i (Z.of_nat n))).
  2:{ intros i _. rewrite sum_from_snoc. now rewrite Z.add_0_l. }
  rewrite sum_from_add, IH.
  rewrite (sum_from_ext (fun i => f i (Z.of_nat n)) (f (Z.of_nat n)))
    by (intros i _; apply Hs).
  lia.
Qed.

Lemma detected_twice (h : float -> float -> float) (cs : circles) :
  sign_blind h -> detected h cs 0 (ncircles cs) = 2 * pairs h cs.
Proof.
  intros Hb. unfold detected, row_count, pairs, ncircles.
  rewrite Z.sub_0_r, Nat2Z.id.
  apply (sum_square (fun i j => if detects h cs i j then 1 else 0)).
  - intros i j. now rewrite (detects_sym h cs i j Hb).
  - intros i. now rewrite detects_diag.
Qed.

Lemma fabs_fopp (a : float) : fabs (fopp a) = fabs a.
Proof. destruct a; reflexivity. Qed.

Lemma SFmul_opp_opp (prec emax : Z) (a : spec_float) :
  SFmul prec emax (SFopp a) (SFopp a) = SFmul prec emax a a.
Proof. destruct a as [[|]|[|]| |[|] m e]; reflexivity. Qed.

Lemma to_double_opp (a : float) : to_double (fopp a) = SFopp (to_double a).
Proof.
  destruct a as [[|]|[|]| |[|] m e]; try reflexivity; unfold to_double, fopp;
    cbn [SFopp negb cond_Zopp binary_normalize Z.opp].
  - now rewrite binary_round_opp, SFopp_involutive.
  - apply binary_round_opp.
Qed.

Lemma hypotf_ref_blind : sign_blind hypotf_ref.
Proof.
  intros a b. split.
  - destruct a as [sa|sa| |sa ma ea] eqn:Ea; try reflexivity;
      destruct b as [sb|sb| |sb mb eb]; try reflexivity.
    rewrite <- Ea. unfold hypotf_ref.
    rewrite to_double_opp. unfold D.mul. rewrite SFmul_opp_opp.
    rewrite Ea. reflexivity.
  - destruct b as [sb|sb| |sb mb eb] eqn:Eb; try reflexivity;
      destruct a as [sa|sa| |sa ma ea]; try reflexivity.
    rewrite <- Eb. unfold hypotf_ref.
    rewrite to_double_opp. unfold D.mul. rewrite SFmul_opp_opp.
    rewrite Eb. reflexivity.
Qed.

(** ** Displacements of the previous iteration *)

Lemma reset_of_geom (cs1 cs2 : circles) :
  map geom cs1 = map geom cs2 ->
  reset_displacements cs1 = reset_displacements cs2.
Proof.
  intros H.
  assert (E : forall cs, reset_displacements cs
              = map (fun g : float * float * float =>
                       mkCircle (fst (fst g)) (snd (fst g)) (snd g) zero zero)
                    (map geom cs)).
  { intros cs. unfold reset_displacements. rewrite map_map. reflexivity. }
  now rewrite (E cs1), (E cs2), H.
Qed.

Lemma local_compute_of_geom (h : float -> float -> float) (size : Z) (w1 : world) :
  forall w2 rank,
    map (map geom) w1 = map (map geom) w2 ->
    local_compute h size rank w1 = local_compute h size rank w2.
Proof.
  induction w1 as [|cs1 w1 IH]; intros [|cs2 w2] rank H; cbn [map] in H;
    try discriminate; [reflexivity|].
  injection H as Hc Hw. rewrite !local_compute_cons.
  now rewrite (reset_of_geom cs1 cs2 Hc), (IH w2 (rank + 1) Hw).
Qed.

(** ** More ranks than circles *)

Lemma merge_none (w : world) :
  Int.div (ncircles (hd [] w)) (Z.of_nat (length w)) = 0 ->
  displacement_merge w = w.
Proof.
  intros H. unfold displacement_merge. rewrite H. cbn [Z.to_nat].
  unfold allgather_in_place. rewrite gather_blocks_0, Nat.mul_0_r.
  cbn [app skipn]. apply map_id.
Qed.

Lemma length_local_compute (h : float -> float -> float) (size : Z) (w : world) :
  forall rank res, local_compute h size rank w = Done res -> length res = length w.
Proof.
  induction w as [|cs w IH]; intros rank res H.
  - cbn in H. now injection H as <-.
  - rewrite local_compute_cons in H.
    destruct (compute_forces h _ _ _) as [r0| |]; cbn [bind] in H; try discriminate.
    destruct (local_compute h size (rank + 1) w) as [rest| |] eqn:E;
      cbn [bind] in H; try discriminate.
    injection H as <-. cbn [length]. f_equal. eapply IH; eauto.
Qed.

Lemma crowded_aux (h : float -> float -> float) (cs : circles) (size : nat)
      (t : Z) (w' : world) :
  ncircles cs < Z.of_nat size -> Z.of_nat size <= Int.INT_MAX ->
  iteration h (initial_world size cs) = Done (t, w') ->
  w' = initial_world size (move_circles (reset_displacements cs)).
Proof.
  intros Hn Hs. unfold iteration, initial_world. rewrite repeat_length.
  pose proof (ncircles_nonneg cs) as N0.
  destruct size as [|k]; [lia|].
  change (repeat cs (S k)) with (cs :: repeat cs k). rewrite local_compute_cons.
  rewrite (ncircles_geom _ _ (reset_geom cs)).
  assert (Es : partition_start 0 (ncircles cs) (Z.of_nat (S k)) = 0).
  { unfold partition_start, Int.mul. rewrite Z.mul_0_l.
    change (Int.wrap32 0) with 0. apply int_quot_small. lia. }
  assert (Ee : partition_end 0 (ncircles cs) (Z.of_nat (S k)) = 0).
  { unfold partition_end, Int.mul, Int.add. cbn [Z.add].
    rewrite (wrap32_id 1)
      by (unfold Int.in_range, Int.INT_MIN, Int.INT_MAX; lia).
    rewrite Z.mul_1_l.
    rewrite wrap32_id
      by (unfold Int.in_range, Int.INT_MIN, Int.INT_MAX in *; lia).
    apply int_quot_small. lia. }
  rewrite Es, Ee.
  change (compute_forces h 0 0 (reset_displacements cs))
    with (Done (A := Z * circles) (0, reset_displacements cs)).
  cbn [bind].
  destruct (local_compute h (Z.of_nat (S k)) (0 + 1) (repeat cs k))
    as [rest| |] eqn:E; cbn [bind]; try discriminate.
  change (map snd ((0, reset_displacements cs) :: rest))
    with (reset_displacements cs :: map snd rest).
  pose proof (length_local_compute _ _ _ _ _ E) as L. rewrite repeat_length in L.
  rewrite merge_none.
  - rewrite bcast_const.
    change (map move_circles (reset_displacements cs :: map snd rest))
      with (move_circles (reset_displacements cs)
            :: map move_circles (map snd rest)).
    change (hd [] (move_circles (reset_displacements cs)
                   :: map move_circles (map snd rest)))
      with (move_circles (reset_displacements cs)).
    change (length (move_circles (reset_displacements cs)
                    :: map move_circles (map snd rest)))
      with (S (length (map move_circles (map snd rest)))).
    rewrite !length_map, L. now intros [= _ <-].
  - change (hd [] (reset_displacements cs :: map snd rest))
      with (reset_displacements cs).
    change (length (reset_displacements cs :: map snd rest))
      with (S (length (map snd rest))).
    rewrite length_map, L.
    rewrite (ncircles_geom _ _ (reset_geom cs)). apply int_quot_small. lia.
Qed.

Lemma get_range (cs : circles) (i : Z) (c : circle_t) :
  get cs i = Done c -> 0 <= i < ncircles cs.
Proof.
  intros H. apply get_done in H. destruct H as [Hi H].
  assert (N : nth_error cs (Z.to_nat i) <> None) by congruence.
  apply nth_error_Some in N. unfold ncircles. lia.
Qed.

Lemma row_zero (h : float -> float -> float) (cs : circles) (k : Z) :
  row_count h cs k = 0 -> forall j, detects h cs k j = false.
Proof.
  intros H j. destruct (detects h cs k j) eqn:D; [|reflexivity]. exfalso.
  assert (Rj : 0 <= j < ncircles cs).
  { unfold detects in D. destruct (get cs k); try discriminate.
    destruct (get cs j) eqn:Ej; try discriminate. eapply get_range; eauto. }
  unfold row_count in H.
  assert (N : forall j0, 0 <= (if detects h cs k j0 then 1 else 0))
    by (intros j0; destruct (detects h cs k j0); lia).
  pose proof (sum_from_zero _ _ 0 N H j ltac:(unfold ncircles in Rj; lia)) as Z.
  cbv beta in Z. rewrite D in Z. lia.
Qed.

Lemma wf_three_circles : wf three_circles.
Proof. repeat constructor. Qed.

Lemma sample_rand_range (s : Z) : 0 <= fst (sample_rand s) <= 32767.
Proof.
  unfold sample_rand. cbn [fst].
  pose proof (Z.mod_pos_bound ((s * 1103515245 + 12345) mod 4294967296 / 65536)
                32768 ltac:(lia)).
  lia.
Qed.

Lemma ncircles_init (RAND_MAX : Z) (rand_state : Type)
      (rand : rand_state -> Z * rand_state) (n : Z) (s : rand_state) :
  0 <= n -> ncircles (fst (init_circles RAND_MAX rand n s)) = n.
Proof.
  intros Hn. unfold ncircles, init_circles.
  assert (L : forall count s0, length (fst (init_loop RAND_MAX rand count s0)) = count).
  { induction count as [|count IH]; intros s0; cbn [init_loop]; [reflexivity|].
    unfold randab. destruct (rand s0) as [v1 s1]. destruct (rand s1) as [v2 s2].
    destruct (rand s2) as [v3 s3]. specialize (IH s3).
    destruct (init_loop RAND_MAX rand count s3) as [rest s4].
    cbn [fst length] in *. now f_equal. }
  rewrite L. lia.
Qed.

(** ** The circles that an iteration keeps *)

Lemma local_compute_nth (h : float -> float -> float) (size : Z) (cs : circles)
      (k : nat) :
  forall rank res,
    local_compute h size rank (repeat cs k) = Done res ->
    forall j, (j < k)%nat ->
    exists t l,
      nth_error res j = Some (t, l)
      /\ compute_forces h
           (partition_start (rank + Z.of_nat j) (ncircles cs) size)
           (partition_end (rank + Z.of_nat j) (ncircles cs) size)
           (reset_displacements cs) = Done (t, l).
Proof.
  induction k as [|k IH]; intros rank res H j Hj; [lia|].
  change (repeat cs (S k)) with (cs :: repeat cs k) in H.
  rewrite local_compute_cons in H.
  rewrite (ncircles_geom _ _ (reset_geom cs)) in H.
  destruct (compute_forces h _ _ _) as [[t0 l0]| |] eqn:E; cbn [bind] in H;
    try discriminate.
  destruct (local_compute h size (rank + 1) (repeat cs k)) as [rest| |] eqn:E1;
    cbn [bind] in H; try discriminate.
  injection H as <-. destruct j as [|j].
  - exists t0, l0. split; [reflexivity|]. now rewrite Z.add_0_r.
  - destruct (IH (rank + 1) rest E1 j ltac:(lia)) as [t [l [N C]]].
    exists t, l. split; [exact N|].
    replace (rank + Z.of_nat (S j)) with (rank + 1 + Z.of_nat j) by lia. exact C.
Qed.

Lemma nth_map_snd (res : list (Z * circles)) (j : nat) (t : Z) (l : circles) :
  nth_error res j = Some (t, l) -> nth j (map snd res) [] = l.
Proof.
  intros H. apply (map_nth_error snd) in H. cbn [snd] in H.
  now apply nth_error_nth.
Qed.

Section Owner.

Variable hypotf : float -> float -> float.
Hypothesis hypotf_valid :
  forall a b, valid a = true -> valid b = true -> valid (hypotf a b) = true.

Variable cs : circles.
Hypothesis cs_wf : wf cs.

Variable size : nat.
Hypothesis size_pos : (1 <= size)%nat.
Hypothesis no_overflow : Z.of_nat size * ncircles cs <= Int.INT_MAX.

Lemma iteration_by_owner_aux :
  exists t cs',
    iteration hypotf (initial_world size cs) = Done (t, initial_world size cs')
    /\ forall k, (k < length cs)%nat ->
       let owner := if (k <? size * (length cs / size))%nat
                    then (k / (length cs / size))%nat else 0%nat in
       exists n local,
         compute_forces hypotf
           (cut (ncircles cs) (Z.of_nat size) (Z.of_nat owner))
           (cut (ncircles cs) (Z.of_nat size) (Z.of_nat owner + 1))
           (reset_displacements cs) = Done (n, local)
         /\ nth_error cs' k = option_map move_circle (nth_error local k).
Proof.
  pose proof (ncircles_nonneg cs) as N0.
  destruct (iteration_total hypotf hypotf_valid cs cs_wf size size_pos no_overflow)
    as [w' E].
  destruct (iteration_shape hypotf cs size _ w' E) as [cs' [-> R]].
  exists (Int.wrap32 (detected hypotf cs 0 (ncircles cs))), cs'.
  split; [exact E|]. intros k Hk owner.
  unfold iteration, initial_world in E. rewrite repeat_length in E.
  destruct (local_compute hypotf (Z.of_nat size) 0 (repeat cs size))
    as [res| |] eqn:El; cbn [bind] in E; try discriminate.
  injection E as _ E.
  destruct (local_compute_geom _ _ _ _ _ _ El) as [L F].
  set (locals := map snd res) in *.
  assert (Ll : length locals = size) by (unfold locals; now rewrite length_map).
  assert (Fl : Forall (fun a => length a = length cs) locals).
  { unfold locals. apply Forall_map. eapply Forall_impl; [|exact F].
    cbv beta. intros p G. apply (f_equal (@length _)) in G.
    now rewrite !length_map in G. }
  assert (Ec : cs' = move_circles (nth 0 (displacement_merge locals) [])).
  { rewrite bcast_const, length_map, length_merge, Ll in E.
    pose proof (length_merge locals) as LM. rewrite Ll in LM.
    destruct size as [|s0]; [lia|].
    destruct (displacement_merge locals) as [|m ms]; [discriminate|].
    cbn [map hd repeat nth] in E |- *. now injection E as <- _. }
  assert (Ho : (owner < size)%nat).
  { unfold owner. destruct (Nat.ltb_spec k (size * (length cs / size))) as [Hlt|];
      [|lia].
    apply Nat.Div0.div_lt_upper_bound. lia. }
  destruct (local_compute_nth _ _ _ _ _ _ El owner Ho) as [n [local [Nn C]]].
  exists n, local. split.
  - rewrite partition_start_exact, partition_end_exact in C by lia. exact C.
  - rewrite Ec. unfold move_circles. rewrite nth_error_map. f_equal.
    rewrite (merge_by_block_aux locals (length cs) 0 k Fl);
      [|unfold ncircles, Int.INT_MAX in *; nia|lia].
    rewrite Ll.
    pose proof (nth_map_snd res owner n local Nn) as Hl. fold locals in Hl.
    unfold owner in Hl. revert Hl.
    destruct (k <? size * (length cs / size))%nat; intros ->; reflexivity.
Qed.

End Owner.

(** ** The direction of the push *)

Lemma binary_round_aux_sign (prec emax : Z) (s : bool) (m e : Z) (l : location) :
  sign_bit (binary_round_aux prec emax s m e l) = None
  \/ sign_bit (binary_round_aux prec emax s m e l) = Some s.
Proof.
  unfold binary_round_aux.
  destruct (shr_fexp prec emax m e l) as [mrs' e'].
  destruct (shr_fexp prec emax _ e' loc_Exact) as [mrs'' e''].
  destruct (shr_m mrs'') as [|p|p]; [now right| |now left].
  destruct (e'' <=? emax - prec); now right.
Qed.

(** A quotient or a product that is no NaN has the sign that its
    operands give it. *)
Lemma fdiv_sign (a b : float) (sa sb : bool) :
  sign_bit a = Some sa -> sign_bit b = Some sb ->
  sign_bit (fdiv a b) = None \/ sign_bit (fdiv a b) = Some (xorb sa sb).
Proof.
  unfold fdiv.
  destruct a as [s1|s1| |s1 m1 e1], b as [s2|s2| |s2 m2 e2]; cbn [sign_bit SFdiv];
    intros [= <-] [= <-]; auto.
  destruct (SFdiv_core_binary _ _ _ _ _ _) as [[mz ez] lz].
  apply binary_round_aux_sign.
Qed.

Lemma fmul_sign (a b : float) (sa : bool) :
  sign_bit a = Some sa ->
  sign_bit (fmul a b) = None
  \/ exists sb, sign_bit b = Some sb /\ sign_bit (fmul a b) = Some (xorb sa sb).
Proof.
  unfold fmul.
  destruct a as [s1|s1| |s1 m1 e1], b as [s2|s2| |s2 m2 e2]; cbn [sign_bit SFmul];
    intros [= <-]; eauto.
  destruct (binary_round_aux_sign prec emax (xorb s1 s2) (Zpos (m1 * m2)) (e1 + e2)
              loc_Exact) as [H|H]; eauto.
Qed.

Lemma positive_sign (a : float) : flt zero a = true -> sign_bit a = Some false.
Proof.
  unfold flt, SFltb, zero.
  destruct a as [s|s| |s m e]; cbn [SFcompare sign_bit]; try discriminate;
    destruct s; try discriminate; reflexivity.
Qed.

Lemma not_below_sign (a : float) :
  is_nan a = false -> flt a EPSILON = false -> sign_bit a = Some false.
Proof.
  unfold flt, SFltb, EPSILON.
  destruct a as [s|s| |s m e]; cbn [SFcompare sign_bit is_nan]; try discriminate;
    destruct s; try discriminate; reflexivity.
Qed.

Lemma push_direction_aux (hypotf : float -> float -> float) (ci cj : circle_t) :
  (forall a b, valid a = true -> valid b = true -> valid (hypotf a b) = true) ->
  wf_circle ci -> wf_circle cj -> overlapping hypotf ci cj = true ->
  let cx := fdiv (fst (pair_overlap_xy hypotf ci cj)) K in
  let cy := fdiv (snd (pair_overlap_xy hypotf ci cj)) K in
  (flt (pair_dist hypotf ci cj) EPSILON = false ->
     (sign_bit cx = None \/ sign_bit cx = sign_bit (fsub (x cj) (x ci)))
     /\ (sign_bit cy = None \/ sign_bit cy = sign_bit (fsub (y cj) (y ci))))
  /\ (flt (pair_dist hypotf ci cj) EPSILON = true ->
      (sign_bit cx = None \/ sign_bit cx = Some false)
      /\ (sign_bit cy = None \/ sign_bit cy = Some false)).
Proof.
  intros Hv Wi Wj Ov. cbv zeta.
  pose proof (assert_passes hypotf Hv ci cj Wi Wj Ov) as Pos.
  apply positive_sign in Pos.
  assert (Nd : is_nan (pair_dist hypotf ci cj) = false).
  { unfold overlapping in Ov. now apply flt_not_nan in Ov. }
  assert (SK : sign_bit K = Some false) by reflexivity.
  assert (S2 : sign_bit (sqrtf two) = Some false) by reflexivity.
  assert (StepN : forall o, sign_bit o = None -> sign_bit (fdiv o K) = None).
  { intros o H. unfold fdiv. destruct o; try discriminate. reflexivity. }
  assert (StepS : forall o s, sign_bit o = Some s ->
                    sign_bit (fdiv o K) = None \/ sign_bit (fdiv o K) = Some s).
  { intros o s H. destruct (fdiv_sign o K s false H SK) as [H1|H1]; [now left|right].
    now rewrite xorb_false_r in H1. }
  unfold pair_overlap_xy, overlap_xy. split; intros Hd; rewrite Hd;
    cbn [fst snd].
  - pose proof (not_below_sign _ Nd Hd) as Sd.
    destruct (fdiv_sign _ _ false false Pos Sd) as [Hr|Hr].
    + (* the ratio is a NaN, and so are the products *)
      assert (Hn : fdiv (pair_overlap hypotf ci cj) (pair_dist hypotf ci cj)
                   = S754_nan).
      { revert Hr.
        destruct (fdiv (pair_overlap hypotf ci cj) (pair_dist hypotf ci cj));
          try discriminate. reflexivity. }
      rewrite Hn. split; left; reflexivity.
    + cbn [xorb] in Hr.
      assert (Prod : forall d,
                 sign_bit (fdiv (fmul (fdiv (pair_overlap hypotf ci cj)
                                            (pair_dist hypotf ci cj)) d) K) = None
                 \/ sign_bit (fdiv (fmul (fdiv (pair_overlap hypotf ci cj)
                                               (pair_dist hypotf ci cj)) d) K)
                    = sign_bit d).
      { intros d. destruct (fmul_sign _ d false Hr) as [H|[sb [Hb H]]].
        - left. now apply StepN.
        - rewrite Hb. cbn [xorb] in H. now apply StepS. }
      split; apply Prod.
  - destruct (fdiv_sign _ _ false false Pos S2) as [Hr|Hr].
    + split; left; now apply StepN.
    + cbn [xorb] in Hr. split; now apply StepS.
Qed.

(** ** Counts that fit an [int] *)

Lemma sum_from_le (f : Z -> Z) (c : Z) (count : nat) :
  forall lo, (forall i, f i <= c) -> sum_from f lo count <= c * Z.of_nat count.
Proof.
  induction count as [|count IH]; intros lo H; cbn [sum_from]; [lia|].
  specialize (IH (lo + 1) H). specialize (H lo). lia.
Qed.

Lemma row_count_le (h : float -> float -> float) (cs : circles) (i : Z) :
  row_count h cs i <= ncircles cs.
Proof.
  unfold row_count, ncircles.
  pose proof (sum_from_le (fun j => if detects h cs i j then 1 else 0) 1
                (length cs) 0) as H.
  rewrite Z.mul_1_l in H. apply H. intros j. destruct (detects h cs i j); lia.
Qed.

Lemma detected_bounds (h : float -> float -> float) (cs : circles) (s e : Z) :
  s <= e -> 0 <= detected h cs s e <= (e - s) * ncircles cs.
Proof.
  intros H. unfold detected. split.
  - apply sum_from_nonneg. apply row_count_nonneg.
  - pose proof (sum_from_le (row_count h cs) (ncircles cs) (Z.to_nat (e - s)) s
                  (row_count_le h cs)) as B.
    rewrite Z2Nat.id in B by lia. lia.
Qed.

(** * Further properties of the program *)

(** X1. A scan of the rows [start .. end_ - 1] of a well-formed array,
    the range lying within the array, completes and returns the number
    of ordered pairs [(i, j)], [i] in the range, [j] any other circle,
    that pass the overlap test, reduced to an [int]; centres and radii
    are left as they were. *)
Theorem scan_counts_detections (hypotf : float -> float -> float)
        (cs : circles) (start end_ : Z) :
  (forall a b, valid a = true -> valid b = true -> valid (hypotf a b) = true) ->
  wf cs -> 0 <= start -> end_ <= ncircles cs ->
  exists cs',
    compute_forces hypotf start end_ cs
    = Done (Int.wrap32 (detected hypotf cs start end_), cs')
    /\ map geom cs' = map geom cs.
Proof. intros Hv W. now apply compute_forces_counts. Qed.

Lemma scan_counts_detections_witness :
  exists cs',
    compute_forces hypotf_ref 0 2 two_circles
    = Done (Int.wrap32 (detected hypotf_ref two_circles 0 2), cs')
    /\ map geom cs' = map geom two_circles.
Proof.
  apply (scan_counts_detections hypotf_ref two_circles 0 2 hypotf_ref_valid
           wf_two_circles); [lia|unfold ncircles; simpl; lia].
Defined.

(** X2. Whatever the number of ranks, as long as [size * ncircles]
    and the byte count [ncircles * sizeof(circle_t)] of the broadcast
    fit an [int], the total that rank 0 prints for an iteration is
    the number of ordered overlapping pairs of the whole array: the
    partition of the rows among the ranks does not change it. *)
Theorem total_independent_of_ranks (hypotf : float -> float -> float)
        (cs : circles) (size : nat) :
  (forall a b, valid a = true -> valid b = true -> valid (hypotf a b) = true) ->
  wf cs -> (1 <= size)%nat -> Z.of_nat size * ncircles cs <= Int.INT_MAX ->
  sizeof_circle_t * ncircles cs <= Int.INT_MAX ->
  exists w',
    iteration hypotf (initial_world size cs)
    = Done (Int.wrap32 (detected hypotf cs 0 (ncircles cs)), w').
Proof. intros Hv W Hs Ho _. now apply iteration_total. Qed.

Lemma total_independent_of_ranks_witness :
  exists w',
    iteration hypotf_ref (initial_world 2 two_circles)
    = Done (Int.wrap32 (detected hypotf_ref two_circles 0 (ncircles two_circles)), w').
Proof.
  apply (total_independent_of_ranks hypotf_ref two_circles 2 hypotf_ref_valid
           wf_two_circles);
    [lia|unfold ncircles, Int.INT_MAX; simpl; lia
        |unfold sizeof_circle_t, ncircles, Int.INT_MAX; simpl; lia].
Defined.

(** X3. With a [hypotf] that ignores the signs of its arguments, the
    scan of the full range returns twice the number of overlapping
    pairs of circles: every pair is detected from each of its two
    circles. *)
Theorem full_scan_counts_pairs_twice (hypotf : float -> float -> float)
        (cs : circles) :
  (forall a b, valid a = true -> valid b = true -> valid (hypotf a b) = true) ->
  sign_blind hypotf -> wf cs ->
  exists cs',
    compute_forces hypotf 0 (ncircles cs) cs
    = Done (Int.wrap32 (2 * pairs hypotf cs), cs').
Proof.
  intros Hv Hb W.
  destruct (compute_forces_counts hypotf Hv cs W 0 (ncircles cs)) as [cs' [E _]];
    [lia|lia|].
  exists cs'. now rewrite <- (detected_twice hypotf cs Hb).
Qed.

Lemma full_scan_counts_pairs_twice_witness :
  exists cs',
    compute_forces hypotf_ref 0 (ncircles three_circles) three_circles
    = Done (Int.wrap32 (2 * pairs hypotf_ref three_circles), cs').
Proof.
  apply (full_scan_counts_pairs_twice hypotf_ref three_circles hypotf_ref_valid
           hypotf_ref_blind wf_three_circles).
Defined.

(** X5. A run that completes, the byte count
    [ncircles * sizeof(circle_t)] of the broadcast fitting an [int],
    prints one total per iteration, leaves every rank with the same
    array, and changes no radius and not the number of circles. *)
Theorem run_keeps_shape (hypotf : float -> float -> float) (cs : circles)
        (size iterations : nat) (totals : list Z) (w' : world) :
  sizeof_circle_t * ncircles cs <= Int.INT_MAX ->
  run hypotf iterations (initial_world size cs) = Done (totals, w') ->
  length totals = iterations
  /\ exists cs', w' = initial_world size cs' /\ map r cs' = map r cs.
Proof. intros _. apply run_shape_aux. Qed.

Lemma run_keeps_shape_witness :
  length [2] = 1%nat
  /\ exists cs',
       [[ mkCircle (of_Z (-20)) (of_Z 0) (of_Z 10) (of_Z (-20)) zero;
          mkCircle (of_Z 25) (of_Z 0) (of_Z 10) (of_Z 20) zero ]]
       = initial_world 1 cs'
       /\ map r cs' = map r two_circles.
Proof.
  apply (run_keeps_shape hypotf_ref two_circles 1 1).
  - unfold sizeof_circle_t, ncircles, Int.INT_MAX. simpl. lia.
  - vm_compute. reflexivity.
Defined.

(** X7. On a single rank, the byte count
    [ncircles * sizeof(circle_t)] fitting an [int], the iteration is
    the serial algorithm: reset, one scan of the full range, move; the
    reduction, the gathering and the broadcast change nothing. *)
Theorem one_rank_is_serial (hypotf : float -> float -> float) (cs : circles) :
  sizeof_circle_t * ncircles cs <= Int.INT_MAX ->
  iteration hypotf [cs]
  = (res <- compute_forces hypotf 0 (ncircles cs) (reset_displacements cs) ;;
     Done (fst res, [move_circles (snd res)])).
Proof.
  intros H. apply one_rank_aux. pose proof (ncircles_nonneg cs).
  unfold sizeof_circle_t in H. lia.
Qed.

Lemma one_rank_is_serial_witness :
  iteration hypotf_ref [two_circles]
  = (res <- compute_forces hypotf_ref 0 (ncircles two_circles)
              (reset_displacements two_circles) ;;
     Done (fst res, [move_circles (snd res)])).
Proof.
  apply (one_rank_is_serial hypotf_ref two_circles).
  unfold sizeof_circle_t, ncircles, Int.INT_MAX. simpl. lia.
Defined.

(** X8. A scene in which the scan detects no pair, and no centre has a
    negative zero coordinate, is a fixed point: on any number of ranks
    with [size * ncircles] and the byte count
    [ncircles * sizeof(circle_t)] fitting an [int], every iteration
    reports zero and the arrays stay as they are, displacements
    zeroed. *)
Theorem quiet_scene_fixed (hypotf : float -> float -> float) (cs : circles)
        (size iterations : nat) :
  (1 <= size)%nat -> Z.of_nat size * ncircles cs <= Int.INT_MAX ->
  sizeof_circle_t * ncircles cs <= Int.INT_MAX ->
  detected hypotf cs 0 (ncircles cs) = 0 -> no_negative_zero cs = true ->
  run hypotf (S iterations) (initial_world size cs)
  = Done (repeat 0 (S iterations), initial_world size (reset_displacements cs)).
Proof. intros Hs Ho _. now apply run_nothing_aux. Qed.

Lemma quiet_scene_fixed_witness :
  run hypotf_ref 3 (initial_world 2 [c_origin; c_far])
  = Done (repeat 0 3, initial_world 2 (reset_displacements [c_origin; c_far])).
Proof.
  apply (quiet_scene_fixed hypotf_ref [c_origin; c_far] 2 2).
  - lia.
  - unfold ncircles, Int.INT_MAX. simpl. lia.
  - unfold sizeof_circle_t, ncircles, Int.INT_MAX. simpl. lia.
  - vm_compute. reflexivity.
  - reflexivity.
Defined.

(** X9. A circle that overlaps no other is left untouched by every
    scan: [compute_forces] writes only to the circles of the pairs it
    detects. *)
Theorem scan_touches_detected_only (hypotf : float -> float -> float)
        (cs : circles) (start end_ k : Z) :
  (forall a b, valid a = true -> valid b = true -> valid (hypotf a b) = true) ->
  sign_blind hypotf -> wf cs -> 0 <= start -> end_ <= ncircles cs ->
  row_count hypotf cs k = 0 ->
  exists n cs',
    compute_forces hypotf start end_ cs = Done (n, cs')
    /\ get cs' k = get cs k.
Proof.
  intros Hv Hb W Hs He Hk.
  destruct (compute_forces_total hypotf Hv start end_ cs W Hs He) as [n [cs' [E _]]].
  exists n, cs'. split; [exact E|].
  apply (compute_forces_untouched_aux hypotf cs cs' start end_ n k E).
  intros i j _ D. split; intros ->.
  - now rewrite (row_zero hypotf cs i Hk j) in D.
  - rewrite (detects_sym hypotf cs i j Hb) in D.
    now rewrite (row_zero hypotf cs j Hk i) in D.
Qed.

Lemma scan_touches_detected_only_witness :
  exists n cs',
    compute_forces hypotf_ref 0 3 three_circles = Done (n, cs')
    /\ get cs' 2 = get three_circles 2.
Proof.
  apply (scan_touches_detected_only hypotf_ref three_circles 0 3 2
           hypotf_ref_valid hypotf_ref_blind wf_three_circles).
  - lia.
  - unfold ncircles. simpl. lia.
  - vm_compute. reflexivity.
Defined.

(** X11. The run never aborts: from a well-formed array, with a
    [hypotf] that returns floats of the format, and with
    [size * ncircles] and the byte count [ncircles * sizeof(circle_t)]
    fitting an [int], any number of iterations completes (no assertion
    fails, no access is out of bounds) and the final array is
    well-formed again. *)
Theorem run_completes (hypotf : float -> float -> float) (cs : circles)
        (size iterations : nat) :
  (forall a b, valid a = true -> valid b = true -> valid (hypotf a b) = true) ->
  wf cs -> (1 <= size)%nat -> Z.of_nat size * ncircles cs <= Int.INT_MAX ->
  sizeof_circle_t * ncircles cs <= Int.INT_MAX ->
  exists totals cs',
    run hypotf iterations (initial_world size cs)
    = Done (totals, initial_world size cs')
    /\ wf cs'.
Proof.
  intros Hv W Hs Ho _.
  now apply (run_completes_aux hypotf Hv size Hs iterations cs).
Qed.

Lemma run_completes_witness :
  exists totals cs',
    run hypotf_ref 3 (initial_world 2 two_circles)
    = Done (totals, initial_world 2 cs')
    /\ wf cs'.
Proof.
  apply (run_completes hypotf_ref two_circles 2 3 hypotf_ref_valid wf_two_circles);
    [lia|unfold ncircles, Int.INT_MAX; simpl; lia
        |unfold sizeof_circle_t, ncircles, Int.INT_MAX; simpl; lia].
Defined.

(** X12. Whatever [rand()] returns within [0 .. RAND_MAX], every circle
    that [init_circles(n)] draws has its centre in the square
    [XMIN .. XMAX] x [YMIN .. YMAX], its radius in [RMIN .. RMAX], no
    displacement, and floats of the format in its fields; [n] circles
    are drawn. *)
Theorem drawn_circles_in_bounds (RAND_MAX : Z) (rand_state : Type)
        (rand : rand_state -> Z * rand_state) (n : Z) (s : rand_state) :
  1 <= RAND_MAX <= Int.INT_MAX ->
  (forall s0, 0 <= fst (rand s0) <= RAND_MAX) ->
  0 <= n ->
  ncircles (fst (init_circles RAND_MAX rand n s)) = n
  /\ Forall (fun c => initial_circle c = true /\ wf_circle c)
       (fst (init_circles RAND_MAX rand n s)).
Proof.
  intros HR Hr Hn. split; [now apply ncircles_init|].
  unfold init_circles. now apply init_loop_spec.
Qed.

Lemma drawn_circles_in_bounds_witness :
  ncircles (fst (init_circles 32767 sample_rand 3 1)) = 3
  /\ Forall (fun c => initial_circle c = true /\ wf_circle c)
       (fst (init_circles 32767 sample_rand 3 1)).
Proof.
  apply (drawn_circles_in_bounds 32767 Z sample_rand 3 1).
  - unfold Int.INT_MAX. lia.
  - exact sample_rand_range.
  - lia.
Defined.

(** X13. The program as [main] runs it completes: the circles that
    rank 0 draws and broadcasts are well-formed, so that with a
    [hypotf] that returns floats of the format, and with [size * n]
    and the byte count [n * sizeof(circle_t)] fitting an [int], no
    iteration aborts. *)
Theorem program_completes (hypotf : float -> float -> float) (RAND_MAX : Z)
        (rand_state : Type) (rand : rand_state -> Z * rand_state)
        (n : Z) (s : rand_state) (size iterations : nat) :
  (forall a b, valid a = true -> valid b = true -> valid (hypotf a b) = true) ->
  1 <= RAND_MAX <= Int.INT_MAX ->
  (forall s0, 0 <= fst (rand s0) <= RAND_MAX) ->
  0 <= n -> (1 <= size)%nat -> Z.of_nat size * n <= Int.INT_MAX ->
  sizeof_circle_t * n <= Int.INT_MAX ->
  exists totals cs',
    run hypotf iterations
      (initial_world size (fst (init_circles RAND_MAX rand n s)))
    = Done (totals, initial_world size cs')
    /\ wf cs'.
Proof.
  intros Hv HR Hr Hn Hs Ho _.
  apply (run_completes_aux hypotf Hv size Hs iterations).
  - unfold init_circles.
    destruct (init_loop_spec RAND_MAX rand_state rand HR Hr (Z.to_nat n) s) as [_ F].
    eapply Forall_impl; [|exact F]. now intros c [_ W].
  - now rewrite ncircles_init.
Qed.

Lemma program_completes_witness :
  exists totals cs',
    run hypotf_ref 2 (initial_world 2 (fst (init_circles 32767 sample_rand 3 1)))
    = Done (totals, initial_world 2 cs')
    /\ wf cs'.
Proof.
  apply (program_completes hypotf_ref 32767 Z sample_rand 3 1 2 2 hypotf_ref_valid).
  - unfold Int.INT_MAX. lia.
  - exact sample_rand_range.
  - lia.
  - lia.
  - unfold Int.INT_MAX. lia.
  - unfold sizeof_circle_t, Int.INT_MAX. lia.
Defined.

(** X14. With more ranks than circles the overlaps are counted but
    nothing moves: the receive count [ncircles / size] of the
    gathering is zero, rank 0 scans no row, and the array that rank 0
    broadcasts is its own, with the displacements it reset. *)
Theorem crowded_ranks_freeze (hypotf : float -> float -> float) (cs : circles)
        (size : nat) :
  (forall a b, valid a = true -> valid b = true -> valid (hypotf a b) = true) ->
  wf cs -> ncircles cs < Z.of_nat size ->
  Z.of_nat size * ncircles cs <= Int.INT_MAX -> Z.of_nat size <= Int.INT_MAX ->
  iteration hypotf (initial_world size cs)
  = Done (Int.wrap32 (detected hypotf cs 0 (ncircles cs)),
          initial_world size (move_circles (reset_displacements cs))).
Proof.
  intros Hv W Hn Ho Hs. pose proof (ncircles_nonneg cs) as N0.
  destruct (iteration_total hypotf Hv cs W size ltac:(lia) Ho) as [w' E].
  rewrite E. now rewrite (crowded_aux hypotf cs size _ w' Hn Hs E).
Qed.

Lemma crowded_ranks_freeze_witness :
  iteration hypotf_ref (initial_world 3 two_circles)
  = Done (Int.wrap32 (detected hypotf_ref two_circles 0 (ncircles two_circles)),
          initial_world 3 (move_circles (reset_displacements two_circles))).
Proof.
  apply (crowded_ranks_freeze hypotf_ref two_circles 3 hypotf_ref_valid
           wf_two_circles); unfold ncircles, Int.INT_MAX; simpl; lia.
Defined.

(** X15. An iteration reads only centres and radii: arrays that differ
    in the displacements left by an earlier iteration give the same
    total and the same arrays. *)
Theorem iteration_reads_geometry_only (hypotf : float -> float -> float)
        (w1 w2 : world) :
  map (map geom) w1 = map (map geom) w2 ->
  iteration hypotf w1 = iteration hypotf w2.
Proof.
  intros H. unfold iteration.
  assert (L : length w1 = length w2).
  { pose proof (f_equal (@length _) H) as L0. rewrite !length_map in L0.
    exact L0. }
  now rewrite L, (local_compute_of_geom hypotf _ w1 w2 0 H).
Qed.

Lemma iteration_reads_geometry_only_witness :
  iteration hypotf_ref [two_circles]
  = iteration hypotf_ref [map (set_dx (of_Z 1)) two_circles].
Proof.
  apply (iteration_reads_geometry_only hypotf_ref [two_circles]
           [map (set_dx (of_Z 1)) two_circles]).
  reflexivity.
Defined.

(** X16. What an iteration on [size] ranks keeps, [size * ncircles]
    and the byte count [ncircles * sizeof(circle_t)] fitting an
    [int]: circle [k] of the
    array that every rank holds afterwards is the circle that one
    rank, its owner, obtained by scanning its own rows only, moved by
    the displacement that this scan accumulated.  The owner is rank
    [k / (ncircles / size)] for [k] below [size * (ncircles / size)]
    and rank 0 for the circles behind; what the other ranks
    accumulated for the circle is dropped. *)
Theorem iteration_by_owner (hypotf : float -> float -> float) (cs : circles)
        (size : nat) :
  (forall a b, valid a = true -> valid b = true -> valid (hypotf a b) = true) ->
  wf cs -> (1 <= size)%nat -> Z.of_nat size * ncircles cs <= Int.INT_MAX ->
  sizeof_circle_t * ncircles cs <= Int.INT_MAX ->
  exists t cs',
    iteration hypotf (initial_world size cs) = Done (t, initial_world size cs')
    /\ forall k, (k < length cs)%nat ->
       let owner := if (k <? size * (length cs / size))%nat
                    then (k / (length cs / size))%nat else 0%nat in
       exists n local,
         compute_forces hypotf
           (cut (ncircles cs) (Z.of_nat size) (Z.of_nat owner))
           (cut (ncircles cs) (Z.of_nat size) (Z.of_nat owner + 1))
           (reset_displacements cs) = Done (n, local)
         /\ nth_error cs' k = option_map move_circle (nth_error local k).
Proof. intros Hv W Hs Ho _. now apply iteration_by_owner_aux. Qed.

Lemma iteration_by_owner_witness :
  exists t cs',
    iteration hypotf_ref (initial_world 2 three_circles)
    = Done (t, initial_world 2 cs')
    /\ forall k, (k < length three_circles)%nat ->
       let owner := if (k <? 2 * (length three_circles / 2))%nat
                    then (k / (length three_circles / 2))%nat else 0%nat in
       exists n local,
         compute_forces hypotf_ref
           (cut (ncircles three_circles) (Z.of_nat 2) (Z.of_nat owner))
           (cut (ncircles three_circles) (Z.of_nat 2) (Z.of_nat owner + 1))
           (reset_displacements three_circles) = Done (n, local)
         /\ nth_error cs' k = option_map move_circle (nth_error local k).
Proof.
  apply (iteration_by_owner hypotf_ref three_circles 2 hypotf_ref_valid
           wf_three_circles);
    [lia|unfold ncircles, Int.INT_MAX; simpl; lia
        |unfold sizeof_circle_t, ncircles, Int.INT_MAX; simpl; lia].
Defined.

(** X18. The count is exact as long as the number of pairs scanned
    fits an [int]: for a range of [end_ - start] rows with
    [(end_ - start) * ncircles <= INT_MAX] the scan returns the number
    of detected ordered pairs itself, which lies between 0 and that
    product; no wrap-around occurs. *)
Theorem count_exact (hypotf : float -> float -> float) (cs : circles)
        (start end_ : Z) :
  (forall a b, valid a = true -> valid b = true -> valid (hypotf a b) = true) ->
  wf cs -> 0 <= start <= end_ -> end_ <= ncircles cs ->
  (end_ - start) * ncircles cs <= Int.INT_MAX ->
  exists cs',
    compute_forces hypotf start end_ cs = Done (detected hypotf cs start end_, cs')
    /\ 0 <= detected hypotf cs start end_ <= (end_ - start) * ncircles cs.
Proof.
  intros Hv W Hs He Hb.
  destruct (compute_forces_counts hypotf Hv cs W start end_) as [cs' [E _]];
    [lia|lia|].
  pose proof (detected_bounds hypotf cs start end_ ltac:(lia)) as B.
  exists cs'. split; [|exact B].
  rewrite E. do 2 f_equal. apply wrap32_id.
  unfold Int.in_range, Int.INT_MIN, Int.INT_MAX in *. lia.
Qed.

Lemma count_exact_witness :
  exists cs',
    compute_forces hypotf_ref 0 3 three_circles
    = Done (detected hypotf_ref three_circles 0 3, cs')
    /\ 0 <= detected hypotf_ref three_circles 0 3 <= (3 - 0) * ncircles three_circles.
Proof.
  apply (count_exact hypotf_ref three_circles 0 3 hypotf_ref_valid wf_three_circles).
  - lia.
  - unfold ncircles. simpl. lia.
  - unfold ncircles, Int.INT_MAX. simpl. lia.
Defined.

(** X17. The push is repulsive.  For a detected pair [(i, j)] the step
    subtracts the contributions [overlap_x / K] and [overlap_y / K]
    from the displacement of circle [i] and adds them to that of
    circle [j].  When the centres do not coincide, the contribution
    along [x] is a NaN or has the sign of [x_j - x_i], and likewise
    along [y]: circle [j] is never pushed towards circle [i], nor [i]
    towards [j].  When the centres coincide ([dist < EPSILON]) it is a
    NaN or has a positive sign on both axes. *)
Theorem push_direction (hypotf : float -> float -> float)
        (i j n : Z) (cs : circles) (ci cj : circle_t) :
  (forall a b, valid a = true -> valid b = true -> valid (hypotf a b) = true) ->
  wf cs -> i <> j -> get cs i = Done ci -> get cs j = Done cj ->
  overlapping hypotf ci cj = true ->
  let cx := fdiv (fst (pair_overlap_xy hypotf ci cj)) K in
  let cy := fdiv (snd (pair_overlap_xy hypotf ci cj)) K in
  exists cs',
    pair_step hypotf i j (n, cs) = Done (Int.add n 1, cs')
    /\ get cs' i = Done (mkCircle (x ci) (y ci) (r ci)
                           (fsub (dx ci) cx) (fsub (dy ci) cy))
    /\ get cs' j = Done (mkCircle (x cj) (y cj) (r cj)
                           (fadd (dx cj) cx) (fadd (dy cj) cy))
    /\ (flt (pair_dist hypotf ci cj) EPSILON = false ->
        (sign_bit cx = None \/ sign_bit cx = sign_bit (fsub (x cj) (x ci)))
        /\ (sign_bit cy = None \/ sign_bit cy = sign_bit (fsub (y cj) (y ci))))
    /\ (flt (pair_dist hypotf ci cj) EPSILON = true ->
        (sign_bit cx = None \/ sign_bit cx = Some false)
        /\ (sign_bit cy = None \/ sign_bit cy = Some false)).
Proof.
  intros Hv W Hij Gi Gj Ov. cbv zeta.
  destruct (pair_step_detected hypotf Hv i j n cs ci cj W Hij Gi Gj Ov)
    as [cs' [E [Ei Ej]]].
  destruct (push_direction_aux hypotf ci cj Hv (wf_get cs i ci W Gi)
              (wf_get cs j cj W Gj) Ov) as [Far Near].
  exists cs'. repeat split; try assumption; try (now apply Far);
    now apply Near.
Qed.

Lemma push_direction_witness :
  exists cs',
    pair_step hypotf_ref 0 1 (0, two_circles) = Done (Int.add 0 1, cs')
    /\ get cs' 0
       = Done (mkCircle (x c_origin) (y c_origin) (r c_origin)
                 (fsub (dx c_origin)
                    (fdiv (fst (pair_overlap_xy hypotf_ref c_origin c_right)) K))
                 (fsub (dy c_origin)
                    (fdiv (snd (pair_overlap_xy hypotf_ref c_origin c_right)) K)))
    /\ get cs' 1
       = Done (mkCircle (x c_right) (y c_right) (r c_right)
                 (fadd (dx c_right)
                    (fdiv (fst (pair_overlap_xy hypotf_ref c_origin c_right)) K))
                 (fadd (dy c_right)
                    (fdiv (snd (pair_overlap_xy hypotf_ref c_origin c_right)) K)))
    /\ sign_bit (fdiv (fst (pair_overlap_xy hypotf_ref c_origin c_right)) K)
       = sign_bit (fsub (x c_right) (x c_origin)).
Proof.
  destruct (push_direction hypotf_ref 0 1 0 two_circles c_origin c_right
              hypotf_ref_valid wf_two_circles ltac:(lia) eq_refl eq_refl eq_refl)
    as [cs' [E [Ei [Ej _]]]].
  exists cs'. split; [exact E|]. split; [exact Ei|]. split; [exact Ej|].
  vm_compute. reflexivity.
Defined.
